(** * Endless Translating: the quiz session engine of [src/App.tsx]

    A shallow embedding of the engine of the translation trainer
    (corpus ingestion, answer scoring, the LanguageTool adapter and the
    submit / transition cycle of the React component) together with the
    properties its specification states.

    Conventions of the embedding.

    - A JavaScript string is the list of its UTF-16 code units
      ([jsstring], a [list N]); [units] turns an ASCII literal into one.
    - [String.prototype.toLowerCase] is a platform built-in whose Unicode
      table is not part of the repository.  Its ASCII and white-space
      behaviour is written out; the expansion of every other code unit,
      which may depend on the text around it (final sigma, surrogate
      pairs), is the section variable [lowerAt].
    - A JavaScript number that the code obtains as a quotient of two set
      sizes is the exact rational ([Q]); module [Binary64] writes the
      same functions on IEEE doubles, and the two are proved to give the
      same label ([evaluateAnswer_on_doubles]).
    - [Math.random()], the HTTP exchange and the measured frame height are
      inputs of the functions that consume them.
    - An [async] function is split at its [await]: the part before it
      returns the values the continuation closes over.
    - The repository holds several states of the component.  The one with
      frames and the animated transition is embedded at the top level,
      the component of [src/App.tsx] in module [AppTsx], the grammar
      adapter of the earliest file in module [Legacy], and the component
      before the animation, with the evaluator of the earlier files and
      its two error cells, in module [Earlier].
    - Module [OnDoubles] writes [randomPair] on IEEE doubles, with the
      product rounded as the engine rounds it. *)

From Stdlib Require Import QArith Qround SpecFloat Ascii DecimalString Zpower.
From stdpp Require Import base numbers list strings gmap sets.

Local Open Scope nat_scope.

(** ** JavaScript strings *)

Abbreviation jsstring := (list N).

Fixpoint units (s : string) : jsstring :=
  match s with
  | EmptyString => []
  | String a s' => N_of_ascii a :: units s'
  end.

(** Truthiness of a string: the empty string is the only falsy one. *)
Definition truthy (s : jsstring) : bool :=
  match s with [] => false | _ :: _ => true end.

(** The class [\s] of regular expressions, which is also what [trim]
    strips: WhiteSpace and LineTerminator of ECMAScript. *)
Definition isSpace (c : N) : bool :=
  ((9 <=? c) && (c <=? 13) || (c =? 32) || (c =? 160) || (c =? 5760)
   || (8192 <=? c) && (c <=? 8202) || (c =? 8232) || (c =? 8233)
   || (c =? 8239) || (c =? 8287) || (c =? 12288) || (c =? 65279))%N.

Fixpoint trimStart (s : jsstring) : jsstring :=
  match s with
  | [] => []
  | c :: s' => if isSpace c then trimStart s' else s
  end.

Definition trimEnd (s : jsstring) : jsstring := rev (trimStart (rev s)).

Definition trim (s : jsstring) : jsstring := trimEnd (trimStart s).

(** Puts [c] in front of the first piece of a split. *)
Definition consHead (c : N) (pieces : list jsstring) : list jsstring :=
  match pieces with
  | [] => [[c]]
  | p :: ps => (c :: p) :: ps
  end.

(** [s.split(sep)] for a one-unit separator string. *)
Fixpoint splitChar (sep : N) (s : jsstring) : list jsstring :=
  match s with
  | [] => [[]]
  | c :: s' =>
      if (c =? sep)%N then [] :: splitChar sep s'
      else consHead c (splitChar sep s')
  end.

Definition LF : N := 10.
Definition CR : N := 13.
Definition TAB : N := 9.

(** [s.split(/\r?\n/)]: a separator is a line feed, together with the
    carriage return just before it when there is one. *)
Fixpoint splitLines (s : jsstring) : list jsstring :=
  match s with
  | [] => [[]]
  | c :: s' =>
      if (c =? LF)%N then [] :: splitLines s'
      else
        match s' with
        | d :: s'' =>
            if (c =? CR)%N && (d =? LF)%N then [] :: splitLines s''
            else consHead c (splitLines s')
        | [] => [[c]]
        end
  end.

(** [s.split(/\s+/)]: a separator is a maximal run of white space;
    [inRun] tells that the unit before the current one was white space,
    so that the run has already opened a new piece. *)
Fixpoint splitSpaceFrom (inRun : bool) (s : jsstring) : list jsstring :=
  match s with
  | [] => [[]]
  | c :: s' =>
      if isSpace c then
        if inRun then splitSpaceFrom true s' else [] :: splitSpaceFrom true s'
      else consHead c (splitSpaceFrom false s')
  end.

Definition splitSpace (s : jsstring) : list jsstring := splitSpaceFrom false s.

(** The decimal numeral of a template literal [${n}]. *)
Definition decimal (n : nat) : jsstring :=
  units (NilZero.string_of_uint (Nat.to_uint n)).

(** ** CorpusStore *)

Record CorpusPair := { eng : jsstring; jpn : jsstring }.

(** One turn of the [for (const line of lines)] loop of [parseCorpus];
    [result] is the array being filled by [push]. *)
Definition parseLine (result : list CorpusPair) (line : jsstring)
  : list CorpusPair :=
  if negb (truthy (trim line)) then result
  else
    let cols := splitChar TAB line in
    if 4 <=? length cols then
      let eng := trim (default [] (cols !! 1)) in
      let jpn := trim (default [] (cols !! 3)) in
      if truthy eng && truthy jpn
      then result ++ [{| eng := eng; jpn := jpn |}]
      else result
    else result.

Definition parseCorpus (tsv : jsstring) : list CorpusPair :=
  fold_left parseLine (splitLines tsv) [].

(** [randomPair]; [u] is the value of [Math.random()]. *)
Definition randomPair (u : Q) (pairs : list CorpusPair) : option CorpusPair :=
  if length pairs =? 0 then None
  else
    let i := Qfloor (u * inject_Z (Z.of_nat (length pairs))) in
    if (i <? 0)%Z then None else pairs !! Z.to_nat i.

(** The acceptance rule of the specification, one line at a time: a line
    gives a pair when it has at least four tab-separated fields and its
    fields 1 and 3 are not empty once trimmed; the pair holds the two
    trimmed fields. *)
Definition field (i : nat) (line : jsstring) : jsstring :=
  default [] (splitChar TAB line !! i).

Definition acceptedPair (line : jsstring) : option CorpusPair :=
  if (4 <=? length (splitChar TAB line))
     && truthy (trim (field 1 line)) && truthy (trim (field 3 line))
  then Some {| eng := trim (field 1 line); jpn := trim (field 3 line) |}
  else None.

(** A record of the corpus file, as the comment of [parseCorpus] in the
    earlier files gives it: an identifier, the English sentence, a second
    identifier and the Japanese sentence, separated by tabs. *)
Definition recordLine (id1 : jsstring) (p : CorpusPair) (id2 : jsstring)
  : jsstring :=
  id1 ++ [TAB] ++ eng p ++ [TAB] ++ id2 ++ [TAB] ++ jpn p.

(** A corpus file: one record per line, each line closed by [eol]. *)
Definition corpusFile (eol : jsstring)
    (rows : list (jsstring * CorpusPair * jsstring)) : jsstring :=
  flat_map (λ '(id1, p, id2), recordLine id1 p id2 ++ eol) rows.

(** A field that holds no tab and no line feed, and a sentence that can
    be stored: such a field that is not empty and has no white space at
    either end. *)
Definition plainField (s : jsstring) : Prop := (TAB ∉ s) ∧ (LF ∉ s).

Definition storable (s : jsstring) : Prop :=
  s ≠ [] ∧ trim s = s ∧ plainField s.

(** ** Evaluator *)

Inductive EvaluationLabel := EXACT | NEAR | PARTIAL | DIFFERENT.

(** The four messages [evaluateAnswer] returns, as code units; each opens
    with its mark (U+25CE, U+25CB, U+25B3, U+00D7) and a space. *)
Definition exactText : jsstring :=
  [9678; 32; 23436; 20840; 19968; 33268; 12391; 12377; 12290]%N.

Definition nearText : jsstring :=
  [9675; 32; 12363; 12394; 12426; 36817; 12356; 34920; 29694; 12391; 12377;
   12290]%N.

Definition partialText : jsstring :=
  [9651; 32; 19968; 37096; 12399; 21512; 12387; 12390; 12356; 12414; 12377;
   12364; 36949; 12356; 12364; 12354; 12426; 12414; 12377; 12290]%N.

Definition differentText : jsstring :=
  [215; 32; 34920; 29694; 12364; 22823; 12365; 12367; 30064; 12394; 12426;
   12414; 12377; 12290]%N.

(** The message each label of the specification is bound to. *)
Definition displayMessage (l : EvaluationLabel) : jsstring :=
  match l with
  | EXACT => exactText
  | NEAR => nearText
  | PARTIAL => partialText
  | DIFFERENT => differentText
  end.

Inductive Severity := success | info | warning | error.

(** The [severity] of the alert that shows a result: the chain of
    [startsWith] tests on the message. *)
Definition severity (evalText : jsstring) : Severity :=
  match evalText with
  | c :: _ =>
      if (c =? 9678)%N then success
      else if (c =? 9675)%N then info
      else if (c =? 9651)%N then warning
      else error
  | [] => error
  end.

Definition asciiLower (c : N) : N :=
  if ((65 <=? c) && (c <=? 90))%N then (c + 32)%N else c.

(** The character class of [normalizeExact]: full stop, comma,
    exclamation mark, question mark, semicolon, colon, the two round
    brackets, the double quote and the apostrophe. *)
Definition isPunctuation (c : N) : bool :=
  ((c =? 46) || (c =? 44) || (c =? 33) || (c =? 63) || (c =? 59)
   || (c =? 58) || (c =? 40) || (c =? 41) || (c =? 34) || (c =? 39))%N.

(** The character class of [tokenize]: the ASCII letters, the apostrophe
    (U+0027) and the right single quotation mark (U+2019). *)
Definition isTokenChar (c : N) : bool :=
  ((97 <=? c) && (c <=? 122) || (65 <=? c) && (c <=? 90)
   || (c =? 39) || (c =? 8217))%N.

(** [new Set(a)] and [new Set(b)], the count of the members of the first
    that the second [has], and the quotient. *)
Definition jaccardSimilarity (a b : list jsstring) : Q :=
  let A : gset jsstring := list_to_set a in
  let B : gset jsstring := list_to_set b in
  let inter := length (List.filter (λ x, bool_decide (x ∈ B)) (elements A)) in
  if size A + size B =? 0 then 0%Q
  else (inject_Z (Z.of_nat (inter * 2)) / inject_Z (Z.of_nat (size A + size B)))%Q.

Section Evaluator.

(** What [toLowerCase] puts in place of a code unit that is neither
    ASCII nor white space, given the text before and after it. *)
Variable lowerAt : jsstring → N → jsstring → jsstring.

Definition lowerUnit (before : jsstring) (c : N) (after : jsstring)
  : jsstring :=
  if (c <? 128)%N then [asciiLower c]
  else if isSpace c then [c]
  else lowerAt before c after.

Fixpoint lowerFrom (before s : jsstring) : jsstring :=
  match s with
  | [] => []
  | c :: s' => lowerUnit before c s' ++ lowerFrom (before ++ [c]) s'
  end.

Definition toLowerCase (s : jsstring) : jsstring := lowerFrom [] s.

Definition normalizeExact (text : jsstring) : jsstring :=
  trim (List.filter (λ c, negb (isPunctuation c)) (toLowerCase text)).

Definition tokenize (text : jsstring) : list jsstring :=
  List.filter truthy
    (map (List.filter isTokenChar) (splitSpace (toLowerCase text))).

(** [tokenize] in the words of the specification: split on runs of white
    space, then, chunk by chunk, lower the case, keep the token characters
    and drop the chunks left empty.  The earlier files of the repository
    write [tokenize] in this order. *)
Definition tokenizeSpec (text : jsstring) : list jsstring :=
  List.filter truthy
    (map (λ chunk, List.filter isTokenChar (toLowerCase chunk))
       (splitSpace text)).

Definition evaluateAnswer (model user : jsstring) : jsstring :=
  if decide (normalizeExact model = normalizeExact user) then exactText
  else
    let sim := jaccardSimilarity (tokenize model) (tokenize user) in
    if Qle_bool 0.8 sim then nearText
    else if Qle_bool 0.5 sim then partialText
    else differentText.

End Evaluator.

(** A one-pass reading of the same tokens, used to compare the two
    orders of splitting and lowering: [kept c] is what a unit contributes
    to its token and [cur] is the token being collected. *)
Definition emit (cur : jsstring) : list jsstring :=
  if truthy cur then [cur] else [].

Fixpoint scanTokens (kept : N → jsstring) (cur s : jsstring) : list jsstring :=
  match s with
  | [] => emit cur
  | c :: s' =>
      if isSpace c then emit cur ++ scanTokens kept [] s'
      else scanTokens kept (cur ++ kept c) s'
  end.

(** Puts [cur] in front of the first piece. *)
Definition withHead (cur : jsstring) (pieces : list jsstring) : list jsstring :=
  match pieces with
  | [] => [cur]
  | p :: ps => (cur ++ p) :: ps
  end.

(** ** GrammarChecker *)

Record LTReplacement := { value : jsstring }.

Record LTMatch := { message : jsstring; replacements : list LTReplacement }.

Record LTResponse := { matches : list LTMatch }.

(** The request [checkGrammar] hands to [fetch]: the endpoint, the method
    and the two form parameters. *)
Record Request := {
  url : jsstring;
  method : jsstring;
  params : list (jsstring * jsstring)
}.

(** What [res.json()] settles to: the parsed grammar response, or a
    rejection when the body is not JSON. *)
Inductive Body := BodyJson (j : LTResponse) | BodyInvalid.

Record Response := { status : nat; statusText : jsstring; body : Body }.

(** [res.ok] of the Fetch standard: the status is in the range 200-299. *)
Definition ok (res : Response) : bool :=
  (200 <=? status res) && (status res <=? 299).

(** What the promise of [fetch] settles to: a response (of any status),
    or a rejection when no response arrives at all. *)
Inductive FetchOutcome := Resolved (res : Response) | Rejected.

Inductive Failure := NetworkError | BodySyntaxError.

(** How a call ends for its caller: with a value, or by raising. *)
Inductive Completion (A : Type) := Returns (a : A) | Throws (e : Failure).
Arguments Returns {A} a.
Arguments Throws {A} e.

Definition grammarRequest (sentence : jsstring) : Request :=
  {| url := units "https://api.languagetool.org/v2/check";
     method := units "POST";
     params := [(units "text", sentence); (units "language", units "en-US")] |}.

(** The text before the status in the diagnostic of a failed exchange;
    the three code units in the middle are the katakana of the word for
    error. *)
Definition httpErrorPrefix : jsstring :=
  units "LanguageTool HTTP" ++ [12456; 12521; 12540]%N ++ units ": ".

(** The sentinel of a response without findings. *)
Definition noIssues : jsstring :=
  [25991; 27861; 19978; 12398; 21839; 38988; 12399; 29305; 12395; 35211;
   12388; 12363; 12426; 12414; 12379; 12435; 12391; 12375; 12383; 12290]%N.

(** The separator: a space, the rightwards arrow U+2192, a space. *)
Definition arrow : jsstring := [32; 8594; 32]%N.

(** The callback of [json.matches.map]; [sug] is
    [m.replacements[0]?.value], undefined without a first replacement,
    and the conditional tests its truthiness. *)
Definition formatMatch (i : nat) (m : LTMatch) : jsstring :=
  let sug := value <$> head (replacements m) in
  let indexed := decimal (i + 1) ++ units ". " ++ message m in
  match sug with
  | Some v => if truthy v then indexed ++ arrow ++ v else indexed
  | None => indexed
  end.

Definition checkGrammar (fetch : Request → FetchOutcome) (sentence : jsstring)
  : Completion (list jsstring) :=
  match fetch (grammarRequest sentence) with
  | Rejected => Throws NetworkError
  | Resolved res =>
      if negb (ok res) then Returns [httpErrorPrefix ++ decimal (status res)]
      else
        match body res with
        | BodyInvalid => Throws BodySyntaxError
        | BodyJson json =>
            if length (matches json) =? 0 then Returns [noIssues]
            else Returns (imap formatMatch (matches json))
        end
  end.

(** The earlier grammar adapter, whose formatting lives in a function of
    its own ([formatMatches]) and whose diagnostic also carries the
    status text. *)
Module Legacy.

(** Three spaces, the arrow, and the word Suggestion. *)
Definition suggestionPrefix : jsstring :=
  units "   " ++ [8594]%N ++ units " Suggestion: ".

(** One call of the [forEach] callback; [result] is the array being
    filled. *)
Definition pushMatch (result : list jsstring) (entry : nat * LTMatch)
  : list jsstring :=
  let '(idx, m) := entry in
  let header := decimal (idx + 1) ++ units ". " ++ message m in
  let sugg :=
    match replacements m with
    | r :: _ => suggestionPrefix ++ value r
    | [] => []
    end in
  let result := result ++ [header] in
  if truthy sugg then result ++ [sugg] else result.

Definition formatMatches (matches : list LTMatch) : list jsstring :=
  if length matches =? 0 then [noIssues]
  else fold_left pushMatch (imap pair matches) [].

Definition checkGrammar (fetch : Request → FetchOutcome) (sentence : jsstring)
  : Completion (list jsstring) :=
  match fetch (grammarRequest sentence) with
  | Rejected => Throws NetworkError
  | Resolved res =>
      if negb (ok res)
      then Returns [httpErrorPrefix ++ decimal (status res) ++ units " "
                      ++ statusText res]
      else
        match body res with
        | BodyInvalid => Throws BodySyntaxError
        | BodyJson json => Returns (formatMatches (matches json))
        end
  end.

End Legacy.

(** The parts of a formatted finding, for stating what the two adapters
    return: the indexed message, and the strings the earlier adapter
    pushes for one finding. *)
Definition indexed (i : nat) (m : LTMatch) : jsstring :=
  decimal (i + 1) ++ units ". " ++ message m.

Definition legacyLines (i : nat) (m : LTMatch) : list jsstring :=
  indexed i m
  :: match replacements m with
     | r :: _ => [Legacy.suggestionPrefix ++ value r]
     | [] => []
     end.

(** ** SessionController and TransitionAnimator *)

Record LastResult := {
  lastJpn : jsstring;
  lastEng : jsstring;
  lastUserAnswer : jsstring;
  evalText : jsstring;
  grammarMessages : list jsstring
}.

Record FrameState := { lastResult : option LastResult; current : CorpusPair }.

(** The [useState] cells of the component. *)
Record AppState := {
  corpus : list CorpusPair;
  frame : option FrameState;
  loading : bool;
  userAnswer : jsstring;
  checking : bool;
  animating : bool;
  animFrom : option FrameState;
  animTo : option FrameState
}.

(** The cells as the component is first rendered. *)
Definition initialState : AppState :=
  {| corpus := []; frame := None; loading := true; userAnswer := [];
     checking := false; animating := false; animFrom := None; animTo := None |}.

Definition setCorpus (v : list CorpusPair) (s : AppState) : AppState :=
  {| corpus := v; frame := frame s; loading := loading s;
     userAnswer := userAnswer s; checking := checking s;
     animating := animating s; animFrom := animFrom s; animTo := animTo s |}.

Definition setLoading (v : bool) (s : AppState) : AppState :=
  {| corpus := corpus s; frame := frame s; loading := v;
     userAnswer := userAnswer s; checking := checking s;
     animating := animating s; animFrom := animFrom s; animTo := animTo s |}.

Definition setFrame (v : option FrameState) (s : AppState) : AppState :=
  {| corpus := corpus s; frame := v; loading := loading s;
     userAnswer := userAnswer s; checking := checking s;
     animating := animating s; animFrom := animFrom s; animTo := animTo s |}.

Definition setUserAnswer (v : jsstring) (s : AppState) : AppState :=
  {| corpus := corpus s; frame := frame s; loading := loading s;
     userAnswer := v; checking := checking s;
     animating := animating s; animFrom := animFrom s; animTo := animTo s |}.

Definition setChecking (v : bool) (s : AppState) : AppState :=
  {| corpus := corpus s; frame := frame s; loading := loading s;
     userAnswer := userAnswer s; checking := v;
     animating := animating s; animFrom := animFrom s; animTo := animTo s |}.

Definition setAnimating (v : bool) (s : AppState) : AppState :=
  {| corpus := corpus s; frame := frame s; loading := loading s;
     userAnswer := userAnswer s; checking := checking s;
     animating := v; animFrom := animFrom s; animTo := animTo s |}.

Definition setAnimFrom (v : option FrameState) (s : AppState) : AppState :=
  {| corpus := corpus s; frame := frame s; loading := loading s;
     userAnswer := userAnswer s; checking := checking s;
     animating := animating s; animFrom := v; animTo := animTo s |}.

Definition setAnimTo (v : option FrameState) (s : AppState) : AppState :=
  {| corpus := corpus s; frame := frame s; loading := loading s;
     userAnswer := userAnswer s; checking := checking s;
     animating := animating s; animFrom := animFrom s; animTo := v |}.

(** The effect that loads the corpus, once the text of [corpus.tsv] has
    arrived; [u] is the value of [Math.random()]. *)
Definition load (txt : jsstring) (u : Q) (s : AppState) : AppState :=
  let parsed := parseCorpus txt in
  let s := setCorpus parsed s in
  let s :=
    match randomPair u parsed with
    | Some initialQ =>
        setFrame (Some {| lastResult := None; current := initialQ |}) s
    | None => s
    end in
  setLoading false s.

Definition pickNextQuestion (u : Q) (corpus : list CorpusPair)
  : option CorpusPair :=
  if length corpus =? 0 then None else randomPair u corpus.

(** What the continuation of [handleCheck] closes over while
    [checkGrammar] is outstanding: the frame, the corpus and the answer of
    the render that created the handler, and the label already computed. *)
Record Awaiting := {
  heldFrame : FrameState;
  heldCorpus : list CorpusPair;
  heldAnswer : jsstring;
  heldEval : jsstring
}.

(** The styles the animation writes on the two containers. *)
Record Dom := { viewportHeight : option N; stripY : option Z }.

(** A scheduled timeline: the frame its [onComplete] will commit and the
    offset it scrolls to. *)
Record Timeline := { tlTo : FrameState; tlTarget : Z }.

Inductive UiEvent := CtrlEnter | ClickSubmit | ChangeAnswer (v : jsstring).

Section Session.

Variable lowerAt : jsstring → N → jsstring → jsstring.

(** [handleCheck] up to its [await]. *)
Definition handleCheck (s : AppState) : AppState * option Awaiting :=
  match frame s with
  | None => (s, None)
  | Some f =>
      if negb (truthy (trim (userAnswer s))) then (s, None)
      else
        let current := current f in
        let s := setChecking true s in
        let evalText := evaluateAnswer lowerAt (eng current) (userAnswer s) in
        (s, Some {| heldFrame := f; heldCorpus := corpus s;
                    heldAnswer := userAnswer s; heldEval := evalText |})
  end.

(** [handleCheck] after its [await], once [checkGrammar] has returned
    [grammarMessages]; [u] is the value [Math.random()] gives to
    [pickNextQuestion]. *)
Definition handleCheckResume (w : Awaiting) (grammarMessages : list jsstring)
    (u : Q) (s : AppState) : AppState :=
  let newResult :=
    {| lastJpn := jpn (current (heldFrame w));
       lastEng := eng (current (heldFrame w));
       lastUserAnswer := heldAnswer w;
       evalText := heldEval w;
       grammarMessages := grammarMessages |} in
  match pickNextQuestion u (heldCorpus w) with
  | None => setChecking false s
  | Some newQuestion =>
      let fromFrame :=
        {| lastResult := lastResult (heldFrame w);
           current := current (heldFrame w) |} in
      let toFrame :=
        {| lastResult := Some newResult; current := newQuestion |} in
      setAnimating true (setAnimTo (Some toFrame) (setAnimFrom (Some fromFrame) s))
  end.

(** The whole second half: a [checkGrammar] that raises rejects the
    promise of [handleCheck] and no setter runs. *)
Definition handleCheckSettle (w : Awaiting)
    (outcome : Completion (list jsstring)) (u : Q) (s : AppState) : AppState :=
  match outcome with
  | Returns grammarMessages => handleCheckResume w grammarMessages u s
  | Throws _ => s
  end.

(** The interactive frame is rendered when the component is past its
    spinner and no animation runs. *)
Definition interactiveShown (s : AppState) : bool :=
  negb (loading s) && bool_decide (is_Some (frame s)) && negb (animating s).

(** The handlers of the interactive frame: the key handler calls
    [onSubmit] unless [checking]; the button is disabled while
    [checking]; typing goes to [setUserAnswer]. *)
Definition dispatch (e : UiEvent) (s : AppState) : AppState * option Awaiting :=
  if negb (interactiveShown s) then (s, None)
  else
    match e with
    | CtrlEnter => if negb (checking s) then handleCheck s else (s, None)
    | ClickSubmit => if checking s then (s, None) else handleCheck s
    | ChangeAnswer v => (setUserAnswer v s, None)
    end.

End Session.

(** The layout effect of the animation.  [mounted] tells that the three
    refs are attached and [h] is [firstFrameEl.offsetHeight]. *)
Definition layoutEffect (mounted : bool) (h : N) (s : AppState) (d : Dom)
  : AppState * Dom * option Timeline :=
  if negb (animating s) then (s, d, None)
  else if negb mounted then (s, d, None)
  else
    match animFrom s, animTo s with
    | Some _, Some to =>
        if (h =? 0)%N then
          (setChecking false (setUserAnswer [] (setAnimTo None
             (setAnimFrom None (setAnimating false (setFrame (Some to) s))))),
           d, None)
        else
          (s, {| viewportHeight := Some h; stripY := Some 0%Z |},
           Some {| tlTo := to; tlTarget := (- Z.of_N h)%Z |})
    | _, _ => (s, d, None)
    end.

(** [onComplete] of the timeline. *)
Definition onComplete (tl : Timeline) (s : AppState) (d : Dom) : AppState * Dom :=
  (setChecking false (setUserAnswer [] (setAnimTo None
     (setAnimFrom None (setAnimating false (setFrame (Some (tlTo tl)) s))))),
   {| viewportHeight := None; stripY := None |}).

(** The component as it runs: the session, the styles, the grammar checks
    whose continuations are waiting, and the scheduled timeline. *)
Record Config := {
  session : AppState;
  dom : Dom;
  awaited : list Awaiting;
  timeline : option Timeline
}.

(** What can happen next: an event of the interface; the settling of an
    awaited check, with the value [u] of [Math.random()] for the next
    question; the layout effect of a transition that has just begun, with
    the measured height [h]; the completion of the timeline. *)
Inductive step (lowerAt : jsstring → N → jsstring → jsstring)
  : Config → Config → Prop :=
| step_event c e s' ow :
    dispatch lowerAt e (session c) = (s', ow) →
    step lowerAt c
      {| session := s'; dom := dom c;
         awaited := awaited c ++ option_list ow; timeline := timeline c |}
| step_settle c before w after outcome u :
    awaited c = before ++ w :: after →
    (0 <= u)%Q → (u < 1)%Q →
    step lowerAt c
      {| session := handleCheckSettle w outcome u (session c); dom := dom c;
         awaited := before ++ after; timeline := timeline c |}
| step_effect c h s' d' tl :
    animating (session c) = true → timeline c = None →
    layoutEffect true h (session c) (dom c) = (s', d', tl) →
    step lowerAt c
      {| session := s'; dom := d'; awaited := awaited c; timeline := tl |}
| step_complete c tl s' d' :
    timeline c = Some tl →
    onComplete tl (session c) (dom c) = (s', d') →
    step lowerAt c
      {| session := s'; dom := d'; awaited := awaited c; timeline := None |}.

(** The component once the corpus text has arrived. *)
Definition loaded (txt : jsstring) (u : Q) : Config :=
  {| session := load txt u initialState;
     dom := {| viewportHeight := None; stripY := None |};
     awaited := []; timeline := None |}.

(** At most one cycle in flight: at most one check is awaited and then
    the session is checking and not animating; an animating session is
    checking, awaits nothing and holds both frames; a timeline is only
    scheduled while animating, for the frame the session holds. *)
Definition oneCycle (c : Config) : Prop :=
  length (awaited c) ≤ 1
  ∧ (awaited c ≠ [] →
       checking (session c) = true ∧ animating (session c) = false)
  ∧ (animating (session c) = true →
       checking (session c) = true ∧ awaited c = []
       ∧ is_Some (animFrom (session c)) ∧ is_Some (animTo (session c)))
  ∧ (∀ tl, timeline c = Some tl →
       animating (session c) = true
       ∧ animTo (session c) = Some (tlTo tl)).

(** The component of [src/App.tsx]: no frames and no animation; the result
    of the last cycle and the current pair are cells of their own. *)
(** The effect that loads the corpus, as a whole: [fetched] is the text
    of [corpus.tsv], or nothing when [fetch] or [res.text()] rejected; the
    [finally] clause clears [loading] either way. *)
Definition loadEffect (fetched : option jsstring) (u : Q) (s : AppState)
  : AppState :=
  match fetched with
  | Some txt => load txt u s
  | None => setLoading false s
  end.

(** The component once the effect that loads the corpus has settled. *)
Definition settled (fetched : option jsstring) (u : Q) : Config :=
  {| session := loadEffect fetched u initialState;
     dom := {| viewportHeight := None; stripY := None |};
     awaited := []; timeline := None |}.

(** Every question the component holds comes from the corpus [pairs]:
    the session keeps [pairs] as its corpus, the frame on display, the
    frame a transition leads to and the frame of a scheduled timeline show
    a pair of it, and every awaited check holds [pairs], which is then not
    empty. *)
Definition fromCorpus (pairs : list CorpusPair) (c : Config) : Prop :=
  corpus (session c) = pairs
  ∧ (∀ f, frame (session c) = Some f → current f ∈ pairs)
  ∧ (∀ w, w ∈ awaited c → heldCorpus w = pairs ∧ pairs ≠ [])
  ∧ (∀ t, animTo (session c) = Some t → current t ∈ pairs)
  ∧ (∀ tl, timeline c = Some tl → current (tlTo tl) ∈ pairs).

(** The session a raised check leaves behind: the checking flag is set,
    and no check, transition or timeline is left to clear it. *)
Definition blocked (c : Config) : Prop :=
  checking (session c) = true ∧ animating (session c) = false
  ∧ awaited c = [] ∧ timeline c = None.

(** The session a transition ends in, by the fallback or by the
    completion of the timeline it schedules. *)
Definition commit (h : N) (s : AppState) (d : Dom) : AppState :=
  match layoutEffect true h s d with
  | (s', d', Some tl) => (onComplete tl s' d').1
  | (s', _, None) => s'
  end.


Module AppTsx.

Record State := {
  corpus : list CorpusPair;
  current : option CorpusPair;
  loading : bool;
  lastResult : option LastResult;
  userAnswer : jsstring;
  checking : bool
}.

Definition setCurrent (v : option CorpusPair) (s : State) : State :=
  {| corpus := corpus s; current := v; loading := loading s;
     lastResult := lastResult s; userAnswer := userAnswer s;
     checking := checking s |}.

Definition setLastResult (v : option LastResult) (s : State) : State :=
  {| corpus := corpus s; current := current s; loading := loading s;
     lastResult := v; userAnswer := userAnswer s; checking := checking s |}.

Definition setUserAnswer (v : jsstring) (s : State) : State :=
  {| corpus := corpus s; current := current s; loading := loading s;
     lastResult := lastResult s; userAnswer := v; checking := checking s |}.

Definition setChecking (v : bool) (s : State) : State :=
  {| corpus := corpus s; current := current s; loading := loading s;
     lastResult := lastResult s; userAnswer := userAnswer s; checking := v |}.

Record Awaiting := {
  heldCurrent : CorpusPair;
  heldCorpus : list CorpusPair;
  heldAnswer : jsstring;
  heldEval : jsstring
}.

(** [nextQuestion], from the render that created the handler. *)
Definition nextQuestion (heldCorpus : list CorpusPair) (u : Q) (s : State)
  : State :=
  if length heldCorpus =? 0 then s
  else setUserAnswer [] (setCurrent (randomPair u heldCorpus) s).

Section Session.

Variable lowerAt : jsstring → N → jsstring → jsstring.

Definition handleCheck (s : State) : State * option Awaiting :=
  match current s with
  | None => (s, None)
  | Some c =>
      if negb (truthy (trim (userAnswer s))) then (s, None)
      else
        let s := setChecking true s in
        let evalText := evaluateAnswer lowerAt (eng c) (userAnswer s) in
        (s, Some {| heldCurrent := c; heldCorpus := corpus s;
                    heldAnswer := userAnswer s; heldEval := evalText |})
  end.

Definition handleCheckResume (w : Awaiting) (grammarMessages : list jsstring)
    (u : Q) (s : State) : State :=
  let s :=
    setLastResult
      (Some {| lastJpn := jpn (heldCurrent w);
               lastEng := eng (heldCurrent w);
               lastUserAnswer := heldAnswer w;
               evalText := heldEval w;
               grammarMessages := grammarMessages |}) s in
  let s := nextQuestion (heldCorpus w) u s in
  setChecking false s.

(** The main view is rendered once the spinner is gone. *)
Definition mainShown (s : State) : bool :=
  negb (loading s) && bool_decide (is_Some (current s)).

(** The handlers of the main view: the key handler calls [handleCheck]
    whatever [checking] is; the button is disabled while [checking]. *)
Definition dispatch (e : UiEvent) (s : State) : State * option Awaiting :=
  if negb (mainShown s) then (s, None)
  else
    match e with
    | CtrlEnter => handleCheck s
    | ClickSubmit => if checking s then (s, None) else handleCheck s
    | ChangeAnswer v => (setUserAnswer v s, None)
    end.

End Session.

Record Config := { session : State; awaited : list Awaiting }.

Inductive step (lowerAt : jsstring → N → jsstring → jsstring)
  : Config → Config → Prop :=
| step_event c e s' ow :
    dispatch lowerAt e (session c) = (s', ow) →
    step lowerAt c
      {| session := s'; awaited := awaited c ++ option_list ow |}
| step_settle c before w after grammarMessages u :
    awaited c = before ++ w :: after →
    (0 <= u)%Q → (u < 1)%Q →
    step lowerAt c
      {| session := handleCheckResume w grammarMessages u (session c);
         awaited := before ++ after |}.

End AppTsx.

(** The component before the animation (the second file of [part_000]).
    Its evaluator is the one of the earliest file: it tests the character
    classes unit by unit, lowers each chunk after splitting and collects
    the common tokens in a set.  It reports what fails in two cells of its
    own, and advances to the next question as soon as the check
    returns. *)
Module Earlier.

(** [s.split("")], the one-unit strings of [s]; [join("")] is [concat]. *)
Definition splitUnits (s : jsstring) : list jsstring := map (λ c, [c]) s.

(** [test] of a regular expression that is one character class: some
    unit of the string is in the class. *)
Definition test (class : N → bool) (ch : jsstring) : bool := existsb class ch.

Definition isPunctuation (ch : jsstring) : bool := test isPunctuation ch.

(** The messages of the three bands; the message of an exact match is
    the one of the later files. *)
Definition nearText : jsstring :=
  [9675; 32; 12363; 12394; 12426; 36817; 12356; 34920; 29694; 12391; 12377;
   12290; 32048; 37096; 12434; 35211; 30452; 12375; 12390; 12415; 12390;
   12367; 12384; 12373; 12356; 12290]%N.

Definition partialText : jsstring :=
  [9651; 32; 19968; 37096; 12399; 21512; 12387; 12390; 12356; 12414; 12377;
   12364; 12289; 34920; 29694; 12364; 12384; 12356; 12406; 30064; 12394;
   12426; 12414; 12377; 12290]%N.

Definition differentText : jsstring :=
  [215; 32; 24847; 21619; 12420; 27083; 36896; 12364; 22823; 12365; 12367;
   30064; 12394; 12426; 12414; 12377; 12290; 27169; 31684; 35299; 31572;
   12434; 21442; 32771; 12395; 12375; 12390; 12367; 12384; 12373; 12356;
   12290]%N.

Definition jaccardSimilarity (xs ys : list jsstring) : Q :=
  let setX : gset jsstring := list_to_set xs in
  let setY : gset jsstring := list_to_set ys in
  let inter : gset jsstring :=
    fold_left (λ inter x, if bool_decide (x ∈ setY) then {[x]} ∪ inter else inter)
      (elements setX) ∅ in
  let num := size inter * 2 in
  let denom := size setX + size setY in
  if denom =? 0 then 0%Q
  else (inject_Z (Z.of_nat num) / inject_Z (Z.of_nat denom))%Q.

Section Evaluator.

Variable lowerAt : jsstring → N → jsstring → jsstring.

Definition normalizeExact (text : jsstring) : jsstring :=
  let lower := toLowerCase lowerAt text in
  let filtered :=
    concat (List.filter (λ c, negb (isPunctuation c)) (splitUnits lower)) in
  trim filtered.

Definition tokenize (text : jsstring) : list jsstring :=
  List.filter (λ w, 0 <? length w)
    (map (λ w, concat (List.filter (test isTokenChar)
                         (splitUnits (toLowerCase lowerAt w))))
       (splitSpace text)).

Definition evaluateAnswer (model user : jsstring) : jsstring :=
  if decide (normalizeExact model = normalizeExact user) then exactText
  else
    let sim := jaccardSimilarity (tokenize model) (tokenize user) in
    if Qle_bool 0.8 sim then nearText
    else if Qle_bool 0.5 sim then partialText
    else differentText.

End Evaluator.

(** The cells of the component. *)
Record State := {
  corpus : list CorpusPair;
  current : option CorpusPair;
  loadingCorpus : bool;
  corpusError : option jsstring;
  userAnswer : jsstring;
  checking : bool;
  lastResult : option LastResult;
  generalError : option jsstring
}.

Definition initialState : State :=
  {| corpus := []; current := None; loadingCorpus := true; corpusError := None;
     userAnswer := []; checking := false; lastResult := None;
     generalError := None |}.

Definition setCorpus (v : list CorpusPair) (s : State) : State :=
  {| corpus := v; current := current s; loadingCorpus := loadingCorpus s;
     corpusError := corpusError s; userAnswer := userAnswer s;
     checking := checking s; lastResult := lastResult s;
     generalError := generalError s |}.

Definition setCurrent (v : option CorpusPair) (s : State) : State :=
  {| corpus := corpus s; current := v; loadingCorpus := loadingCorpus s;
     corpusError := corpusError s; userAnswer := userAnswer s;
     checking := checking s; lastResult := lastResult s;
     generalError := generalError s |}.

Definition setLoadingCorpus (v : bool) (s : State) : State :=
  {| corpus := corpus s; current := current s; loadingCorpus := v;
     corpusError := corpusError s; userAnswer := userAnswer s;
     checking := checking s; lastResult := lastResult s;
     generalError := generalError s |}.

Definition setCorpusError (v : option jsstring) (s : State) : State :=
  {| corpus := corpus s; current := current s; loadingCorpus := loadingCorpus s;
     corpusError := v; userAnswer := userAnswer s;
     checking := checking s; lastResult := lastResult s;
     generalError := generalError s |}.

Definition setUserAnswer (v : jsstring) (s : State) : State :=
  {| corpus := corpus s; current := current s; loadingCorpus := loadingCorpus s;
     corpusError := corpusError s; userAnswer := v;
     checking := checking s; lastResult := lastResult s;
     generalError := generalError s |}.

Definition setChecking (v : bool) (s : State) : State :=
  {| corpus := corpus s; current := current s; loadingCorpus := loadingCorpus s;
     corpusError := corpusError s; userAnswer := userAnswer s;
     checking := v; lastResult := lastResult s;
     generalError := generalError s |}.

Definition setLastResult (v : option LastResult) (s : State) : State :=
  {| corpus := corpus s; current := current s; loadingCorpus := loadingCorpus s;
     corpusError := corpusError s; userAnswer := userAnswer s;
     checking := checking s; lastResult := v;
     generalError := generalError s |}.

Definition setGeneralError (v : option jsstring) (s : State) : State :=
  {| corpus := corpus s; current := current s; loadingCorpus := loadingCorpus s;
     corpusError := corpusError s; userAnswer := userAnswer s;
     checking := checking s; lastResult := lastResult s;
     generalError := v |}.

(** What a promise settles to for the handlers of this component: a
    value, or an error object, of which they read the message only. *)
Inductive Settled (A : Type) := Fulfilled (a : A) | Raised (message : jsstring).
Arguments Fulfilled {A} a.
Arguments Raised {A} message.

(** The response to the request for [corpus.tsv]; [corpusText] is what
    [res.text()] settles to. *)
Record CorpusResponse := {
  corpusStatus : nat;
  corpusStatusText : jsstring;
  corpusText : Settled jsstring
}.

Definition corpusOk (res : CorpusResponse) : bool :=
  (200 <=? corpusStatus res) && (corpusStatus res <=? 299).

(** The texts of the two cells: the prefix of a corpus error, the
    message for a corpus without a usable line, the warning for a blank
    answer and the prefix of a failed grammar check. *)
Definition corpusErrorPrefix : jsstring :=
  [12467; 12540; 12497; 12473; 35501; 12415; 36796; 12415; 12456; 12521;
   12540; 58; 32]%N.

Definition noUsableLine : jsstring :=
  [26377; 21177; 12394; 12467; 12540; 12497; 12473; 34892; 12364; 35211;
   12388; 12363; 12426; 12414; 12379; 12435; 12391; 12375; 12383; 12290]%N.

Definition blankAnswer : jsstring :=
  [33521; 35379; 12434; 20837; 21147; 12375; 12390; 12367; 12384; 12373;
   12356; 12290]%N.

Definition grammarErrorPrefix : jsstring :=
  [25991; 27861; 12481; 12455; 12483; 12463; 20013; 12395; 12456; 12521;
   12540; 12364; 30330; 29983; 12375; 12414; 12375; 12383; 58; 32]%N.

(** The effect that loads the corpus: the [try] block raises on a
    response that is not a success and on a corpus without a usable line,
    the [catch] clause turns whatever was raised into the corpus error,
    and the [finally] clause clears the progress indicator. *)
Definition load (fetched : Settled CorpusResponse) (u : Q) (s : State) : State :=
  let attempt : Settled State :=
    match fetched with
    | Raised message => Raised message
    | Fulfilled res =>
        if negb (corpusOk res)
        then Raised (units "HTTP " ++ decimal (corpusStatus res) ++ units " "
                       ++ corpusStatusText res)
        else
          match corpusText res with
          | Raised message => Raised message
          | Fulfilled text =>
              let parsed := parseCorpus text in
              if length parsed =? 0 then Raised noUsableLine
              else Fulfilled (setCurrent (randomPair u parsed) (setCorpus parsed s))
          end
    end in
  let s :=
    match attempt with
    | Fulfilled s' => s'
    | Raised message => setCorpusError (Some (corpusErrorPrefix ++ message)) s
    end in
  setLoadingCorpus false s.

Record Awaiting := {
  heldCurrent : CorpusPair;
  heldCorpus : list CorpusPair;
  heldAnswer : jsstring;
  heldEval : jsstring
}.

(** [gotoNextQuestion], from the render that created the handler. *)
Definition gotoNextQuestion (heldCorpus : list CorpusPair) (u : Q) (s : State)
  : State :=
  if length heldCorpus =? 0 then s
  else setGeneralError None
         (setUserAnswer [] (setCurrent (randomPair u heldCorpus) s)).

Section Session.

Variable lowerAt : jsstring → N → jsstring → jsstring.

(** The message of the error object the platform raises for a failure
    of the exchange. *)
Variable messageOf : Failure → jsstring.

(** [handleCheck] up to its [await]. *)
Definition handleCheck (s : State) : State * option Awaiting :=
  match current s with
  | None => (s, None)
  | Some c =>
      if negb (truthy (trim (userAnswer s)))
      then (setGeneralError (Some blankAnswer) s, None)
      else
        let evalText := evaluateAnswer lowerAt (eng c) (userAnswer s) in
        (setChecking true (setGeneralError None s),
         Some {| heldCurrent := c; heldCorpus := corpus s;
                 heldAnswer := userAnswer s; heldEval := evalText |})
  end.

(** [handleCheck] after its [await]: the rest of the [try] block when
    [checkGrammar] has returned, the [catch] clause when it has raised,
    and the [finally] clause in both cases. *)
Definition handleCheckSettle (w : Awaiting)
    (outcome : Completion (list jsstring)) (u : Q) (s : State) : State :=
  let s :=
    match outcome with
    | Returns grammarMessages =>
        gotoNextQuestion (heldCorpus w) u
          (setLastResult
             (Some {| lastJpn := jpn (heldCurrent w);
                      lastEng := eng (heldCurrent w);
                      lastUserAnswer := heldAnswer w;
                      evalText := heldEval w;
                      grammarMessages := grammarMessages |}) s)
    | Throws e => setGeneralError (Some (grammarErrorPrefix ++ messageOf e)) s
    end in
  setChecking false s.

(** The main view is rendered once the progress indicator is gone, when
    there is no corpus error and a question is set. *)
Definition mainShown (s : State) : bool :=
  negb (loadingCorpus s) && negb (from_option truthy false (corpusError s))
  && bool_decide (is_Some (current s)).

(** The handlers of the main view: the key handler calls [handleCheck]
    unless [checking], and the button is disabled while [checking]. *)
Definition dispatch (e : UiEvent) (s : State) : State * option Awaiting :=
  if negb (mainShown s) then (s, None)
  else
    match e with
    | CtrlEnter => if negb (checking s) then handleCheck s else (s, None)
    | ClickSubmit => if checking s then (s, None) else handleCheck s
    | ChangeAnswer v => (setUserAnswer v s, None)
    end.

End Session.

Record Config := { session : State; awaited : list Awaiting }.

Inductive step (lowerAt : jsstring → N → jsstring → jsstring)
    (messageOf : Failure → jsstring) : Config → Config → Prop :=
| step_event c e s' ow :
    dispatch lowerAt e (session c) = (s', ow) →
    step lowerAt messageOf c
      {| session := s'; awaited := awaited c ++ option_list ow |}
| step_settle c before w after outcome u :
    awaited c = before ++ w :: after →
    (0 <= u)%Q → (u < 1)%Q →
    step lowerAt messageOf c
      {| session := handleCheckSettle messageOf w outcome u (session c);
         awaited := before ++ after |}.

End Earlier.

(** An instance of [lowerAt]: a code unit outside ASCII is left as it is,
    which is what [toLowerCase] does on text whose cased letters are all
    ASCII. *)
Definition keepUnit : jsstring → N → jsstring → jsstring := λ _ c _, [c].

(** A richer instance, with a few rows of the Unicode table: the capitals
    of Latin-1; the Kelvin sign U+212A, lowered to the ASCII letter k;
    the dotted capital I U+0130, lowered to i and a combining dot; and
    the capital sigma U+03A3, lowered to the final form U+03C2 at the end
    of a word that it does not begin and to U+03C3 elsewhere. *)
Definition endsWord (after : jsstring) : bool :=
  match after with
  | [] => true
  | c :: _ => isSpace c || isPunctuation c
  end.

Definition startsWord (before : jsstring) : bool :=
  match rev before with
  | [] => true
  | c :: _ => isSpace c || isPunctuation c
  end.

Definition lowerSample (before : jsstring) (c : N) (after : jsstring)
  : jsstring :=
  if (c =? 8490)%N then [107%N]
  else if (c =? 304)%N then [105%N; 775%N]
  else if (c =? 931)%N then
    if endsWord after && negb (startsWord before) then [962%N] else [963%N]
  else if ((192 <=? c) && (c <=? 222) && negb (c =? 215))%N then [(c + 32)%N]
  else [c].

(** ** Sample data *)

(** Two Japanese greetings, as code units. *)
Definition konnichiwa : jsstring := [12371; 12435; 12395; 12385; 12399]%N.
Definition sayonara : jsstring := [12373; 12424; 12358; 12394; 12425]%N.

(** A corpus text of six lines: a usable record ended by CR LF, an empty
    line, a record of two fields, a record whose field 1 is blank, a line
    of blanks and tabs, and a usable record of five fields without a final
    line break. *)
Definition sampleTsv : jsstring :=
  units "1" ++ [TAB] ++ units "Hello " ++ [TAB] ++ units "2" ++ [TAB]
    ++ units " " ++ konnichiwa ++ [CR; LF]
  ++ [CR; LF]
  ++ units "bad" ++ [TAB] ++ units "line" ++ [LF]
  ++ units "3" ++ [TAB] ++ units " " ++ [TAB] ++ units "4" ++ [TAB]
    ++ units "x" ++ [LF]
  ++ units " " ++ [TAB] ++ units " " ++ [TAB] ++ units " " ++ [TAB]
    ++ units " " ++ [LF]
  ++ units "5" ++ [TAB] ++ units "Bye" ++ [TAB] ++ units "6" ++ [TAB]
    ++ sayonara ++ [TAB] ++ units "extra".

Definition helloPair : CorpusPair := {| eng := units "Hello"; jpn := konnichiwa |}.
Definition byePair : CorpusPair := {| eng := units "Bye"; jpn := sayonara |}.

(** A transport that delivers nothing: [fetch] rejects. *)
Definition offline : Request → FetchOutcome := λ _, Rejected.

(** A transport that always answers with the same response. *)
Definition answering (res : Response) : Request → FetchOutcome :=
  λ _, Resolved res.

(** Grammar responses: one finding with a suggestion, one finding whose
    first suggestion is the empty string (delete the marked text), and
    three findings of which the second has no suggestion. *)
Definition findingAn : LTMatch :=
  {| message := units "Use an"; replacements := [{| value := units "an" |}] |}.

Definition findingDelete : LTMatch :=
  {| message := units "Remove the repeated word";
     replacements := [{| value := [] |}] |}.

Definition findingPlain : LTMatch :=
  {| message := units "Sentence is too long"; replacements := [] |}.

Definition successWith (ms : list LTMatch) : Response :=
  {| status := 200; statusText := units "OK";
     body := BodyJson {| matches := ms |} |}.

(** A session of the animated component on its welcome frame with an
    answer typed in, over a corpus of two pairs, and the same session over
    an empty corpus. *)
Definition readyState : AppState :=
  {| corpus := [helloPair; byePair];
     frame := Some {| lastResult := None; current := helloPair |};
     loading := false; userAnswer := units "hello"; checking := false;
     animating := false; animFrom := None; animTo := None |}.

Definition strandedState : AppState :=
  {| corpus := [];
     frame := Some {| lastResult := None; current := helloPair |};
     loading := false; userAnswer := units "hello"; checking := false;
     animating := false; animFrom := None; animTo := None |}.

(** A session of the animated component in the middle of a transition
    from the welcome frame to the next one. *)
Definition welcomeFrame : FrameState :=
  {| lastResult := None; current := helloPair |}.

Definition nextFrame : FrameState :=
  {| lastResult :=
       Some {| lastJpn := konnichiwa; lastEng := units "Hello";
               lastUserAnswer := units "hello"; evalText := exactText;
               grammarMessages := [noIssues] |};
     current := byePair |}.

Definition transitioningState : AppState :=
  {| corpus := [helloPair; byePair]; frame := Some welcomeFrame;
     loading := false; userAnswer := units "hello"; checking := true;
     animating := true; animFrom := Some welcomeFrame;
     animTo := Some nextFrame |}.

Definition cleanDom : Dom := {| viewportHeight := None; stripY := None |}.

(** A session of the component of [src/App.tsx] with an answer typed in,
    and the same session once its grammar check is outstanding. *)
Definition idleState : AppTsx.State :=
  {| AppTsx.corpus := [helloPair; byePair];
     AppTsx.current := Some helloPair;
     AppTsx.loading := false;
     AppTsx.lastResult := None;
     AppTsx.userAnswer := units "hello";
     AppTsx.checking := false |}.

Definition checkingState : AppTsx.State :=
  {| AppTsx.corpus := [helloPair; byePair];
     AppTsx.current := Some helloPair;
     AppTsx.loading := false;
     AppTsx.lastResult := None;
     AppTsx.userAnswer := units "hello";
     AppTsx.checking := true |}.

(** The animated component over the sample corpus, once the answer hello
    has been typed and submitted: one check is awaited. *)
Definition submittedConfig : Config :=
  {| session := setChecking true readyState;
     dom := cleanDom;
     awaited := [{| heldFrame := welcomeFrame;
                    heldCorpus := [helloPair; byePair];
                    heldAnswer := units "hello";
                    heldEval := exactText |}];
     timeline := None |}.

(** A session of the earlier component with an answer typed in, and a
    response that carries the sample corpus. *)
Definition earlierReady : Earlier.State :=
  {| Earlier.corpus := [helloPair; byePair];
     Earlier.current := Some helloPair;
     Earlier.loadingCorpus := false;
     Earlier.corpusError := None;
     Earlier.userAnswer := units "hello";
     Earlier.checking := false;
     Earlier.lastResult := None;
     Earlier.generalError := None |}.

Definition corpusFound : Earlier.CorpusResponse :=
  {| Earlier.corpusStatus := 200; Earlier.corpusStatusText := units "OK";
     Earlier.corpusText := Earlier.Fulfilled sampleTsv |}.

Definition corpusMissing : Earlier.CorpusResponse :=
  {| Earlier.corpusStatus := 404; Earlier.corpusStatusText := units "Not Found";
     Earlier.corpusText := Earlier.Fulfilled (units "<html>") |}.

(** The earlier component over the sample corpus, once the answer hello
    has been typed and submitted. *)
Definition earlierSubmitted : Earlier.Config :=
  {| Earlier.session :=
       Earlier.setChecking true (Earlier.setGeneralError None earlierReady);
     Earlier.awaited :=
       [{| Earlier.heldCurrent := helloPair;
           Earlier.heldCorpus := [helloPair; byePair];
           Earlier.heldAnswer := units "hello";
           Earlier.heldEval := exactText |}] |}.

(** The messages of a browser for the two failures of an exchange. *)
Definition browserMessage (e : Failure) : jsstring :=
  match e with
  | NetworkError => units "Failed to fetch"
  | BodySyntaxError => units "Unexpected end of JSON input"
  end.

(** ** The same arithmetic on IEEE doubles *)

Module Binary64.

Definition prec : Z := 53.
Definition emax : Z := 1024.

(** A set size as a double; exact below 2^53. *)
Definition ofNat (n : nat) : spec_float :=
  binary_normalize prec emax (Z.of_nat n) 0 false.

(** The literals [0.8] and [0.5]: the doubles 0x3FE999999999999A and
    0x3FE0000000000000. *)
Definition lit_0_8 : spec_float := S754_finite false 7205759403792794 (-53).
Definition lit_0_5 : spec_float := S754_finite false 4503599627370496 (-53).

(** [num / den] as the code computes it. *)
Definition quotient (num den : nat) : spec_float :=
  SFdiv prec emax (ofNat num) (ofNat den).

(** [sim >= lit] on doubles. *)
Definition geq (sim lit : spec_float) : bool := SFleb lit sim.

(** [jaccardSimilarity] and [evaluateAnswer] with the numbers of the
    engine that runs them. *)
Definition jaccardSimilarity (a b : list jsstring) : spec_float :=
  let A : gset jsstring := list_to_set a in
  let B : gset jsstring := list_to_set b in
  let inter := length (List.filter (λ x, bool_decide (x ∈ B)) (elements A)) in
  if size A + size B =? 0 then S754_zero false
  else quotient (inter * 2) (size A + size B).

Definition evaluateAnswer (lowerAt : jsstring → N → jsstring → jsstring)
    (model user : jsstring) : jsstring :=
  if decide (normalizeExact lowerAt model = normalizeExact lowerAt user)
  then exactText
  else
    let sim := jaccardSimilarity (tokenize lowerAt model) (tokenize lowerAt user) in
    if geq sim lit_0_8 then nearText
    else if geq sim lit_0_5 then partialText
    else differentText.

End Binary64.

(** What a rounding location says of an exact value [X / y] that the
    division has truncated to [q]: it is [q], or it lies below, at or
    above the middle of [q] and [q + 1]. *)
Definition loc_ok (q : Z) (l : location) (y X : Z) : Prop :=
  match l with
  | loc_Exact => X = (q * y)%Z
  | loc_Inexact Lt => (q * y < X ∧ 2 * X < (2 * q + 1) * y)%Z
  | loc_Inexact Eq => (2 * X = (2 * q + 1) * y)%Z
  | loc_Inexact Gt => ((2 * q + 1) * y < 2 * X ∧ X < (q + 1) * y)%Z
  end.

(** [randomPair] with the numbers of the engine that runs it. *)
Module OnDoubles.

(** The double 1. *)
Definition one : spec_float := S754_finite false 4503599627370496 (-52).

(** What [Math.random()] may return: a double of positive sign that is
    at least 0 and less than 1. *)
Definition unitInterval (u : spec_float) : bool :=
  match u with
  | S754_zero s => negb s
  | S754_finite s m e =>
      negb s && bounded Binary64.prec Binary64.emax m e && SFltb u one
  | _ => false
  end.

(** [Math.floor] of a double, as the integer it denotes; an infinity and
    NaN have none. *)
Definition floor (x : spec_float) : option Z :=
  match x with
  | S754_zero _ => Some 0%Z
  | S754_finite s m e =>
      let v := if s then Zneg m else Zpos m in
      Some (if (0 <=? e)%Z then v * 2 ^ e else v / 2 ^ (- e))%Z
  | _ => None
  end.

(** [pairs[i]] is undefined when [i] is not an index of the array. *)
Definition randomPair (u : spec_float) (pairs : list CorpusPair)
  : option CorpusPair :=
  if length pairs =? 0 then None
  else
    match floor (SFmul Binary64.prec Binary64.emax u
                   (Binary64.ofNat (length pairs))) with
    | Some i => if (i <? 0)%Z then None else pairs !! Z.to_nat i
    | None => None
    end.

End OnDoubles.

(** The largest double below 1. *)
Definition almostOne : spec_float := S754_finite false 9007199254740991 (-53).

(** * Properties *)

(** ** Evaluator: similarity *)

(** [Array.prototype.filter] with a boolean callback, as a filter on a
    decidable predicate. *)
Lemma filter_bool {A} (f : A → bool) (l : list A) :
  List.filter f l = filter (λ x, f x = true) l.
Proof.
  induction l as [|x l IH]; [done|]. simpl. rewrite filter_cons.
  destruct (f x) eqn:E; case_decide; congruence.
Qed.

(** The members of [A] that [B] has are the members of the
    intersection. *)
Lemma inter_count (A B : gset jsstring) :
  length (List.filter (λ x, bool_decide (x ∈ B)) (elements A)) = size (A ∩ B).
Proof.
  unfold size, set_size; simpl. rewrite filter_bool.
  apply Permutation_length, NoDup_Permutation.
  - apply NoDup_filter, NoDup_elements.
  - apply NoDup_elements.
  - intros x. rewrite list_elem_of_filter, !elem_of_elements.
    rewrite bool_decide_eq_true, elem_of_intersection. tauto.
Qed.

Lemma inter_size_le_l (A B : gset jsstring) : size (A ∩ B) ≤ size A.
Proof. apply subseteq_size, intersection_subseteq_l. Qed.

Lemma inter_size_le_r (A B : gset jsstring) : size (A ∩ B) ≤ size B.
Proof. apply subseteq_size, intersection_subseteq_r. Qed.

Lemma jaccardSimilarity_unfold (a b : list jsstring) :
  let A : gset jsstring := list_to_set a in
  let B : gset jsstring := list_to_set b in
  jaccardSimilarity a b =
    if size A + size B =? 0 then 0%Q
    else (inject_Z (Z.of_nat (size (A ∩ B) * 2))
          / inject_Z (Z.of_nat (size A + size B)))%Q.
Proof. intros A B. unfold jaccardSimilarity. fold A B. by rewrite inter_count. Qed.

Lemma quotient_bounds (n d : nat) :
  0 < d → n ≤ d →
  (0 <= inject_Z (Z.of_nat n) / inject_Z (Z.of_nat d) <= 1)%Q.
Proof.
  intros Hd Hn.
  assert (Hpos : (0 < inject_Z (Z.of_nat d))%Q).
  { change 0%Q with (inject_Z 0). rewrite <- Zlt_Qlt. lia. }
  split.
  - apply Qle_shift_div_l; [done|]. rewrite Qmult_0_l.
    change 0%Q with (inject_Z 0). rewrite <- Zle_Qle. lia.
  - apply Qle_shift_div_r; [done|]. rewrite Qmult_1_l.
    rewrite <- Zle_Qle. lia.
Qed.

Lemma jaccardSimilarity_range (a b : list jsstring) :
  (0 <= jaccardSimilarity a b <= 1)%Q.
Proof.
  rewrite jaccardSimilarity_unfold.
  set (A := list_to_set a : gset jsstring).
  set (B := list_to_set b : gset jsstring).
  destruct (size A + size B =? 0) eqn:E.
  - split; [apply Qle_refl | discriminate].
  - apply Nat.eqb_neq in E. apply quotient_bounds; [lia|].
    pose proof (inter_size_le_l A B). pose proof (inter_size_le_r A B). lia.
Qed.

(** C10.  The similarity of two token sequences does not depend on which
    of them is the model and which the answer, on the exact quotient and
    on the double alike. *)
Theorem jaccardSimilarity_sym (a b : list jsstring) :
  jaccardSimilarity a b = jaccardSimilarity b a
  ∧ Binary64.jaccardSimilarity a b = Binary64.jaccardSimilarity b a.
Proof.
  split.
  - rewrite !jaccardSimilarity_unfold.
    set (A := list_to_set a : gset jsstring).
    set (B := list_to_set b : gset jsstring).
    by rewrite (comm_L (∩) B A), (Nat.add_comm (size B) (size A)).
  - unfold Binary64.jaccardSimilarity. rewrite !inter_count.
    set (A := list_to_set a : gset jsstring).
    set (B := list_to_set b : gset jsstring).
    by rewrite (comm_L (∩) B A), (Nat.add_comm (size B) (size A)).
Qed.

(** ** The threshold tests on doubles *)

Section Doubles.

Local Open Scope Z_scope.

Lemma digits2_size (p : positive) : digits2_pos p = Pos.size p.
Proof. induction p; simpl; congruence. Qed.

Lemma digits_bounds (p : positive) :
  2 ^ (Zpos (digits2_pos p) - 1) <= Zpos p < 2 ^ Zpos (digits2_pos p).
Proof.
  rewrite digits2_size. split.
  - pose proof (Pos.size_le p) as H.
    assert (Zpos (2 ^ Pos.size p) <= Zpos p~0)%Z by lia.
    rewrite Pos2Z.inj_pow in H0.
    replace (Zpos (Pos.size p)) with (Z.succ (Zpos (Pos.size p) - 1)) in H0 by lia.
    rewrite Z.pow_succ_r in H0 by lia. lia.
  - pose proof (Pos.size_gt p) as H.
    assert (Zpos p < Zpos (2 ^ Pos.size p))%Z by lia.
    by rewrite Pos2Z.inj_pow in H0.
Qed.

Lemma digits_unique (p : positive) (k : Z) :
  2 ^ (k - 1) <= Zpos p < 2 ^ k → Zpos (digits2_pos p) = k.
Proof.
  intros [Hlo Hhi]. pose proof (digits_bounds p) as [Hlo' Hhi'].
  assert (0 < k).
  { destruct (Z.ltb_spec 0 k); [done|]. rewrite (Z.pow_neg_r 2 (k - 1)) in Hlo by lia.
    destruct (Z.eq_dec k 0) as [->|]; [simpl in Hhi; lia|].
    rewrite Z.pow_neg_r in Hhi by lia. lia. }
  set (j := Zpos (digits2_pos p)) in *.
  destruct (Z.lt_trichotomy j k) as [Hlt|[->|Hgt]]; [exfalso|done|exfalso].
  - assert (2 ^ j <= 2 ^ (k - 1)) by (apply Z.pow_le_mono_r; lia). lia.
  - assert (2 ^ k <= 2 ^ (j - 1)) by (apply Z.pow_le_mono_r; lia). lia.
Qed.

(** A mantissa of 53 digits with an exponent in range is already its own
    rounding. *)
Lemma round_exact (s : bool) (m : positive) (e : Z) :
  Zpos (digits2_pos m) = 53 → -1074 <= e <= 971 →
  binary_round_aux 53 1024 s (Zpos m) e loc_Exact = S754_finite s m e.
Proof.
  intros Hd He.
  assert (Hshift : shr_fexp 53 1024 (Zpos m) e loc_Exact
                   = ({| shr_m := Zpos m; shr_r := false; shr_s := false |}, e)).
  { unfold shr_fexp, fexp, emin. cbn [Zdigits2]. rewrite Hd.
    replace (Z.max (53 + e - 53) (3 - 1024 - 53) - e) with 0 by lia. done. }
  unfold binary_round_aux. rewrite Hshift. cbn [shr_m loc_of_shr_record round_nearest_even].
  rewrite Hshift. cbn [shr_m].
  destruct (Z.leb_spec e (1024 - 53)); [done | lia].
Qed.

Lemma iter_xO (p d : positive) : Zpos (Pos.iter xO p d) = Zpos p * 2 ^ Zpos d.
Proof.
  change (Pos.iter xO p d) with (shift_pos d p).
  rewrite shift_pos_correct. change (Z.pow_pos 2 d) with (2 ^ Zpos d). lia.
Qed.

(** The double of a positive integer below 2^53: its 53-digit mantissa
    and its exponent. *)
Lemma ofNat_finite (n : nat) :
  (0 < n)%nat → Z.of_nat n < 2 ^ 53 →
  ∃ m e, Binary64.ofNat n = S754_finite false m e
         ∧ Zpos (digits2_pos m) = 53 ∧ -52 <= e <= 0
         ∧ Zpos m = Z.of_nat n * 2 ^ (- e).
Proof.
  intros Hpos Hlt. unfold Binary64.ofNat, binary_normalize.
  destruct (Z.of_nat n) as [|p|p] eqn:Hn; [lia| |lia].
  unfold binary_round, shl_align, fexp, emin, Binary64.prec, Binary64.emax.
  pose proof (digits_bounds p) as [Hlo Hhi].
  set (k := Zpos (digits2_pos p)) in *.
  assert (Hk : 1 <= k <= 53).
  { split; [unfold k; lia|].
    destruct (Z.leb_spec k 53); [done|].
    assert (2 ^ 53 <= 2 ^ (k - 1)) by (apply Z.pow_le_mono_r; lia). lia. }
  replace (Z.max (k + 0 - 53) (3 - 1024 - 53)) with (k - 53) by lia.
  destruct (k - 53 - 0) as [|d|d] eqn:Hd; [|lia|].
  - exists p, 0. rewrite round_exact by (fold k; lia).
    repeat split; [fold k; lia | lia | lia | simpl; lia].
  - assert (Hmz : Zpos (Pos.iter xO p d) = Zpos p * 2 ^ (53 - k)).
    { rewrite iter_xO. f_equal. f_equal. lia. }
    assert (Hdig : Zpos (digits2_pos (Pos.iter xO p d)) = 53).
    { apply digits_unique. rewrite Hmz.
      assert (H52 : 2 ^ (53 - 1) = 2 ^ (k - 1) * 2 ^ (53 - k))
        by (rewrite <- Z.pow_add_r by lia; f_equal; lia).
      assert (H53 : 2 ^ 53 = 2 ^ k * 2 ^ (53 - k))
        by (rewrite <- Z.pow_add_r by lia; f_equal; lia).
      rewrite H52, H53.
      assert (0 < 2 ^ (53 - k)) by (apply Z.pow_pos_nonneg; lia).
      split; [by apply Z.mul_le_mono_nonneg_r; [lia|]
             | by apply Z.mul_lt_mono_pos_r]. }
    exists (Pos.iter xO p d), (k - 53).
    rewrite round_exact by (done || lia).
    repeat split; [done | lia | lia |].
    rewrite Hmz. f_equal. f_equal. lia.
Qed.

Lemma new_location_ok (q y r : Z) :
  0 < y → 0 <= r < y → loc_ok q (new_location y r) y (q * y + r).
Proof.
  intros Hy Hr. unfold new_location, new_location_even, new_location_odd.
  destruct (Z.even y) eqn:Hev.
  - destruct (Z.eqb_spec r 0) as [->|Hr0]; [simpl; lia|].
    destruct (Z.compare_spec (2 * r) y); simpl; lia.
  - destruct (Z.eqb_spec r 0) as [->|Hr0]; [simpl; lia|].
    assert (Hodd : Z.odd y = true) by (by rewrite <- Z.negb_even, Hev).
    apply Z.odd_spec in Hodd as [k Hk].
    destruct (Z.compare_spec (2 * r + 1) y); simpl; lia.
Qed.

Lemma loc_of_record_of (m : Z) (l : location) :
  loc_of_shr_record (shr_record_of_loc m l) = l
  ∧ shr_m (shr_record_of_loc m l) = m.
Proof. by destruct l as [|[]]. Qed.

(** Rounding to nearest even moves by at most half a unit. *)
Lemma round_nearest_even_ok (q : Z) (l : location) (y X : Z) :
  0 < y → loc_ok q l y X →
  2 * round_nearest_even q l * y - y <= 2 * X
  ∧ 2 * X <= 2 * round_nearest_even q l * y + y.
Proof.
  intros Hy Hl. destruct l as [|[]]; simpl in *; [lia| |lia|lia].
  destruct (Z.even q); lia.
Qed.

Lemma round_nearest_even_step (q : Z) (l : location) :
  round_nearest_even q l = q ∨ round_nearest_even q l = q + 1.
Proof. destruct l as [|[]]; simpl; try destruct (Z.even q); auto. Qed.

(** One shift to the right halves the mantissa and keeps the location
    right for a unit twice as large. *)
Lemma shr_1_ok (q : positive) (l : location) (y X : Z) :
  0 < y → loc_ok (Zpos q) l y X →
  shr_m (shr_1 (shr_record_of_loc (Zpos q) l)) = Zpos q / 2
  ∧ loc_ok (Zpos q / 2) (loc_of_shr_record (shr_1 (shr_record_of_loc (Zpos q) l)))
      (2 * y) X.
Proof.
  intros Hy Hl.
  destruct q as [p|p|].
  - replace (Zpos p~1 / 2) with (Zpos p) by (rewrite Pos2Z.inj_xI; apply Z.div_unique with (r := 1); lia).
    rewrite Pos2Z.inj_xI in Hl.
    destruct l as [|[]]; simpl in *; (split; [done|]); lia.
  - replace (Zpos p~0 / 2) with (Zpos p) by (rewrite Pos2Z.inj_xO; apply Z.div_unique with (r := 0); lia).
    rewrite Pos2Z.inj_xO in Hl.
    destruct l as [|[]]; simpl in *; (split; [done|]); lia.
  - change (1 / 2) with 0.
    destruct l as [|[]]; simpl in *; (split; [done|]); lia.
Qed.

Lemma shr_fexp_53 (m : positive) (e : Z) (l : location) :
  Zpos (digits2_pos m) = 53 → -1074 <= e →
  shr_fexp 53 1024 (Zpos m) e l = (shr_record_of_loc (Zpos m) l, e).
Proof.
  intros Hd He. unfold shr_fexp, fexp, emin. cbn [Zdigits2]. rewrite Hd.
  by replace (Z.max (53 + e - 53) (3 - 1024 - 53) - e) with 0 by lia.
Qed.

Lemma shr_fexp_54 (m : positive) (e : Z) (l : location) :
  Zpos (digits2_pos m) = 54 → -1074 <= e →
  shr_fexp 53 1024 (Zpos m) e l = (shr_1 (shr_record_of_loc (Zpos m) l), e + 1).
Proof.
  intros Hd He. unfold shr_fexp, fexp, emin. cbn [Zdigits2]. rewrite Hd.
  by replace (Z.max (54 + e - 53) (3 - 1024 - 53) - e) with 1 by lia.
Qed.

(** After rounding, a mantissa that reached 2^53 is shifted once more. *)
Lemma renormalise (m1 : Z) (e : Z) :
  2 ^ 52 <= m1 <= 2 ^ 53 → -1074 <= e →
  ∃ M t, shr_fexp 53 1024 m1 e loc_Exact
         = ({| shr_m := Zpos M; shr_r := false; shr_s := false |}, e + t)
         ∧ (t = 0 ∨ t = 1) ∧ 2 ^ 52 <= Zpos M < 2 ^ 53 ∧ Zpos M * 2 ^ t = m1.
Proof.
  intros [Hlo Hhi] He.
  destruct m1 as [|p|p]; [lia| |lia].
  destruct (Z.eq_dec (Zpos p) (2 ^ 53)) as [Heq|Hne].
  - injection Heq as ->. exists (2 ^ 52)%positive, 1.
    rewrite shr_fexp_54 by done. split; [done|]. split; [by right|]. done.
  - exists p, 0. rewrite shr_fexp_53; [|apply digits_unique; lia|done].
    rewrite Z.add_0_r. split; [done|]. split; [by left|]. lia.
Qed.

(** The rounding of a quotient of 53 or 54 digits: a 53-digit mantissa
    within half a unit of the exact value. *)
Lemma round_aux_spec (q : positive) (e : Z) (l : location) (y X : Z) :
  2 ^ 52 <= Zpos q < 2 ^ 54 → -1074 <= e <= 900 → 0 < y →
  loc_ok (Zpos q) l y X →
  ∃ M t, binary_round_aux 53 1024 false (Zpos q) e l = S754_finite false M (e + t)
         ∧ 0 <= t <= 2 ∧ 2 ^ 52 <= Zpos M < 2 ^ 53
         ∧ 2 * Zpos M * (2 ^ t * y) - 2 ^ t * y <= 2 * X
         ∧ 2 * X <= 2 * Zpos M * (2 ^ t * y) + 2 ^ t * y.
Proof.
  intros [Hlo Hhi] He Hy Hl. unfold binary_round_aux.
  destruct (Z.lt_ge_cases (Zpos q) (2 ^ 53)) as [Hq|Hq].
  - rewrite shr_fexp_53; [|apply digits_unique; lia|lia].
    destruct (loc_of_record_of (Zpos q) l) as [-> ->].
    pose proof (round_nearest_even_ok _ _ _ _ Hy Hl) as [Hr1 Hr2].
    pose proof (round_nearest_even_step (Zpos q) l) as Hstep.
    set (m1 := round_nearest_even (Zpos q) l) in *.
    destruct (renormalise m1 e) as (M & t & -> & Ht & HM & Hm1); [lia|lia|].
    cbn [shr_m]. exists M, t.
    destruct (Z.leb_spec (e + t) (1024 - 53)); [|lia].
    split; [done|]. split; [lia|]. split; [done|].
    assert (0 < 2 ^ t) by (apply Z.pow_pos_nonneg; lia).
    assert (y <= 2 ^ t * y) by nia.
    replace (2 * Zpos M * (2 ^ t * y)) with (2 * m1 * y) by (rewrite <- Hm1; ring).
    lia.
  - rewrite shr_fexp_54; [|apply digits_unique; lia|lia].
    destruct (shr_1_ok q l y X Hy Hl) as [Hm Hl'].
    set (rec := shr_1 (shr_record_of_loc (Zpos q) l)) in *.
    rewrite Hm.
    assert (Hhalf : 2 ^ 52 <= Zpos q / 2 < 2 ^ 53).
    { split; [apply Z.div_le_lower_bound | apply Z.div_lt_upper_bound]; lia. }
    assert (Hy2 : 0 < 2 * y) by lia.
    pose proof (round_nearest_even_ok _ _ _ _ Hy2 Hl') as [Hr1 Hr2].
    pose proof (round_nearest_even_step (Zpos q / 2) (loc_of_shr_record rec)) as Hstep.
    set (m1 := round_nearest_even (Zpos q / 2) (loc_of_shr_record rec)) in *.
    destruct (renormalise m1 (e + 1)) as (M & t & -> & Ht & HM & Hm1); [lia|lia|].
    cbn [shr_m]. exists M, (1 + t).
    destruct (Z.leb_spec (e + 1 + t) (1024 - 53)); [|lia].
    split; [f_equal; lia|]. split; [lia|]. split; [done|].
    assert (0 < 2 ^ t) by (apply Z.pow_pos_nonneg; lia).
    rewrite Z.pow_add_r by lia. change (2 ^ 1) with 2.
    assert (2 * y <= 2 * 2 ^ t * y) by nia.
    replace (2 * Zpos M * (2 * 2 ^ t * y)) with (2 * m1 * (2 * y))
      by (rewrite <- Hm1; ring).
    lia.
Qed.

(** The quotient of two positive doubles with 53-digit mantissas. *)
Lemma div_spec (mx my : positive) (ex ey : Z) :
  Zpos (digits2_pos mx) = 53 → Zpos (digits2_pos my) = 53 →
  -52 <= ex <= 0 → -52 <= ey <= 0 →
  ∃ M t, SFdiv 53 1024 (S754_finite false mx ex) (S754_finite false my ey)
         = S754_finite false M (ex - ey - 53 + t)
         ∧ 0 <= t <= 2 ∧ 2 ^ 52 <= Zpos M < 2 ^ 53
         ∧ 2 * Zpos M * (2 ^ t * Zpos my) - 2 ^ t * Zpos my
           <= 2 * (Zpos mx * 2 ^ 53)
         ∧ 2 * (Zpos mx * 2 ^ 53)
           <= 2 * Zpos M * (2 ^ t * Zpos my) + 2 ^ t * Zpos my.
Proof.
  intros Hdx Hdy Hex Hey.
  pose proof (digits_bounds mx) as Hmx. rewrite Hdx in Hmx.
  pose proof (digits_bounds my) as Hmy. rewrite Hdy in Hmy.
  change (53 - 1) with 52 in *.
  unfold SFdiv, SFdiv_core_binary, fexp, emin. cbn [Zdigits2 xorb].
  rewrite Hdx, Hdy.
  replace (Z.min (Z.max (53 + ex - (53 + ey) - 53) (3 - 1024 - 53)) (ex - ey))
    with (ex - ey - 53) by lia.
  replace (ex - ey - (ex - ey - 53)) with 53 by lia.
  cbv beta iota.
  rewrite Z.shiftl_mul_pow2 by lia.
  set (X := Zpos mx * 2 ^ 53).
  pose proof (Z.div_eucl_eq X (Zpos my) ltac:(lia)) as Heq.
  pose proof (Z.mod_pos_bound X (Zpos my) ltac:(lia)) as Hr.
  unfold Z.modulo in Hr. destruct (Z.div_eucl X (Zpos my)) as [q r].
  assert (HX : 2 ^ 52 * 2 ^ 53 <= X < 2 ^ 53 * 2 ^ 53) by (unfold X; lia).
  assert (Hq : 2 ^ 52 <= q < 2 ^ 54).
  { split.
    - destruct (Z.lt_ge_cases q (2 ^ 52)) as [Hlt|]; [exfalso|done].
      assert ((q + 1) * Zpos my <= 2 ^ 52 * Zpos my)
        by (apply Z.mul_le_mono_nonneg_r; lia).
      assert (2 ^ 52 * Zpos my < 2 ^ 52 * 2 ^ 53)
        by (apply Z.mul_lt_mono_pos_l; lia).
      lia.
    - destruct (Z.lt_ge_cases q (2 ^ 54)) as [|Hge]; [done|exfalso].
      assert (2 ^ 54 * Zpos my <= q * Zpos my)
        by (apply Z.mul_le_mono_nonneg_r; lia).
      assert (2 ^ 54 * 2 ^ 52 <= 2 ^ 54 * Zpos my)
        by (apply Z.mul_le_mono_nonneg_l; lia).
      lia. }
  destruct q as [|q|q]; [lia| |lia].
  destruct (round_aux_spec q (ex - ey - 53) (new_location (Zpos my) r)
              (Zpos my) X) as (M & t & -> & Ht & HM & H1 & H2);
    [done | lia | lia | | by exists M, t].
  rewrite Heq. rewrite (Z.mul_comm (Zpos my)). apply new_location_ok; lia.
Qed.

(** The double quotient of two set sizes: a 53-digit mantissa [M] and an
    exponent [- σ] with [M * 2^-σ] within half a unit of [n / d]. *)
Lemma quotient_spec (n d : nat) :
  (0 < n)%nat → (n <= d)%nat → Z.of_nat d < 2 ^ 53 →
  ∃ M σ, Binary64.quotient n d = S754_finite false M (- σ)
         ∧ 51 <= σ ∧ 2 ^ 52 <= Zpos M < 2 ^ 53
         ∧ 2 * Zpos M * Z.of_nat d - Z.of_nat d <= 2 * (Z.of_nat n * 2 ^ σ)
         ∧ 2 * (Z.of_nat n * 2 ^ σ) <= 2 * Zpos M * Z.of_nat d + Z.of_nat d.
Proof.
  intros Hn Hnd Hd. unfold Binary64.quotient, Binary64.prec, Binary64.emax.
  destruct (ofNat_finite n) as (mx & ex & -> & Hdx & Hex & Hmx); [done|lia|].
  destruct (ofNat_finite d) as (my & ey & -> & Hdy & Hey & Hmy); [lia|done|].
  destruct (div_spec mx my ex ey) as (M & t & -> & Ht & HM & H1 & H2);
    [done..|].
  pose proof (digits_bounds mx) as Bx. rewrite Hdx in Bx.
  pose proof (digits_bounds my) as By. rewrite Hdy in By.
  change (53 - 1) with 52 in *.
  set (a := - ex) in *. set (b := - ey) in *.
  set (N := Z.of_nat n) in *. set (D := Z.of_nat d) in *.
  assert (Hab : b <= a).
  { destruct (Z.le_gt_cases b a) as [|Hlt]; [done|exfalso].
    assert (2 ^ b = 2 ^ a * 2 ^ (b - a))
      by (rewrite <- Z.pow_add_r by lia; f_equal; lia).
    assert (2 <= 2 ^ (b - a)).
    { change 2 with (2 ^ 1) at 1. apply Z.pow_le_mono_r; lia. }
    assert (0 < 2 ^ a) by (apply Z.pow_pos_nonneg; lia).
    assert (N * 2 ^ a <= D * 2 ^ a) by (apply Z.mul_le_mono_nonneg_r; lia).
    assert (D * 2 ^ a * 2 <= D * 2 ^ a * 2 ^ (b - a))
      by (apply Z.mul_le_mono_nonneg_l; nia).
    nia. }
  exists M, (53 + a - b - t).
  split; [f_equal; lia|]. split; [lia|]. split; [done|].
  set (σ := 53 + a - b - t).
  assert (Hpow : 2 ^ a * 2 ^ 53 = 2 ^ σ * (2 ^ t * 2 ^ b)).
  { rewrite <- !Z.pow_add_r by lia. f_equal. lia. }
  assert (Hu : 0 < 2 ^ t * 2 ^ b).
  { apply Z.mul_pos_pos; apply Z.pow_pos_nonneg; lia. }
  set (u := 2 ^ t * 2 ^ b) in *.
  assert (HX : 2 * (Zpos mx * 2 ^ 53) = 2 * (N * 2 ^ σ) * u).
  { rewrite Hmx. rewrite <- Z.mul_assoc, Hpow. ring. }
  assert (HY : 2 ^ t * Zpos my = D * u) by (rewrite Hmy; unfold u; ring).
  rewrite HX, HY in H1, H2.
  split.
  - apply (Z.mul_le_mono_pos_r _ _ u Hu).
    replace ((2 * Zpos M * D - D) * u) with (2 * Zpos M * (D * u) - D * u) by ring.
    done.
  - apply (Z.mul_le_mono_pos_r _ _ u Hu).
    replace ((2 * Zpos M * D + D) * u) with (2 * Zpos M * (D * u) + D * u) by ring.
    done.
Qed.

Lemma quotient_zero (d : nat) :
  (0 < d)%nat → Z.of_nat d < 2 ^ 53 →
  Binary64.quotient 0 d = S754_zero false.
Proof.
  intros Hd Hlt. unfold Binary64.quotient.
  destruct (ofNat_finite d) as (my & ey & -> & _); [done..|]. done.
Qed.

(** The test [sim >= 0.8] on the double quotient is the test
    [4 * d <= 5 * n] on the sizes. *)
Lemma geq_0_8 (n d : nat) :
  (0 < d)%nat → (n <= d)%nat → Z.of_nat d < 2 ^ 53 →
  Binary64.geq (Binary64.quotient n d) Binary64.lit_0_8
  = (4 * Z.of_nat d <=? 5 * Z.of_nat n).
Proof.
  intros Hd Hnd Hlt. destruct (Nat.eq_dec n 0%nat) as [->|Hn].
  { rewrite quotient_zero by done. symmetry. apply Z.leb_gt. lia. }
  destruct (quotient_spec n d) as (M & σ & -> & Hσ & HM & H1 & H2);
    [lia|done|done|].
  set (N := Z.of_nat n) in *. set (D := Z.of_nat d) in *.
  assert (HMlo : 2 ^ 52 * D <= Zpos M * D)
    by (apply Z.mul_le_mono_nonneg_r; lia).
  assert (HMhi : Zpos M * D <= (2 ^ 53 - 1) * D)
    by (apply Z.mul_le_mono_nonneg_r; lia).
  unfold Binary64.geq, Binary64.lit_0_8, SFleb, SFcompare.
  destruct (Z.compare_spec (-53) (- σ)) as [Heq|Hlt'|Hgt].
  - assert (σ = 53) as -> by lia.
    change (Pos.compare_cont Eq 7205759403792794 M)
      with (Pos.compare 7205759403792794 M).
    destruct (Pos.compare_spec 7205759403792794 M) as [<-|Hc|Hc];
      symmetry.
    + apply Z.leb_le. lia.
    + apply Z.leb_le.
      assert (Hle : 7205759403792794 <= Zpos M)
        by (clear - Hc; apply Pos2Z.pos_lt_pos in Hc; lia).
      assert (Hprod : 7205759403792794 * D <= Zpos M * D)
        by (apply Z.mul_le_mono_nonneg_r; [clear - Hd; lia | done]).
      clear - Hd Hlt H1 Hprod. lia.
    + apply Z.leb_gt.
      assert (Hle : Zpos M <= 7205759403792793)
        by (clear - Hc; apply Pos2Z.pos_lt_pos in Hc; lia).
      assert (Hprod : Zpos M * D <= 7205759403792793 * D)
        by (apply Z.mul_le_mono_nonneg_r; [clear - Hd; lia | done]).
      clear - Hd Hlt H2 Hprod. lia.
  - symmetry. apply Z.leb_le.
    assert (σ = 51 ∨ σ = 52) as [-> | ->] by lia; lia.
  - symmetry. apply Z.leb_gt.
    assert (2 ^ 54 <= 2 ^ σ) by (apply Z.pow_le_mono_r; lia).
    assert (N * 2 ^ 54 <= N * 2 ^ σ) by (apply Z.mul_le_mono_nonneg_l; lia).
    lia.
Qed.

(** The test [sim >= 0.5] on the double quotient is the test
    [d <= 2 * n] on the sizes. *)
Lemma geq_0_5 (n d : nat) :
  (0 < d)%nat → (n <= d)%nat → Z.of_nat d < 2 ^ 53 →
  Binary64.geq (Binary64.quotient n d) Binary64.lit_0_5
  = (Z.of_nat d <=? 2 * Z.of_nat n).
Proof.
  intros Hd Hnd Hlt. destruct (Nat.eq_dec n 0%nat) as [->|Hn].
  { rewrite quotient_zero by done. symmetry. apply Z.leb_gt. lia. }
  destruct (quotient_spec n d) as (M & σ & -> & Hσ & HM & H1 & H2);
    [lia|done|done|].
  set (N := Z.of_nat n) in *. set (D := Z.of_nat d) in *.
  assert (HMlo : 2 ^ 52 * D <= Zpos M * D)
    by (apply Z.mul_le_mono_nonneg_r; lia).
  assert (HMhi : Zpos M * D <= (2 ^ 53 - 1) * D)
    by (apply Z.mul_le_mono_nonneg_r; lia).
  unfold Binary64.geq, Binary64.lit_0_5, SFleb, SFcompare.
  destruct (Z.compare_spec (-53) (- σ)) as [Heq|Hlt'|Hgt].
  - assert (σ = 53) as -> by lia.
    change (Pos.compare_cont Eq 4503599627370496 M)
      with (Pos.compare 4503599627370496 M).
    assert (Hprod : 4503599627370496 * D <= Zpos M * D) by exact HMlo.
    destruct (Pos.compare_spec 4503599627370496 M) as [Hc|Hc|Hc].
    + symmetry. apply Z.leb_le. clear - Hd Hlt H1 Hprod. lia.
    + symmetry. apply Z.leb_le. clear - Hd Hlt H1 Hprod. lia.
    + exfalso. apply Pos2Z.pos_lt_pos in Hc. clear - Hc HM. lia.
  - symmetry. apply Z.leb_le.
    assert (σ = 51 ∨ σ = 52) as [-> | ->] by lia; lia.
  - symmetry. apply Z.leb_gt.
    assert (2 ^ 54 <= 2 ^ σ) by (apply Z.pow_le_mono_r; lia).
    assert (N * 2 ^ 54 <= N * 2 ^ σ) by (apply Z.mul_le_mono_nonneg_l; lia).
    lia.
Qed.

Lemma Qle_bool_quotient (a b : positive) (n d : nat) :
  (0 < d)%nat →
  Qle_bool (Zpos a # b) (inject_Z (Z.of_nat n) / inject_Z (Z.of_nat d))
  = (Zpos a * Z.of_nat d <=? Zpos b * Z.of_nat n).
Proof.
  intros Hd.
  destruct (Z.of_nat d) as [|p|p] eqn:E; [lia| |lia].
  unfold Qle_bool, Qdiv, Qmult, Qinv, inject_Z. cbn [Qnum Qden].
  f_equal; lia.
Qed.

(** A size divided by itself is the double 1. *)
Lemma quotient_same (d : nat) :
  (0 < d)%nat → Z.of_nat d < 2 ^ 53 →
  Binary64.quotient d d = S754_finite false 4503599627370496 (-52).
Proof.
  intros Hd Hlt.
  destruct (quotient_spec d d) as (M & σ & -> & Hσ & HM & H1 & H2);
    [done..|].
  set (D := Z.of_nat d) in *.
  assert (0 < 2 ^ σ) by (apply Z.pow_pos_nonneg; lia).
  assert (Hlo : 2 * Zpos M - 1 <= 2 * 2 ^ σ).
  { apply (Z.mul_le_mono_pos_r _ _ D); [lia|].
    replace ((2 * Zpos M - 1) * D) with (2 * Zpos M * D - D) by ring.
    replace (2 * 2 ^ σ * D) with (2 * (D * 2 ^ σ)) by ring. done. }
  assert (Hhi : 2 * 2 ^ σ <= 2 * Zpos M + 1).
  { apply (Z.mul_le_mono_pos_r _ _ D); [lia|].
    replace ((2 * Zpos M + 1) * D) with (2 * Zpos M * D + D) by ring.
    replace (2 * 2 ^ σ * D) with (2 * (D * 2 ^ σ)) by ring. done. }
  assert (HMσ : Zpos M = 2 ^ σ) by lia.
  assert (σ = 52).
  { rewrite HMσ in HM. destruct HM as [HMlo HMhi].
    apply Z.pow_le_mono_r_iff in HMlo; [|lia..].
    apply Z.pow_lt_mono_r_iff in HMhi; [|lia..]. lia. }
  subst σ. f_equal. change (2 ^ 52) with (Zpos 4503599627370496) in HMσ.
  by injection HMσ.
Qed.

(** The quotients 8/10 and 1/2 are the literals 0.8 and 0.5 themselves. *)
Lemma quotient_on_boundary :
  Binary64.quotient 8 10 = Binary64.lit_0_8
  ∧ Binary64.quotient 1 2 = Binary64.lit_0_5.
Proof. by vm_compute. Qed.

End Doubles.

Lemma size_list_to_set_le (a : list jsstring) :
  size (list_to_set a : gset jsstring) ≤ length a.
Proof.
  induction a as [|x a IH]; [done|].
  cbn [list_to_set length]. rewrite size_union_alt, size_singleton.
  pose proof (subseteq_size (list_to_set a ∖ {[x]}) (list_to_set a : gset jsstring)
                (subseteq_difference_l _ _ _ (reflexivity _))).
  lia.
Qed.

(** On token sequences of fewer than 2^53 tokens in all (an array has
    fewer than 2^32 elements), the label computed with doubles is the
    label computed with the exact quotient. *)
Lemma evaluateAnswer_on_doubles (lowerAt : jsstring → N → jsstring → jsstring)
    (model user : jsstring) :
  (Z.of_nat (length (tokenize lowerAt model) + length (tokenize lowerAt user))
   < 2 ^ 53)%Z →
  Binary64.evaluateAnswer lowerAt model user = evaluateAnswer lowerAt model user.
Proof.
  intros Hlen. unfold Binary64.evaluateAnswer, evaluateAnswer.
  destruct (decide _); [done|].
  unfold Binary64.jaccardSimilarity. rewrite jaccardSimilarity_unfold.
  set (A := list_to_set (tokenize lowerAt model) : gset jsstring).
  set (B := list_to_set (tokenize lowerAt user) : gset jsstring).
  rewrite inter_count.
  pose proof (size_list_to_set_le (tokenize lowerAt model)) as HA.
  pose proof (size_list_to_set_le (tokenize lowerAt user)) as HB.
  fold A in HA. fold B in HB.
  pose proof (inter_size_le_l A B). pose proof (inter_size_le_r A B).
  destruct (size A + size B =? 0) eqn:E; [done|].
  apply Nat.eqb_neq in E.
  rewrite geq_0_8, geq_0_5 by lia.
  rewrite (Qle_bool_quotient 8 10), (Qle_bool_quotient 5 10) by lia.
  replace (4 * Z.of_nat (size A + size B) <=? 5 * Z.of_nat (size (A ∩ B) * 2))%Z
    with (8 * Z.of_nat (size A + size B) <=? 10 * Z.of_nat (size (A ∩ B) * 2))%Z
    by (apply eq_true_iff_eq; rewrite !Z.leb_le; lia).
  replace (Z.of_nat (size A + size B) <=? 2 * Z.of_nat (size (A ∩ B) * 2))%Z
    with (5 * Z.of_nat (size A + size B) <=? 10 * Z.of_nat (size (A ∩ B) * 2))%Z
    by (apply eq_true_iff_eq; rewrite !Z.leb_le; lia).
  done.
Qed.

(** X8.  The double [jaccardSimilarity] returns: zero without a common token,
    one for two equal non-empty sets, and otherwise a 53-digit mantissa
    [M] and an exponent [- σ] such that [M * 2^-σ] is within half a unit
    in the last place of the exact quotient. *)
Lemma jaccardSimilarity_on_doubles (a b : list jsstring) :
  let A : gset jsstring := list_to_set a in
  let B : gset jsstring := list_to_set b in
  (Z.of_nat (size A + size B) < 2 ^ 53)%Z →
  (size (A ∩ B) = 0 → Binary64.jaccardSimilarity a b = S754_zero false)
  ∧ (A = B → A ≠ ∅ →
       Binary64.jaccardSimilarity a b
       = S754_finite false 4503599627370496 (-52))
  ∧ (0 < size (A ∩ B) →
       ∃ M σ, Binary64.jaccardSimilarity a b = S754_finite false M (- σ)
         ∧ (2 ^ 52 <= Zpos M < 2 ^ 53)%Z
         ∧ (2 * Zpos M * Z.of_nat (size A + size B) - Z.of_nat (size A + size B)
            <= 2 * (Z.of_nat (size (A ∩ B) * 2) * 2 ^ σ))%Z
         ∧ (2 * (Z.of_nat (size (A ∩ B) * 2) * 2 ^ σ)
            <= 2 * Zpos M * Z.of_nat (size A + size B)
               + Z.of_nat (size A + size B))%Z).
Proof.
  intros A B Hlt. unfold Binary64.jaccardSimilarity. fold A B.
  rewrite inter_count.
  pose proof (inter_size_le_l A B). pose proof (inter_size_le_r A B).
  split; [|split].
  - intros ->. destruct (size A + size B =? 0) eqn:E; [done|].
    apply Nat.eqb_neq in E. apply quotient_zero; [lia|done].
  - intros <- HA. rewrite (idemp_L (∩) A).
    assert (size A ≠ 0) by (by intros ?%size_empty_inv%leibniz_equiv).
    destruct (size A + size A =? 0) eqn:E; [apply Nat.eqb_eq in E; lia|].
    replace (size A * 2) with (size A + size A) by lia.
    apply quotient_same; [lia|done].
  - intros Hpos. destruct (size A + size B =? 0) eqn:E;
      [apply Nat.eqb_eq in E; lia|].
    destruct (quotient_spec (size (A ∩ B) * 2) (size A + size B))
      as (M & σ & Hq & _ & HM & H1 & H2); [lia..|done|].
    by exists M, σ.
Qed.

Lemma jaccardSimilarity_on_doubles_witness :
  Binary64.jaccardSimilarity [units "a"] [units "b"] = S754_zero false
  ∧ Binary64.jaccardSimilarity [units "b"; units "a"] [units "a"; units "b"]
    = S754_finite false 4503599627370496 (-52).
Proof.
  split.
  - apply (proj1 (jaccardSimilarity_on_doubles [units "a"] [units "b"]
                    ltac:(vm_compute; reflexivity))).
    vm_compute. reflexivity.
  - apply (proj1 (proj2 (jaccardSimilarity_on_doubles [units "b"; units "a"]
                           [units "a"; units "b"] ltac:(vm_compute; reflexivity)))).
    + vm_compute. reflexivity.
    + vm_compute. discriminate.
Defined.

(** ** Evaluator: the similarity and the double that is returned *)

Section Range.

Local Open Scope Z_scope.

(** The quotient of a count by a larger one is a double between 0
    and 1. *)
Lemma quotient_range (n d : nat) :
  (0 < d)%nat → (n <= d)%nat → Z.of_nat d < 2 ^ 53 →
  SFleb (S754_zero false) (Binary64.quotient n d) = true
  ∧ SFleb (Binary64.quotient n d) OnDoubles.one = true.
Proof.
  intros Hd Hnd Hlt. destruct (Nat.eq_dec n 0%nat) as [->|Hn].
  { by rewrite quotient_zero. }
  destruct (quotient_spec n d) as (M & σ & -> & Hσ & HM & H1 & _);
    [lia|done|done|].
  split; [done|].
  set (N := Z.of_nat n) in *. set (D := Z.of_nat d) in *.
  assert (0 < 2 ^ σ) by (apply Z.pow_pos_nonneg; lia).
  assert (HN : 2 * (N * 2 ^ σ) <= 2 * (D * 2 ^ σ)).
  { apply Z.mul_le_mono_nonneg_l; [lia|].
    apply Z.mul_le_mono_nonneg_r; lia. }
  assert (HMσ : 2 * Zpos M - 1 <= 2 * 2 ^ σ).
  { apply (Z.mul_le_mono_pos_r _ _ D); [lia|].
    replace ((2 * Zpos M - 1) * D) with (2 * Zpos M * D - D) by ring.
    replace (2 * 2 ^ σ * D) with (2 * (D * 2 ^ σ)) by ring. lia. }
  unfold SFleb, SFcompare, OnDoubles.one.
  destruct (Z.compare_spec (- σ) (-52)) as [Heq|Hlt'|Hgt]; [|done|].
  - assert (σ = 52) as -> by lia.
    assert (Zpos M = 2 ^ 52) as HM52 by lia.
    change (2 ^ 52) with (Zpos 4503599627370496) in HM52.
    injection HM52 as ->. reflexivity.
  - exfalso. assert (σ = 51) as -> by lia. lia.
Qed.

End Range.

(** The half-unit bound of a rounded quotient, on rationals: the exact
    quotient scaled by the power of two of the exponent is within one
    half of the mantissa. *)
Lemma half_unit_Q (n d : nat) (M : positive) (σ : Z) :
  0 < d →
  (2 * Zpos M * Z.of_nat d - Z.of_nat d <= 2 * (Z.of_nat n * 2 ^ σ))%Z →
  (2 * (Z.of_nat n * 2 ^ σ) <= 2 * Zpos M * Z.of_nat d + Z.of_nat d)%Z →
  (inject_Z (Zpos M) - (1 # 2)
   <= inject_Z (Z.of_nat n) / inject_Z (Z.of_nat d) * inject_Z (2 ^ σ)
   <= inject_Z (Zpos M) + (1 # 2))%Q.
Proof.
  intros Hd H1 H2.
  destruct (Z.of_nat d) as [|p|p] eqn:E; [lia| |lia].
  set (P := (2 ^ σ)%Z) in *. set (N := Z.of_nat n) in *.
  unfold Qdiv, Qinv, inject_Z. cbn [Qnum Qden].
  unfold Qle, Qminus, Qplus, Qopp, Qmult. cbn [Qnum Qden]. split.
  - rewrite !Pos.mul_1_r, !Z.mul_1_r, ?Pos.mul_1_l.
    rewrite ?Pos2Z.inj_mul. lia.
  - rewrite !Pos.mul_1_r, !Z.mul_1_r, ?Pos.mul_1_l.
    rewrite ?Pos2Z.inj_mul. lia.
Qed.

(** C4.  For every two token sequences, with [A] and [B] their sets of
    distinct tokens: the similarity is [2·|A∩B| / (|A|+|B|)] whenever that
    denominator is not zero, and [0] when both sets are empty; it always
    lies between 0 and 1; it is 1 when the two sets are the same non-empty
    set, as for the sequences a,b and a,b.  The same holds of the double
    the code returns.  It is the quotient of the two counts as the engine
    divides them, and [+0] when both sets are empty.  For fewer than 2^53
    distinct tokens in all it is the exact quotient rounded to a double,
    within half a unit in the last place (for 2/3 the double
    0.6666666666666666), it lies between the doubles 0 and 1, and it is
    the double 1 when the two sets are the same non-empty set. *)
Theorem jaccardSimilarity_formula (a b : list jsstring) :
  let A : gset jsstring := list_to_set a in
  let B : gset jsstring := list_to_set b in
  (size A + size B ≠ 0 →
     (jaccardSimilarity a b ==
        inject_Z (2 * Z.of_nat (size (A ∩ B)))
        / inject_Z (Z.of_nat (size A) + Z.of_nat (size B)))%Q)
  ∧ (A = ∅ → B = ∅ → jaccardSimilarity a b = 0%Q)
  ∧ (0 <= jaccardSimilarity a b <= 1)%Q
  ∧ (A = B → A ≠ ∅ → (jaccardSimilarity a b == 1)%Q)
  ∧ (jaccardSimilarity [units "a"; units "b"] [units "a"; units "b"] == 1)%Q
  ∧ (size A + size B ≠ 0 →
       Binary64.jaccardSimilarity a b
       = SFdiv Binary64.prec Binary64.emax
           (Binary64.ofNat (size (A ∩ B) * 2))
           (Binary64.ofNat (size A + size B)))
  ∧ (A = ∅ → B = ∅ → Binary64.jaccardSimilarity a b = S754_zero false)
  ∧ ((Z.of_nat (size A + size B) < 2 ^ 53)%Z →
       (size (A ∩ B) = 0 → Binary64.jaccardSimilarity a b = S754_zero false)
       ∧ (0 < size (A ∩ B) →
            ∃ M σ, Binary64.jaccardSimilarity a b = S754_finite false M (- σ)
              ∧ (2 ^ 52 <= Zpos M < 2 ^ 53)%Z
              ∧ (inject_Z (Zpos M) - (1 # 2)
                 <= jaccardSimilarity a b * inject_Z (2 ^ σ)
                 <= inject_Z (Zpos M) + (1 # 2))%Q)
       ∧ SFleb (S754_zero false) (Binary64.jaccardSimilarity a b) = true
       ∧ SFleb (Binary64.jaccardSimilarity a b) OnDoubles.one = true
       ∧ (A = B → A ≠ ∅ → Binary64.jaccardSimilarity a b = OnDoubles.one))
  ∧ Binary64.jaccardSimilarity [units "a"; units "b"] [units "a"; units "b"]
    = OnDoubles.one
  ∧ Binary64.jaccardSimilarity [] [] = S754_zero false.
Proof.
  intros A B.
  pose proof (inter_size_le_l A B) as Hl. pose proof (inter_size_le_r A B) as Hr.
  assert (Hd : Binary64.jaccardSimilarity a b
               = if size A + size B =? 0 then S754_zero false
                 else Binary64.quotient (size (A ∩ B) * 2) (size A + size B)).
  { unfold Binary64.jaccardSimilarity. fold A B. by rewrite inter_count. }
  assert (Hq : jaccardSimilarity a b
               = if size A + size B =? 0 then 0%Q
                 else (inject_Z (Z.of_nat (size (A ∩ B) * 2))
                       / inject_Z (Z.of_nat (size A + size B)))%Q)
    by apply jaccardSimilarity_unfold.
  split; [|split; [|split; [|split; [|split; [|split; [|split; [|split; [|split]]]]]]]].
  - intros Hne. rewrite Hq. apply Nat.eqb_neq in Hne. rewrite Hne.
    by rewrite Nat2Z.inj_mul, Nat2Z.inj_add, Z.mul_comm.
  - intros HA HB. rewrite Hq. by rewrite HA, HB.
  - apply jaccardSimilarity_range.
  - intros HAB HA. rewrite Hq. rewrite <- HAB, (idemp_L (∩) A).
    assert (size A ≠ 0) by (by intros ?%size_empty_inv%leibniz_equiv).
    destruct (size A + size A =? 0) eqn:E; [apply Nat.eqb_eq in E; lia|].
    replace (size A * 2) with (size A + size A) by lia.
    apply Qmult_inv_r. change 0%Q with (inject_Z 0). rewrite inject_Z_injective. lia.
  - by vm_compute.
  - intros Hne. rewrite Hd. apply Nat.eqb_neq in Hne. by rewrite Hne.
  - intros HA HB. rewrite Hd. by rewrite HA, HB.
  - intros Hlt. rewrite Hd, Hq.
    destruct (size A + size B =? 0) eqn:E.
    { apply Nat.eqb_eq in E.
      assert (A = ∅) as HA by (apply leibniz_equiv, size_empty_inv; lia).
      split; [done|]. split; [lia|]. split; [done|]. split; [done|].
      by intros _ ?. }
    apply Nat.eqb_neq in E.
    destruct (quotient_range (size (A ∩ B) * 2) (size A + size B))
      as [H0 H1]; [lia..|done|].
    split; [|split; [|split; [done|split; [done|]]]].
    + intros ->. apply quotient_zero; [lia|done].
    + intros Hpos.
      destruct (quotient_spec (size (A ∩ B) * 2) (size A + size B))
        as (M & σ & -> & _ & HM & Hlo & Hhi); [lia..|done|].
      exists M, σ. split; [done|]. split; [done|].
      apply half_unit_Q; [lia|done..].
    + intros <- HA. rewrite (idemp_L (∩) A).
      replace (size A * 2) with (size A + size A) by lia.
      apply quotient_same; [lia|done].
  - by vm_compute.
  - by vm_compute.
Qed.

(** The same at sequences with a repeated token, at two empty sequences
    and at sequences with two of three tokens in common, where the code
    returns the double 0.6666666666666666. *)
Lemma jaccardSimilarity_formula_witness :
  (jaccardSimilarity [units "a"; units "b"] [units "b"; units "c"] == 2 / 4)%Q
  ∧ jaccardSimilarity [] [] = 0%Q
  ∧ (jaccardSimilarity [units "a"; units "b"] [units "b"; units "a"; units "b"] == 1)%Q
  ∧ Binary64.jaccardSimilarity [units "a"; units "b"] [units "a"]
    = S754_finite false 6004799503160661 (-53)
  ∧ SFleb (Binary64.jaccardSimilarity [units "a"; units "b"] [units "a"])
      OnDoubles.one = true
  ∧ Binary64.jaccardSimilarity [units "a"; units "b"] [units "b"; units "a"; units "b"]
    = OnDoubles.one.
Proof.
  split; [|split; [|split; [|split; [|split]]]].
  - pose proof (proj1 (jaccardSimilarity_formula
                         [units "a"; units "b"] [units "b"; units "c"])) as H.
    apply H. vm_compute. discriminate.
  - apply (proj1 (proj2 (jaccardSimilarity_formula [] []))); reflexivity.
  - apply (proj1 (proj2 (proj2 (proj2 (jaccardSimilarity_formula
             [units "a"; units "b"] [units "b"; units "a"; units "b"]))))).
    + vm_compute. reflexivity.
    + vm_compute. discriminate.
  - rewrite (proj1 (proj2 (proj2 (proj2 (proj2 (proj2 (jaccardSimilarity_formula
               [units "a"; units "b"] [units "a"])))))))
      by (vm_compute; discriminate).
    vm_compute. reflexivity.
  - apply (proj1 (proj2 (proj2 (proj2 (proj2 (proj2 (proj2 (proj2
             (jaccardSimilarity_formula [units "a"; units "b"] [units "a"]))))))))).
    vm_compute. reflexivity.
  - apply (proj1 (proj2 (proj2 (proj2 (proj2 (proj2 (proj2 (proj2
             (jaccardSimilarity_formula [units "a"; units "b"]
                [units "b"; units "a"; units "b"]))))))))).
    + vm_compute. reflexivity.
    + vm_compute. reflexivity.
    + vm_compute. discriminate.
Defined.

(** ** Evaluator: the label *)

(** Capitals and the punctuation of the class do not count for an exact
    match. *)
Lemma normalizeExact_hello (lowerAt : jsstring → N → jsstring → jsstring) :
  normalizeExact lowerAt (units "Hello, World!")
  = normalizeExact lowerAt (units "hello world").
Proof. reflexivity. Qed.

(** The four messages tell the four labels (and their alert tiers)
    apart. *)
Lemma displayMessage_inj (l l' : EvaluationLabel) :
  displayMessage l = displayMessage l' → l = l'.
Proof. by destruct l, l'. Qed.

Lemma severity_of_label :
  severity (displayMessage EXACT) = success
  ∧ severity (displayMessage NEAR) = info
  ∧ severity (displayMessage PARTIAL) = warning
  ∧ severity (displayMessage DIFFERENT) = error.
Proof. done. Qed.

(** C1.  For every model answer and user answer: the label is EXACT when
    the two have the same [normalizeExact] form, whatever their tokens
    are; otherwise, with [s] the similarity of their token sequences, it
    is NEAR when [s >= 0.8], PARTIAL when [0.5 <= s < 0.8] and DIFFERENT
    when [s < 0.5], the lower bound of each band included.  The label is
    the same when the similarity and the two tests are computed on
    doubles, as the engine does. *)
Theorem evaluateAnswer_bands (lowerAt : jsstring → N → jsstring → jsstring)
    (model user : jsstring) :
  let s := jaccardSimilarity (tokenize lowerAt model) (tokenize lowerAt user) in
  (normalizeExact lowerAt model = normalizeExact lowerAt user →
     evaluateAnswer lowerAt model user = displayMessage EXACT)
  ∧ (normalizeExact lowerAt model ≠ normalizeExact lowerAt user →
       ((0.8 <= s)%Q → evaluateAnswer lowerAt model user = displayMessage NEAR)
       ∧ ((0.5 <= s)%Q ∧ (s < 0.8)%Q →
            evaluateAnswer lowerAt model user = displayMessage PARTIAL)
       ∧ ((s < 0.5)%Q →
            evaluateAnswer lowerAt model user = displayMessage DIFFERENT))
  ∧ ((Z.of_nat (length (tokenize lowerAt model)
                + length (tokenize lowerAt user)) < 2 ^ 53)%Z →
       Binary64.evaluateAnswer lowerAt model user
       = evaluateAnswer lowerAt model user).
Proof.
  intros s. split; [|split]; [| |apply evaluateAnswer_on_doubles];
    unfold evaluateAnswer; fold s.
  - intros Heq. by rewrite decide_True.
  - intros Hne. rewrite decide_False by done.
    split; [|split].
    + intros H%Qle_bool_iff. by rewrite H.
    + intros [Hlo%Qle_bool_iff Hhi]. rewrite Hlo.
      destruct (Qle_bool 0.8 s) eqn:E; [|done].
      apply Qle_bool_iff in E. by apply Qle_not_lt in E.
    + intros Hlt.
      destruct (Qle_bool 0.8 s) eqn:E8.
      { apply Qle_bool_iff in E8. exfalso. apply (Qlt_not_le _ _ Hlt).
        eapply Qle_trans; [|exact E8]. discriminate. }
      destruct (Qle_bool 0.5 s) eqn:E5; [|done].
      apply Qle_bool_iff in E5. by apply Qle_not_lt in E5.
Qed.

(** The four cases at concrete answers: an apostrophe that only
    [normalizeExact] removes (equal normal forms, no common token), and
    similarities of exactly 0.8, exactly 0.5 and 4/9; and the agreement of
    the doubles at the similarity of exactly 0.8. *)
Lemma evaluateAnswer_bands_witness :
  evaluateAnswer keepUnit (units "Don't.") (units "dont") = exactText
  ∧ evaluateAnswer keepUnit (units "a b c d e") (units "a b c d f") = nearText
  ∧ evaluateAnswer keepUnit (units "a b") (units "a c") = partialText
  ∧ evaluateAnswer keepUnit (units "a b c d") (units "a b e f g")
    = differentText
  ∧ Binary64.evaluateAnswer keepUnit (units "a b c d e") (units "a b c d f")
    = evaluateAnswer keepUnit (units "a b c d e") (units "a b c d f").
Proof.
  split; [|split; [|split; [|split]]].
  - apply (proj1 (evaluateAnswer_bands keepUnit (units "Don't.") (units "dont"))).
    vm_compute. reflexivity.
  - apply (proj1 (proj2 (evaluateAnswer_bands keepUnit
                           (units "a b c d e") (units "a b c d f")))).
    + vm_compute. discriminate.
    + vm_compute. discriminate.
  - apply (proj1 (proj2 (evaluateAnswer_bands keepUnit
                           (units "a b") (units "a c")))).
    + vm_compute. discriminate.
    + split; vm_compute; [discriminate | reflexivity].
  - apply (proj1 (proj2 (evaluateAnswer_bands keepUnit
                           (units "a b c d") (units "a b e f g")))).
    + vm_compute. discriminate.
    + vm_compute. reflexivity.
  - apply (proj2 (proj2 (evaluateAnswer_bands keepUnit
                           (units "a b c d e") (units "a b c d f")))).
    vm_compute. reflexivity.
Defined.

(** ** CorpusStore *)

(** Sampling gives nothing on an empty corpus, and a member of the corpus
    otherwise, whatever value between 0 and 1 [Math.random()] returns. *)
Lemma randomPair_empty (u : Q) : randomPair u [] = None.
Proof. reflexivity. Qed.

Lemma randomPair_member (u : Q) (pairs : list CorpusPair) :
  (0 <= u)%Q → (u < 1)%Q → pairs ≠ [] →
  ∃ p, randomPair u pairs = Some p ∧ p ∈ pairs.
Proof.
  intros H0 H1 Hne. unfold randomPair.
  destruct (length pairs =? 0) eqn:E.
  { apply Nat.eqb_eq in E. by destruct pairs. }
  apply Nat.eqb_neq in E.
  set (n := Z.of_nat (length pairs)).
  assert (Hn : (0 < inject_Z n)%Q).
  { change 0%Q with (inject_Z 0). rewrite <- Zlt_Qlt. lia. }
  assert (Hlo : (0 <= Qfloor (u * inject_Z n))%Z).
  { change 0%Z with (Qfloor 0). apply Qfloor_resp_le.
    by apply Qmult_le_0_compat; [|apply Qlt_le_weak]. }
  assert (Hhi : (Qfloor (u * inject_Z n) < n)%Z).
  { rewrite Zlt_Qlt. eapply Qle_lt_trans; [apply Qfloor_le|].
    rewrite <- (Qmult_1_l (inject_Z n)) at 2. by apply Qmult_lt_compat_r. }
  destruct (Z.ltb_spec (Qfloor (u * inject_Z n)) 0) as [?|_]; [lia|].
  destruct (lookup_lt_is_Some_2 pairs (Z.to_nat (Qfloor (u * inject_Z n))))
    as [p Hp]; [lia|].
  exists p. split; [done|]. by eapply list_elem_of_lookup_2.
Qed.

Lemma truthy_false (s : jsstring) : truthy s = false ↔ s = [].
Proof. by destruct s. Qed.

Lemma trimStart_nil (s : jsstring) :
  trimStart s = [] ↔ Forall (λ c, isSpace c = true) s.
Proof.
  induction s as [|c s IH]; simpl.
  - split; [constructor | done].
  - destruct (isSpace c) eqn:E.
    + rewrite IH. split; [by constructor | by inversion 1].
    + split; [done | inversion 1; congruence].
Qed.

Lemma trimStart_keeps (s : jsstring) :
  Forall (λ c, isSpace c = true) (trimStart s) → trimStart s = [].
Proof.
  induction s as [|c s IH]; simpl; [done|].
  destruct (isSpace c) eqn:E; [done|]. inversion 1; congruence.
Qed.

(** [trim] leaves nothing exactly of the strings made of white space. *)
Lemma trim_nil (s : jsstring) :
  trim s = [] ↔ Forall (λ c, isSpace c = true) s.
Proof.
  unfold trim, trimEnd. split.
  - intros H. apply trimStart_nil, trimStart_keeps.
    apply (f_equal (@rev N)) in H. rewrite rev_involutive in H. simpl in H.
    apply trimStart_nil in H. apply List.Forall_rev in H.
    by rewrite rev_involutive in H.
  - intros H%trimStart_nil. by rewrite H.
Qed.

Lemma consHead_pieces (c : N) (ps : list jsstring) (p : jsstring) :
  p ∈ consHead c ps → p = [c] ∨ (∃ q, q ∈ ps ∧ p = c :: q) ∨ p ∈ ps.
Proof.
  destruct ps as [|q ps]; simpl.
  - intros ->%list_elem_of_singleton. by left.
  - intros [->|H]%elem_of_cons.
    + right; left. exists q. split; [left | done].
    + right; right. by right.
Qed.

(** The fields of a line are made of units of the line. *)
Lemma splitChar_pieces (sep : N) (s p : jsstring) :
  p ∈ splitChar sep s → ∀ c, c ∈ p → c ∈ s.
Proof.
  revert p. induction s as [|x s IH]; simpl; intros p Hp c Hc.
  - apply list_elem_of_singleton in Hp. by subst.
  - destruct (x =? sep)%N.
    + apply elem_of_cons in Hp as [->|Hp]; [by apply not_elem_of_nil in Hc|].
      right. by eapply IH.
    + apply consHead_pieces in Hp as [->|[(q & Hq & ->)|Hp]].
      * apply list_elem_of_singleton in Hc as ->. left.
      * apply elem_of_cons in Hc as [->|Hc]; [left | right; by eapply IH].
      * right. by eapply IH.
Qed.

Lemma field_blank (i : nat) (line : jsstring) :
  trim line = [] → trim (field i line) = [].
Proof.
  rewrite !trim_nil, !Forall_forall. intros Hline c Hc. apply Hline.
  unfold field in Hc. destruct (splitChar TAB line !! i) as [p|] eqn:E; simpl in Hc.
  - eapply splitChar_pieces; [|done]. by eapply list_elem_of_lookup_2.
  - by apply not_elem_of_nil in Hc.
Qed.

(** A turn of the loop appends the accepted pair of its line, if any. *)
Lemma parseLine_accepted (result : list CorpusPair) (line : jsstring) :
  parseLine result line = result ++ option_list (acceptedPair line).
Proof.
  unfold parseLine, acceptedPair. fold (field 1 line) (field 3 line).
  set (enough := 4 <=? length (splitChar TAB line)).
  destruct (truthy (trim line)) eqn:Hblank; cbn [negb].
  - destruct enough, (truthy (trim (field 1 line))),
      (truthy (trim (field 3 line))); cbn; by rewrite ?app_nil_r.
  - apply truthy_false in Hblank.
    rewrite (field_blank 1 line Hblank).
    destruct enough; cbn; by rewrite ?app_nil_r.
Qed.

Lemma parseLoop_accepted (lines : list jsstring) (result : list CorpusPair) :
  fold_left parseLine lines result = result ++ omap acceptedPair lines.
Proof.
  revert result. induction lines as [|line lines IH]; intros result; simpl.
  - by rewrite app_nil_r.
  - rewrite IH, parseLine_accepted, <- app_assoc. f_equal.
    by destruct (acceptedPair line).
Qed.

(** C3.  For every input text, [parseCorpus] returns exactly the pairs of
    the trimmed fields 1 and 3 of those lines that have at least four
    tab-separated fields and whose fields 1 and 3 are not empty once
    trimmed, in the order of the lines; a line with fewer than four
    fields, a line with an empty required field and a blank line give
    nothing. *)
Theorem parseCorpus_accepts (tsv : jsstring) :
  parseCorpus tsv = omap acceptedPair (splitLines tsv)
  ∧ (∀ line, length (splitChar TAB line) < 4 → acceptedPair line = None)
  ∧ (∀ line, trim (field 1 line) = [] ∨ trim (field 3 line) = [] →
       acceptedPair line = None)
  ∧ (∀ line, trim line = [] → acceptedPair line = None)
  ∧ (∀ line, 4 ≤ length (splitChar TAB line) →
       trim (field 1 line) ≠ [] → trim (field 3 line) ≠ [] →
       acceptedPair line
       = Some {| eng := trim (field 1 line); jpn := trim (field 3 line) |}).
Proof.
  split; [|split; [|split; [|split]]].
  - unfold parseCorpus. by rewrite parseLoop_accepted.
  - intros line H. unfold acceptedPair.
    by rewrite (proj2 (Nat.leb_gt _ _) H).
  - intros line [H|H]; unfold acceptedPair; rewrite H; simpl;
      by rewrite ?andb_false_r.
  - intros line H. unfold acceptedPair. rewrite (field_blank 1 line H).
    simpl. by rewrite andb_false_r.
  - intros line Hn H1 H3. unfold acceptedPair.
    rewrite (proj2 (Nat.leb_le _ _) Hn).
    destruct (trim (field 1 line)); [done|].
    by destruct (trim (field 3 line)).
Qed.

Lemma parseCorpus_accepts_witness :
  parseCorpus sampleTsv = [helloPair; byePair]
  ∧ acceptedPair (units "bad" ++ [TAB] ++ units "line") = None
  ∧ acceptedPair (units "3" ++ [TAB] ++ units " " ++ [TAB] ++ units "4"
                    ++ [TAB] ++ units "x") = None
  ∧ acceptedPair (units " " ++ [TAB] ++ units " " ++ [TAB] ++ units " "
                    ++ [TAB] ++ units " ") = None
  ∧ acceptedPair (units "5" ++ [TAB] ++ units "Bye" ++ [TAB] ++ units "6"
                    ++ [TAB] ++ sayonara ++ [TAB] ++ units "extra")
    = Some byePair.
Proof.
  pose proof (parseCorpus_accepts sampleTsv) as (Hall & Hfew & Hempty & Hblank & Hok).
  split; [|split; [|split; [|split]]].
  - rewrite Hall. vm_compute. reflexivity.
  - apply Hfew. vm_compute. lia.
  - apply Hempty. left. vm_compute. reflexivity.
  - apply Hblank. vm_compute. reflexivity.
  - rewrite Hok; [reflexivity | vm_compute; lia | vm_compute; discriminate
                 | vm_compute; discriminate].
Defined.

(** ** Evaluator: tokens *)

(** Turns the tests of a character class into arithmetic and decides. *)
Ltac class_lia :=
  repeat match goal with
         | H : _ = true |- _ =>
             rewrite ?orb_true_iff, ?andb_true_iff, ?N.leb_le, ?N.eqb_eq,
               ?N.ltb_lt in H
         | H : _ = false |- _ =>
             rewrite ?orb_false_iff, ?andb_false_iff, ?N.leb_gt, ?N.eqb_neq,
               ?N.ltb_ge in H
         end;
  rewrite ?orb_true_iff, ?andb_true_iff, ?orb_false_iff, ?andb_false_iff,
    ?N.leb_le, ?N.eqb_eq, ?N.leb_gt, ?N.eqb_neq, ?N.ltb_lt, ?N.ltb_ge;
  lia.

Lemma splitSpaceFrom_cons (inRun : bool) (s : jsstring) :
  ∃ p ps, splitSpaceFrom inRun s = p :: ps.
Proof.
  revert inRun. induction s as [|c s IH]; intros inRun; simpl; [by eauto|].
  destruct (isSpace c).
  - destruct inRun; [apply IH | by eauto].
  - destruct (IH false) as (p & ps & ->). simpl. by eauto.
Qed.

Lemma map_consHead (g : jsstring → jsstring) (c : N) (ps : list jsstring) :
  (∀ p, g (c :: p) = g [c] ++ g p) → ps ≠ [] →
  map g (consHead c ps) = withHead (g [c]) (map g ps).
Proof. intros Hg Hps. destruct ps as [|p ps]; [done|]. simpl. by rewrite Hg. Qed.

Lemma withHead_withHead (cur cur' : jsstring) (ps : list jsstring) :
  ps ≠ [] → withHead cur (withHead cur' ps) = withHead (cur ++ cur') ps.
Proof. intros Hps. destruct ps as [|p ps]; [done|]. simpl. by rewrite app_assoc. Qed.

Lemma withHead_nil (ps : list jsstring) : ps ≠ [] → withHead [] ps = ps.
Proof. by destruct ps. Qed.

Lemma filter_truthy_cons (p : jsstring) (ps : list jsstring) :
  List.filter truthy (p :: ps) = emit p ++ List.filter truthy ps.
Proof. unfold emit. simpl. by destruct (truthy p). Qed.

Lemma splitSpaceFrom_map_ne (g : jsstring → jsstring) (inRun : bool) (s : jsstring) :
  map g (splitSpaceFrom inRun s) ≠ [].
Proof. by destruct (splitSpaceFrom_cons inRun s) as (p & ps & ->). Qed.

Section Tokens.

Variable lowerAt : jsstring → N → jsstring → jsstring.

(** The two facts about [toLowerCase] that the comparison uses, for a
    code unit [c] that is neither ASCII nor white space: what replaces it
    holds no white space, and the token characters among what replaces it
    are the same wherever it stands. *)
Hypothesis lowerAt_no_space : ∀ before c after,
  (128 <= c)%N → isSpace c = false →
  Forall (λ x, isSpace x = false) (lowerAt before c after).

Hypothesis lowerAt_kept : ∀ before after before' after' c,
  (128 <= c)%N → isSpace c = false →
  List.filter isTokenChar (lowerAt before c after)
  = List.filter isTokenChar (lowerAt before' c after').

(** What a unit contributes to its token. *)
Let kept (c : N) : jsstring := List.filter isTokenChar (lowerUnit lowerAt [] c []).

Lemma lowerUnit_kept (before after : jsstring) (c : N) :
  List.filter isTokenChar (lowerUnit lowerAt before c after) = kept c.
Proof.
  unfold kept, lowerUnit. destruct (c <? 128)%N eqn:E; [done|].
  destruct (isSpace c) eqn:Es; [done|].
  apply lowerAt_kept; [by apply N.ltb_ge | done].
Qed.

Lemma lowerUnit_space (before after : jsstring) (c : N) :
  isSpace c = true → lowerUnit lowerAt before c after = [c].
Proof.
  intros Hs. unfold lowerUnit. rewrite Hs.
  destruct (c <? 128)%N eqn:E; [|done]. f_equal. unfold asciiLower.
  destruct ((65 <=? c) && (c <=? 90))%N eqn:Eu; [|done].
  exfalso. unfold isSpace in Hs. class_lia.
Qed.

Lemma lowerUnit_no_space (before after : jsstring) (c : N) :
  isSpace c = false →
  Forall (λ x, isSpace x = false) (lowerUnit lowerAt before c after).
Proof.
  intros Hs. unfold lowerUnit. rewrite Hs.
  destruct (c <? 128)%N eqn:E.
  - constructor; [|constructor]. unfold asciiLower.
    destruct ((65 <=? c) && (c <=? 90))%N eqn:Eu; [|done].
    unfold isSpace in *. class_lia.
  - apply lowerAt_no_space; [by apply N.ltb_ge | done].
Qed.

Lemma kept_space (c : N) : isSpace c = true → kept c = [].
Proof.
  intros Hs. unfold kept. rewrite lowerUnit_space by done. simpl.
  replace (isTokenChar c) with false; [done|]. symmetry.
  unfold isSpace in Hs. unfold isTokenChar. class_lia.
Qed.

(** Lowering a chunk and keeping its token characters is the same as
    collecting what each of its units contributes. *)
Lemma lowerFrom_kept (before s : jsstring) :
  List.filter isTokenChar (lowerFrom lowerAt before s) = flat_map kept s.
Proof.
  revert before. induction s as [|c s IH]; intros before; simpl; [done|].
  by rewrite List.filter_app, lowerUnit_kept, IH.
Qed.

Lemma flat_map_kept_cons (c : N) (p : jsstring) :
  flat_map kept (c :: p) = flat_map kept [c] ++ flat_map kept p.
Proof. simpl. by rewrite app_nil_r. Qed.

Lemma filter_token_cons (c : N) (p : jsstring) :
  List.filter isTokenChar (c :: p)
  = List.filter isTokenChar [c] ++ List.filter isTokenChar p.
Proof. simpl. by destruct (isTokenChar c). Qed.

(** Splitting first: the pieces of the text, each turned into what its
    units contribute, are the tokens of the one-pass reading. *)
Lemma scan_split (s : jsstring) :
  (∀ cur, List.filter truthy
            (withHead cur (map (flat_map kept) (splitSpaceFrom false s)))
          = scanTokens kept cur s)
  ∧ List.filter truthy (map (flat_map kept) (splitSpaceFrom true s))
    = scanTokens kept [] s.
Proof.
  induction s as [|c s [IHf IHt]]; simpl.
  - split; [intros cur; by rewrite app_nil_r |done].
  - destruct (isSpace c) eqn:Hs.
    + split; [|done]. intros cur. cbn [map withHead].
      by rewrite app_nil_r, filter_truthy_cons, IHt.
    + assert (∀ cur, List.filter truthy
                (withHead cur (map (flat_map kept)
                   (consHead c (splitSpaceFrom false s))))
              = scanTokens kept (cur ++ kept c) s) as H.
      { intros cur. rewrite map_consHead.
        - rewrite withHead_withHead by apply splitSpaceFrom_map_ne.
          simpl. by rewrite app_nil_r, IHf.
        - apply flat_map_kept_cons.
        - by destruct (splitSpaceFrom_cons false s) as (p & ps & ->). }
      split; [done|]. specialize (H []).
      rewrite withHead_nil in H; [exact H|].
      by destruct (splitSpaceFrom_cons false s) as (p & ps & ->).
Qed.

(** Units without white space in front of a text stay in its first
    piece. *)
Lemma split_prefix (e : jsstring) :
  Forall (λ x, isSpace x = false) e →
  ∀ cur rest,
    withHead cur (map (List.filter isTokenChar)
                    (splitSpaceFrom false (e ++ rest)))
    = withHead (cur ++ List.filter isTokenChar e)
        (map (List.filter isTokenChar) (splitSpaceFrom false rest)).
Proof.
  induction 1 as [|x e Hx He IH]; intros cur rest.
  - by rewrite app_nil_r.
  - cbn [app splitSpaceFrom]. rewrite Hx, map_consHead.
    + rewrite withHead_withHead by apply splitSpaceFrom_map_ne.
      by rewrite IH, (filter_token_cons x e), !app_assoc.
    + apply filter_token_cons.
    + by destruct (splitSpaceFrom_cons false (e ++ rest)) as (p & ps & ->).
Qed.

(** Lowering first: the pieces of the lowered text, each reduced to its
    token characters, are the same tokens. *)
Lemma scan_lower (s : jsstring) :
  ∀ before,
    (∀ cur, List.filter truthy
              (withHead cur (map (List.filter isTokenChar)
                 (splitSpaceFrom false (lowerFrom lowerAt before s))))
            = scanTokens kept cur s)
    ∧ List.filter truthy
        (map (List.filter isTokenChar)
           (splitSpaceFrom true (lowerFrom lowerAt before s)))
      = scanTokens kept [] s.
Proof.
  induction s as [|c s IH]; intros before; cbn [lowerFrom scanTokens].
  - split; [intros cur; simpl; by rewrite app_nil_r | done].
  - destruct (IH (before ++ [c])) as [IHf IHt].
    destruct (isSpace c) eqn:Hs.
    + rewrite lowerUnit_space by done. cbn [app splitSpaceFrom]. rewrite Hs.
      split; [|done]. intros cur. cbn [map withHead].
      by rewrite app_nil_r, filter_truthy_cons, IHt.
    + pose proof (lowerUnit_no_space before s c Hs) as He.
      pose proof (lowerUnit_kept before s c) as Hk.
      set (e := lowerUnit lowerAt before c s) in *.
      split.
      * intros cur. by rewrite split_prefix, Hk, IHf.
      * destruct e as [|x e'] eqn:Ee.
        -- simpl in Hk. rewrite <- Hk, app_nil_r. exact IHt.
        -- replace (splitSpaceFrom true ((x :: e') ++ lowerFrom lowerAt (before ++ [c]) s))
             with (splitSpaceFrom false ((x :: e') ++ lowerFrom lowerAt (before ++ [c]) s)).
           2:{ cbn [app splitSpaceFrom]. inversion He as [|? ? Hx]; by rewrite Hx. }
           rewrite <- (withHead_nil (map _ _)) by apply splitSpaceFrom_map_ne.
           by rewrite split_prefix, Hk, IHf.
Qed.

(** The tokens of the code and the tokens of the specification. *)
Lemma tokenize_tokenizeSpec (text : jsstring) :
  tokenize lowerAt text = tokenizeSpec lowerAt text.
Proof.
  transitivity (scanTokens kept [] text).
  - unfold tokenize, splitSpace, toLowerCase.
    rewrite <- (withHead_nil (map _ _)) by apply splitSpaceFrom_map_ne.
    apply scan_lower.
  - unfold tokenizeSpec, splitSpace, toLowerCase.
    rewrite (map_ext _ (flat_map kept)) by (intros; apply lowerFrom_kept).
    rewrite <- (withHead_nil (map _ _)) by apply splitSpaceFrom_map_ne.
    symmetry. apply scan_split.
Qed.

End Tokens.

(** The two instances of [lowerAt] meet the two facts. *)
Lemma keepUnit_lawful :
  (∀ before c after, (128 <= c)%N → isSpace c = false →
     Forall (λ x, isSpace x = false) (keepUnit before c after))
  ∧ (∀ before after before' after' c, (128 <= c)%N → isSpace c = false →
       List.filter isTokenChar (keepUnit before c after)
       = List.filter isTokenChar (keepUnit before' c after')).
Proof. split; [intros; by repeat constructor | done]. Qed.

Lemma lowerSample_no_space (before : jsstring) (c : N) (after : jsstring) :
  (128 <= c)%N → isSpace c = false →
  Forall (λ x, isSpace x = false) (lowerSample before c after).
Proof.
  intros Hc Hs. unfold lowerSample.
  repeat match goal with
         | |- context [if ?b then _ else _] => destruct b eqn:?
         end;
    repeat constructor; try done; unfold isSpace in *; class_lia.
Qed.

Lemma lowerSample_kept (before after before' after' : jsstring) (c : N) :
  (128 <= c)%N → isSpace c = false →
  List.filter isTokenChar (lowerSample before c after)
  = List.filter isTokenChar (lowerSample before' c after').
Proof.
  intros Hc Hs. unfold lowerSample.
  destruct (c =? 8490)%N; [done|]. destruct (c =? 304)%N; [done|].
  destruct (c =? 931)%N; [|done].
  by destruct (endsWord after && negb (startsWord before)),
       (endsWord after' && negb (startsWord before')).
Qed.

(** C7.  For every input text, [tokenize] gives what the specification
    describes: the text is split on runs of white space, each chunk is
    lowered, every character that is not an ASCII letter, an apostrophe or
    the right single quotation mark is removed from it, and the chunks
    left empty are dropped; the sentence It's a test. gives the tokens
    it's, a and test.  The code lowers the whole text before splitting
    it; the two orders agree because, outside ASCII and white space,
    [toLowerCase] brings in no white space and the token characters it
    brings in do not depend on the surrounding text. *)
Theorem tokenize_splits_lowers_strips
    (lowerAt : jsstring → N → jsstring → jsstring)
    (no_space : ∀ before c after,
        (128 <= c)%N → isSpace c = false →
        Forall (λ x, isSpace x = false) (lowerAt before c after))
    (kept_anywhere : ∀ before after before' after' c,
        (128 <= c)%N → isSpace c = false →
        List.filter isTokenChar (lowerAt before c after)
        = List.filter isTokenChar (lowerAt before' c after'))
    (text : jsstring) :
  tokenize lowerAt text = tokenizeSpec lowerAt text
  ∧ tokenize lowerAt (units "It's a test.")
    = [units "it's"; units "a"; units "test"].
Proof.
  split; [by apply tokenize_tokenizeSpec | reflexivity].
Qed.

(** The same at a text with leading, doubled and trailing white space
    (a no-break space among it), capitals, the right single quotation
    mark, a full stop, a capital of Latin-1, the Kelvin sign and a Greek
    word that ends in sigma. *)
Lemma tokenize_splits_lowers_strips_witness :
  tokenize lowerSample
    (units "  It" ++ [8217%N] ++ units "s " ++ [160%N] ++ units " a TEST. Caf"
       ++ [201%N] ++ units " 3" ++ [8490%N] ++ units " " ++ [927; 931]%N
       ++ units " ")
  = [units "it" ++ [8217%N] ++ units "s"; units "a"; units "test"; units "caf";
     units "k"].
Proof.
  rewrite (proj1 (tokenize_splits_lowers_strips lowerSample
                    lowerSample_no_space lowerSample_kept _)).
  vm_compute. reflexivity.
Defined.

(** ** GrammarChecker *)

(** C5, at the input where the code departs from it.  When [fetch]
    rejects, no response having arrived, [checkGrammar] raises to its
    caller, whatever the sentence and in both adapters, where for a
    response that is not a success it returns the diagnostic; it raises as
    well when the body of a success response does not parse.  The
    [handleCheck] of the earlier component catches what is raised: it
    shows the message as a warning and clears the checking flag.  The
    [handleCheck] of the animated component has no handler: the session
    is left as it was, with the checking flag set, and a submit by the
    key or by the button does nothing. *)
Theorem checkGrammar_raises_offline :
  (∀ sentence,
     checkGrammar offline sentence = Throws NetworkError
     ∧ Legacy.checkGrammar offline sentence = Throws NetworkError)
  ∧ ¬ (∀ fetch sentence, ∃ msgs, checkGrammar fetch sentence = Returns msgs)
  ∧ (∀ sentence,
       checkGrammar
         (answering {| status := 503; statusText := units "Service Unavailable";
                       body := BodyInvalid |})
         sentence
       = Returns [httpErrorPrefix ++ units "503"])
  ∧ (∀ sentence,
       checkGrammar
         (answering {| status := 200; statusText := units "OK";
                       body := BodyInvalid |})
         sentence
       = Throws BodySyntaxError)
  ∧ (∀ w u,
       let stuck :=
         handleCheckSettle w (checkGrammar offline (units "hello")) u
           (session submittedConfig) in
       stuck = session submittedConfig
       ∧ checking stuck = true
       ∧ dispatch keepUnit CtrlEnter stuck = (stuck, None)
       ∧ dispatch keepUnit ClickSubmit stuck = (stuck, None))
  ∧ (∀ w u,
       let caught :=
         Earlier.handleCheckSettle browserMessage w
           (Legacy.checkGrammar offline (units "hello")) u
           (Earlier.session earlierSubmitted) in
       Earlier.checking caught = false
       ∧ Earlier.generalError caught
         = Some (Earlier.grammarErrorPrefix ++ units "Failed to fetch")
       ∧ Earlier.current caught = Some helloPair
       ∧ Earlier.userAnswer caught = units "hello").
Proof.
  split; [done|].
  split; [|split; [intros; by vm_compute|split; [done|split]]].
  - intros H. destruct (H offline (units "hello")) as [msgs Hm]. discriminate.
  - intros w u. by vm_compute.
  - intros w u. by vm_compute.
Qed.

(** What [checkGrammar] does with each outcome of the exchange, in both
    adapters.  A response that is not a success makes it return one
    string, the diagnostic with the decimal status in it; a success
    response whose body parses makes it return; it raises when no
    response arrives and when the body of a success response does not
    parse. *)
Lemma checkGrammar_failures (fetch : Request → FetchOutcome)
    (sentence : jsstring) :
  (∀ res, fetch (grammarRequest sentence) = Resolved res → ok res = false →
     checkGrammar fetch sentence
     = Returns [httpErrorPrefix ++ decimal (status res)]
     ∧ Legacy.checkGrammar fetch sentence
       = Returns [httpErrorPrefix ++ decimal (status res) ++ units " "
                    ++ statusText res])
  ∧ (∀ res json, fetch (grammarRequest sentence) = Resolved res →
       ok res = true → body res = BodyJson json →
       (∃ msgs, checkGrammar fetch sentence = Returns msgs)
       ∧ (∃ msgs, Legacy.checkGrammar fetch sentence = Returns msgs))
  ∧ (fetch (grammarRequest sentence) = Rejected →
       checkGrammar fetch sentence = Throws NetworkError
       ∧ Legacy.checkGrammar fetch sentence = Throws NetworkError)
  ∧ (∀ res, fetch (grammarRequest sentence) = Resolved res →
       ok res = true → body res = BodyInvalid →
       checkGrammar fetch sentence = Throws BodySyntaxError
       ∧ Legacy.checkGrammar fetch sentence = Throws BodySyntaxError).
Proof.
  unfold checkGrammar, Legacy.checkGrammar.
  split; [|split; [|split]].
  - intros res -> Hok. by rewrite Hok.
  - intros res json -> Hok ->. rewrite Hok. simpl.
    split; [|by eauto]. destruct (length (matches json) =? 0); by eauto.
  - by intros ->.
  - intros res -> Hok ->. by rewrite Hok.
Qed.

Lemma checkGrammar_failures_witness :
  checkGrammar
    (answering {| status := 503; statusText := units "Service Unavailable";
                  body := BodyInvalid |})
    (units "hello")
  = Returns [httpErrorPrefix ++ units "503"]
  ∧ (∃ msgs,
       checkGrammar
         (answering {| status := 200; statusText := units "OK";
                       body := BodyJson {| matches := [] |} |})
         (units "hello")
       = Returns msgs)
  ∧ checkGrammar offline (units "hello") = Throws NetworkError
  ∧ checkGrammar
      (answering {| status := 200; statusText := units "OK";
                    body := BodyInvalid |})
      (units "hello")
    = Throws BodySyntaxError.
Proof.
  split; [|split; [|split]].
  - rewrite (proj1 (proj1 (checkGrammar_failures
                             (answering {| status := 503;
                                           statusText := units "Service Unavailable";
                                           body := BodyInvalid |})
                             (units "hello")) _ eq_refl eq_refl)).
    vm_compute. reflexivity.
  - eapply (proj1 (proj2 (checkGrammar_failures _ (units "hello")))); reflexivity.
  - apply (proj1 (proj2 (proj2 (checkGrammar_failures offline (units "hello"))))).
    reflexivity.
  - eapply (proj2 (proj2 (proj2 (checkGrammar_failures _ (units "hello")))));
      reflexivity.
Defined.

Lemma truthy_suggestion (v : jsstring) :
  truthy (Legacy.suggestionPrefix ++ v) = true.
Proof. reflexivity. Qed.

Lemma pushMatch_lines (result : list jsstring) (i : nat) (m : LTMatch) :
  Legacy.pushMatch result (i, m) = result ++ legacyLines i m.
Proof.
  unfold Legacy.pushMatch, legacyLines, indexed.
  destruct (replacements m) as [|r rs]; [done|].
  by rewrite truthy_suggestion, <- app_assoc.
Qed.

(** The [forEach] of the earlier adapter pushes, finding after finding,
    the lines of each. *)
Lemma forEach_lines (ms : list LTMatch) (k : nat) (result : list jsstring) :
  fold_left Legacy.pushMatch (imap (λ i m, (k + i, m)) ms) result
  = result ++ concat (imap (λ i, legacyLines (k + i)) ms).
Proof.
  revert k result. induction ms as [|m ms IH]; intros k result;
    cbn [imap fold_left concat].
  - by rewrite app_nil_r.
  - rewrite pushMatch_lines.
    rewrite (imap_ext _ (λ i m, (S k + i, m))) by (intros; simpl; f_equal; lia).
    rewrite IH, <- app_assoc. do 3 f_equal.
    apply imap_ext. intros. simpl. f_equal. lia.
Qed.

Lemma formatMatches_lines (ms : list LTMatch) :
  ms ≠ [] → Legacy.formatMatches ms = concat (imap legacyLines ms).
Proof.
  intros Hne. unfold Legacy.formatMatches.
  destruct ms as [|m ms]; [done|]. cbn [length Nat.eqb].
  exact (forEach_lines (m :: ms) 0 []).
Qed.

Lemma legacyLines_count (ms : list LTMatch) (k : nat) :
  length (concat (imap (λ i, legacyLines (k + i)) ms))
  = length ms + length (filter (λ m, replacements m ≠ []) ms).
Proof.
  revert k. induction ms as [|m ms IH]; intros k; [done|].
  cbn [imap concat]. rewrite length_app, filter_cons.
  rewrite (imap_ext _ (λ i, legacyLines (S k + i)))
    by (intros; simpl; f_equal; lia).
  rewrite IH. unfold legacyLines.
  destruct (replacements m); case_decide; cbn [length]; try done; lia.
Qed.

(** Counterexample to C6 as stated (exactly N strings): on a success
    response with one finding that has a suggestion, the earlier adapter
    returns two strings. *)
Lemma formatMatches_two_strings :
  Legacy.checkGrammar (answering (successWith [findingAn])) (units "a apple")
  = Returns [units "1. Use an"; Legacy.suggestionPrefix ++ units "an"]
  ∧ ¬ (∃ out, Legacy.checkGrammar (answering (successWith [findingAn]))
                (units "a apple") = Returns out
              ∧ length out = 1).
Proof.
  split; [by vm_compute|]. intros (out & Hout & Hlen).
  vm_compute in Hout. injection Hout as <-. discriminate.
Qed.

(** What the current adapter does with a first suggestion that is the
    empty string: the test of [sug] is a test of truthiness, so the
    finding is formatted as if it had no suggestion. *)
Lemma formatMatch_empty_suggestion :
  checkGrammar (answering (successWith [findingDelete])) (units "the the")
  = Returns [units "1. Remove the repeated word"].
Proof. by vm_compute. Qed.

(** C6, amended.  For every success response with N >= 1 findings: the
    current [checkGrammar] returns exactly N strings, the i-th being the
    1-based index, a full stop and a space, and the message of the i-th
    finding, followed, when the first suggestion of the finding has a
    non-empty value, by the arrow separator and that value, and by nothing
    otherwise, that is, when the finding has no suggestion and when the
    value of its first suggestion is the empty string; the earlier adapter
    returns, for each finding in order, the indexed message and, when the
    finding has a suggestion, a second string with the first suggestion,
    which makes N strings plus one per finding with a suggestion. *)
Theorem checkGrammar_findings (fetch : Request → FetchOutcome)
    (sentence : jsstring) (res : Response) (json : LTResponse) :
  fetch (grammarRequest sentence) = Resolved res →
  ok res = true → body res = BodyJson json → matches json ≠ [] →
  (∃ out, checkGrammar fetch sentence = Returns out
     ∧ length out = length (matches json)
     ∧ ∀ i m, matches json !! i = Some m →
         (replacements m = [] → out !! i = Some (indexed i m))
         ∧ (∀ r rs, replacements m = r :: rs → value r ≠ [] →
              out !! i = Some (indexed i m ++ arrow ++ value r))
         ∧ (∀ r rs, replacements m = r :: rs → value r = [] →
              out !! i = Some (indexed i m)))
  ∧ Legacy.checkGrammar fetch sentence
    = Returns (concat (imap legacyLines (matches json)))
  ∧ length (concat (imap legacyLines (matches json)))
    = length (matches json)
      + length (filter (λ m, replacements m ≠ []) (matches json)).
Proof.
  intros Hfetch Hok Hbody Hne.
  unfold checkGrammar, Legacy.checkGrammar. rewrite Hfetch, Hok, Hbody.
  cbn [negb]. split; [|split].
  - destruct (length (matches json) =? 0) eqn:E.
    { apply Nat.eqb_eq in E. by destruct (matches json). }
    eexists. split; [done|]. split; [by rewrite length_imap|].
    intros i m Hm. rewrite list_lookup_imap, Hm. simpl.
    unfold formatMatch. fold (indexed i m). split; [|split].
    + by intros ->.
    + intros r rs -> Hv. simpl. by destruct (value r).
    + intros r rs -> Hv. simpl. by rewrite Hv.
  - by rewrite formatMatches_lines.
  - exact (legacyLines_count (matches json) 0).
Qed.

Lemma checkGrammar_findings_witness :
  checkGrammar
    (answering (successWith [findingAn; findingPlain; findingDelete]))
    (units "a apple")
  = Returns [units "1. Use an" ++ arrow ++ units "an";
             units "2. Sentence is too long";
             units "3. Remove the repeated word"]
  ∧ Legacy.checkGrammar
      (answering (successWith [findingAn; findingPlain; findingDelete]))
      (units "a apple")
    = Returns [units "1. Use an"; Legacy.suggestionPrefix ++ units "an";
               units "2. Sentence is too long";
               units "3. Remove the repeated word"; Legacy.suggestionPrefix].
Proof.
  destruct (checkGrammar_findings
              (answering (successWith [findingAn; findingPlain; findingDelete]))
              (units "a apple")
              (successWith [findingAn; findingPlain; findingDelete])
              {| matches := [findingAn; findingPlain; findingDelete] |}
              eq_refl eq_refl eq_refl ltac:(discriminate))
    as ((out & Hout & Hlen & Heach) & Hlegacy & _).
  split.
  - rewrite Hout. f_equal.
    destruct out as [|o1 [|o2 [|o3 [|]]]]; try discriminate Hlen.
    pose proof (proj1 (proj2 (Heach 0 findingAn eq_refl)) _ _ eq_refl
                  ltac:(discriminate)) as H1.
    pose proof (proj1 (Heach 1 findingPlain eq_refl) eq_refl) as H2.
    pose proof (proj2 (proj2 (Heach 2 findingDelete eq_refl)) _ _ eq_refl
                  eq_refl) as H3.
    injection H1 as ->. injection H2 as ->. injection H3 as ->.
    vm_compute. reflexivity.
  - rewrite Hlegacy. vm_compute. reflexivity.
Defined.

(** ** SessionController *)

Lemma pickNextQuestion_empty (u : Q) : pickNextQuestion u [] = None.
Proof. reflexivity. Qed.

Lemma setChecking_restore (s : AppState) :
  checking s = false → setChecking false (setChecking true s) = s.
Proof. destruct s. simpl. by intros ->. Qed.

(** In the animated component a submit, by the key or by the button, does
    nothing while a check is outstanding or a transition runs, and
    nothing on a blank answer. *)
Lemma dispatch_gated (lowerAt : jsstring → N → jsstring → jsstring)
    (e : UiEvent) (s : AppState) :
  e = CtrlEnter ∨ e = ClickSubmit →
  checking s = true ∨ animating s = true ∨ trim (userAnswer s) = [] →
  dispatch lowerAt e s = (s, None).
Proof.
  intros He Hs. unfold dispatch, interactiveShown, handleCheck.
  destruct (animating s) eqn:Ea; [by rewrite andb_false_r|].
  destruct (negb _); [done|].
  destruct (checking s) eqn:Ec; [by destruct He as [->| ->]|].
  destruct Hs as [?|[?|Hb]]; try done. rewrite Hb.
  destruct He as [->| ->]; simpl; by destruct (frame s).
Qed.

Lemma load_not_animating (txt : jsstring) (u : Q) :
  animating (load txt u initialState) = false
  ∧ checking (load txt u initialState) = false.
Proof. unfold load. by destruct (randomPair u (parseCorpus txt)). Qed.

Lemma oneCycle_loaded (txt : jsstring) (u : Q) : oneCycle (loaded txt u).
Proof.
  destruct (load_not_animating txt u) as [Ha Hc].
  unfold oneCycle, loaded. cbn [session awaited timeline length].
  rewrite Ha. repeat split; (done || lia).
Qed.

(** What a dispatched event can do to the session: nothing; or start a
    check, from a session that was neither checking nor animating; or
    change the input buffer. *)
Lemma dispatch_cases (lowerAt : jsstring → N → jsstring → jsstring)
    (e : UiEvent) (s s' : AppState) (ow : option Awaiting) :
  dispatch lowerAt e s = (s', ow) →
  (s' = s ∧ ow = None)
  ∨ (s' = setChecking true s ∧ is_Some ow
     ∧ checking s = false ∧ animating s = false)
  ∨ (∃ v, s' = setUserAnswer v s ∧ ow = None).
Proof.
  unfold dispatch, interactiveShown, handleCheck. intros H.
  destruct (animating s) eqn:Ea.
  { rewrite andb_false_r in H. injection H as <- <-. by left. }
  destruct (negb _); [injection H as <- <-; by left|].
  destruct e as [| |v].
  - destruct (checking s) eqn:Ec; [injection H as <- <-; by left|].
    destruct (frame s); [|injection H as <- <-; by left].
    destruct (negb (truthy _)); injection H as <- <-; [by left|].
    right; left. by eauto.
  - destruct (checking s) eqn:Ec; [injection H as <- <-; by left|].
    destruct (frame s); [|injection H as <- <-; by left].
    destruct (negb (truthy _)); injection H as <- <-; [by left|].
    right; left. by eauto.
  - injection H as <- <-. right; right. by eauto.
Qed.

(** Splits an instance of [oneCycle] and closes its parts. *)
Ltac cycle_solve :=
  repeat match goal with
         | |- _ ∧ _ => split
         | |- ∀ _, _ => intros ?
         end;
  simplify_eq/=; try done; try lia; eauto.

(** Every step keeps at most one cycle in flight. *)
Lemma oneCycle_step (lowerAt : jsstring → N → jsstring → jsstring)
    (c c' : Config) :
  oneCycle c → step lowerAt c c' → oneCycle c'.
Proof.
  intros (Hlen & Hwait & Hanim & Htl) Hstep.
  assert (Hidle : animating (session c) = false → timeline c = None).
  { intros Ha. destruct (timeline c) as [tl|] eqn:E; [|done].
    destruct (Htl tl eq_refl) as [Ha' _]. congruence. }
  destruct Hstep as [c e s' ow Hd|c before w after outcome u Haw Hu0 Hu1
                    |c h s' d' tl Ha Hnone Heff|c tl s' d' Hsome Hdone];
    unfold oneCycle; cbn [session awaited timeline].
  - apply dispatch_cases in Hd as [[-> ->]|[(-> & [w ->] & Hc & Ha)|(v & -> & ->)]].
    + by rewrite app_nil_r.
    + assert (awaited c = []) as Hnil.
      { destruct (awaited c) eqn:E; [done|].
        destruct Hwait as [Hc' _]; [done|]. congruence. }
      rewrite Hnil, (Hidle Ha). cbn. rewrite Ha.
      cycle_solve.
    + by rewrite app_nil_r.
  - assert (before = [] ∧ after = []) as [-> ->].
    { rewrite Haw, length_app in Hlen. cbn in Hlen.
      destruct before, after; cbn in Hlen; (done || lia). }
    destruct Hwait as [Hc Ha]; [by rewrite Haw|].
    rewrite (Hidle Ha). cbn [app length].
    destruct outcome as [msgs|err]; cbn [handleCheckSettle].
    + unfold handleCheckResume.
      destruct (pickNextQuestion u (heldCorpus w)); cbn.
      * rewrite Hc. cycle_solve.
      * rewrite Ha. cycle_solve.
    + rewrite Ha, Hc. cycle_solve.
  - destruct (Hanim Ha) as (Hc & Hnil & [f Hf] & [t Ht]).
    unfold layoutEffect in Heff. rewrite Ha, Hf, Ht in Heff. cbn in Heff.
    rewrite Hnil. destruct (h =? 0)%N; injection Heff as <- <- <-; cbn.
    + cycle_solve.
    + rewrite Ha, Hc, Hf, Ht.
      cycle_solve.
  - destruct (Htl tl Hsome) as [Ha Hto].
    destruct (Hanim Ha) as (Hc & Hnil & _).
    unfold onComplete in Hdone. injection Hdone as <- <-. cbn.
    rewrite Hnil. cycle_solve.
Qed.

(** From the loading of the corpus on, the animated component never has
    more than one cycle in flight. *)
Lemma oneCycle_reachable (lowerAt : jsstring → N → jsstring → jsstring)
    (txt : jsstring) (u : Q) (c : Config) :
  rtc (step lowerAt) (loaded txt u) c → oneCycle c.
Proof.
  revert c. apply rtc_ind_r.
  - apply oneCycle_loaded.
  - intros c c' _ Hstep IH. by eapply oneCycle_step.
Qed.

(** C8.  When the grammar check of a submit made in the READY state has
    returned and the corpus has no pair to sample, the second half of
    [handleCheck] only clears the checking flag of the session it finds:
    the frame stays, no result and no transition pair is stored, and, if
    nothing else happened in between, the session is again the one the
    submit started from. *)
Theorem sampling_failure_aborts (lowerAt : jsstring → N → jsstring → jsstring)
    (s s1 : AppState) (w : Awaiting) (msgs : list jsstring) (u : Q) :
  checking s = false →
  corpus s = [] →
  handleCheck lowerAt s = (s1, Some w) →
  (∀ s', handleCheckSettle w (Returns msgs) u s' = setChecking false s')
  ∧ checking s1 = true
  ∧ handleCheckSettle w (Returns msgs) u s1 = s
  ∧ frame (handleCheckSettle w (Returns msgs) u s1) = frame s
  ∧ checking (handleCheckSettle w (Returns msgs) u s1) = false
  ∧ animTo (handleCheckSettle w (Returns msgs) u s1) = animTo s
  ∧ animating (handleCheckSettle w (Returns msgs) u s1) = animating s.
Proof.
  intros Hc Hcorp Hstart. unfold handleCheck in Hstart.
  destruct (frame s) as [f|] eqn:Hf; [|done].
  destruct (negb (truthy (trim (userAnswer s)))); [done|].
  injection Hstart as <- <-.
  assert (∀ s', handleCheckSettle
                  {| heldFrame := f; heldCorpus := corpus (setChecking true s);
                     heldAnswer := userAnswer (setChecking true s);
                     heldEval := evaluateAnswer lowerAt (eng (current f))
                                   (userAnswer (setChecking true s)) |}
                  (Returns msgs) u s' = setChecking false s') as Hsettle.
  { intros s'. unfold handleCheckSettle, handleCheckResume. simpl.
    by rewrite Hcorp. }
  split; [exact Hsettle|]. split; [done|].
  rewrite Hsettle, setChecking_restore by done. by rewrite Hc.
Qed.

Lemma sampling_failure_aborts_witness :
  handleCheckSettle
    {| heldFrame := welcomeFrame; heldCorpus := []; heldAnswer := units "hello";
       heldEval := exactText |}
    (Returns [noIssues]) (1 # 2) (setChecking true strandedState)
  = strandedState.
Proof.
  apply (proj1 (proj2 (proj2 (sampling_failure_aborts keepUnit strandedState
           (setChecking true strandedState) _ [noIssues] (1 # 2)
           eq_refl eq_refl eq_refl)))).
Defined.

(** ** TransitionAnimator *)

(** C9.  For a session in a transition from one frame to another, the
    layout effect with an unmeasurable (zero) height and the layout effect
    with a measured height followed by the completion of its timeline end
    in the same session: the current frame is the frame the transition
    leads to, the input buffer is empty, the checking flag and the
    animating flag are cleared and the pending pair is cleared.  The
    first commits at once and schedules nothing; the second leaves the
    session as it is until the timeline completes. *)
Theorem fallback_commits_like_timed (s : AppState) (d : Dom)
    (fromFrame toFrame : FrameState) (h : N) :
  animating s = true →
  animFrom s = Some fromFrame →
  animTo s = Some toFrame →
  h ≠ 0%N →
  let fallback := layoutEffect true 0 s d in
  let timed := layoutEffect true h s d in
  fallback.2 = None
  ∧ timed.1.1 = s
  ∧ (∃ tl, timed.2 = Some tl
       ∧ (onComplete tl timed.1.1 timed.1.2).1 = fallback.1.1
       ∧ (d = cleanDom → (onComplete tl timed.1.1 timed.1.2).2 = fallback.1.2))
  ∧ frame fallback.1.1 = Some toFrame
  ∧ userAnswer fallback.1.1 = []
  ∧ checking fallback.1.1 = false
  ∧ animating fallback.1.1 = false
  ∧ animFrom fallback.1.1 = None
  ∧ animTo fallback.1.1 = None
  ∧ corpus fallback.1.1 = corpus s.
Proof.
  intros Ha Hfrom Hto Hh. unfold layoutEffect. rewrite Ha, Hfrom, Hto.
  apply N.eqb_neq in Hh. rewrite Hh. simpl.
  repeat split. eexists. repeat split. by intros ->.
Qed.

Lemma fallback_commits_like_timed_witness :
  (layoutEffect true 0 transitioningState cleanDom).1
  = onComplete {| tlTo := nextFrame; tlTarget := (-480)%Z |}
      transitioningState {| viewportHeight := Some 480%N; stripY := Some 0%Z |}
  ∧ frame (layoutEffect true 0 transitioningState cleanDom).1.1 = Some nextFrame.
Proof.
  destruct (fallback_commits_like_timed transitioningState cleanDom
              welcomeFrame nextFrame 480 eq_refl eq_refl eq_refl
              ltac:(discriminate))
    as (_ & _ & (tl & Htl & Hstate & Hdom) & Hframe & _).
  split; [|exact Hframe].
  injection Htl as <-.
  rewrite (surjective_pairing (layoutEffect true 0 transitioningState cleanDom).1).
  rewrite <- Hstate, <- (Hdom eq_refl). reflexivity.
Defined.

(** ** The keyboard shortcut of [src/App.tsx] *)

(** In the component of [src/App.tsx] the key handler starts a check
    whatever the checking flag is, where the button starts none while the
    flag is set. *)
Lemma key_not_gated (lowerAt : jsstring → N → jsstring → jsstring)
    (s : AppTsx.State) (c : CorpusPair) :
  AppTsx.loading s = false → AppTsx.current s = Some c →
  trim (AppTsx.userAnswer s) ≠ [] →
  (∃ w, AppTsx.dispatch lowerAt CtrlEnter s = (AppTsx.setChecking true s, Some w))
  ∧ (AppTsx.checking s = true →
       AppTsx.dispatch lowerAt ClickSubmit s = (s, None)).
Proof.
  intros Hl Hc Hb. unfold AppTsx.dispatch, AppTsx.mainShown, AppTsx.handleCheck.
  rewrite Hl, Hc. cbn [negb andb].
  rewrite bool_decide_eq_true_2 by eauto. cbn [negb].
  destruct (trim (AppTsx.userAnswer s)) eqn:E; [done|]. cbn [truthy negb].
  split; [by eauto | by intros ->].
Qed.

(** In the component of [src/App.tsx] two checks can be awaited at once:
    the second Ctrl+Enter goes through. *)
Lemma two_in_flight :
  ∃ c, rtc (AppTsx.step keepUnit)
         {| AppTsx.session := idleState; AppTsx.awaited := [] |} c
       ∧ length (AppTsx.awaited c) = 2.
Proof.
  eexists. split.
  - eapply rtc_l; [by eapply (AppTsx.step_event _ _ CtrlEnter)|].
    eapply rtc_l; [by eapply (AppTsx.step_event _ _ CtrlEnter)|].
    apply rtc_refl.
  - reflexivity.
Qed.

(** C2, at the input where the code departs from it.  In the component of
    [src/App.tsx], Ctrl+Enter while a check is outstanding is not
    ignored: [handleCheck] runs again and a second check is awaited, and
    when that one returns the current pair is replaced, the input buffer
    is emptied, the checking flag is cleared and a result is stored, all
    while the first check is still outstanding.  The button of the same
    component, being disabled, does ignore the click. *)
Theorem ctrlEnter_while_checking :
  ∃ w, AppTsx.dispatch keepUnit CtrlEnter checkingState = (checkingState, Some w)
    ∧ AppTsx.heldAnswer w = units "hello"
    ∧ AppTsx.current (AppTsx.handleCheckResume w [noIssues] (1 # 2) checkingState)
      = Some byePair
    ∧ AppTsx.userAnswer (AppTsx.handleCheckResume w [noIssues] (1 # 2) checkingState)
      = []
    ∧ AppTsx.checking (AppTsx.handleCheckResume w [noIssues] (1 # 2) checkingState)
      = false
    ∧ AppTsx.handleCheckResume w [noIssues] (1 # 2) checkingState ≠ checkingState
    ∧ AppTsx.dispatch keepUnit ClickSubmit checkingState = (checkingState, None).
Proof.
  eexists. split; [reflexivity|]. by vm_compute.
Qed.

(** ** One whole cycle *)

(** The scenario of the specification: a corpus of the one pair
    (Hello, konnichiwa), the answer hello, a grammar check without
    findings and an unmeasurable frame.  The session goes from its first
    render to READY, to CHECKING, to TRANSITIONING and back to READY on a
    frame whose result carries the message of EXACT. *)
Lemma one_cycle :
  let tsv := units "1" ++ [TAB] ++ units "Hello" ++ [TAB] ++ units "2"
               ++ [TAB] ++ konnichiwa in
  let ready := load tsv (1 # 3) initialState in
  let typed := (dispatch keepUnit (ChangeAnswer (units "hello")) ready).1 in
  let submitted := dispatch keepUnit CtrlEnter typed in
  ∃ w, submitted.2 = Some w
    ∧ checking submitted.1 = true
    ∧ dispatch keepUnit CtrlEnter submitted.1 = (submitted.1, None)
    ∧ let outcome := checkGrammar (answering (successWith [])) (heldAnswer w) in
      let moving := handleCheckSettle w outcome (2 # 3) submitted.1 in
      outcome = Returns [noIssues]
      ∧ animating moving = true
      ∧ dispatch keepUnit ClickSubmit moving = (moving, None)
      ∧ let final := (layoutEffect true 0 moving cleanDom).1.1 in
        frame final
        = Some {| lastResult :=
                    Some {| lastJpn := konnichiwa; lastEng := units "Hello";
                            lastUserAnswer := units "hello";
                            evalText := displayMessage EXACT;
                            grammarMessages := [noIssues] |};
                  current := helloPair |}
        ∧ userAnswer final = [] ∧ checking final = false
        ∧ animating final = false.
Proof. eexists. split; [reflexivity|]. by vm_compute. Qed.

(** ** JavaScript strings: [trim] *)

Lemma trimStart_idemp (s : jsstring) : trimStart (trimStart s) = trimStart s.
Proof.
  induction s as [|c s IH]; [done|]. simpl.
  destruct (isSpace c) eqn:E; [done|]. simpl. by rewrite E.
Qed.

Lemma trimStart_head (s r : jsstring) (c : N) :
  trimStart s = c :: r → isSpace c = false.
Proof.
  induction s as [|x s IH]; [done|]. simpl.
  destruct (isSpace x) eqn:E; [done|]. by intros [= <- _].
Qed.

Lemma trimStart_fixed (s : jsstring) :
  (∀ c r, s = c :: r → isSpace c = false) → trimStart s = s.
Proof.
  destruct s as [|c s]; [done|]. intros H. simpl. by rewrite (H c s eq_refl).
Qed.

Lemma trimStart_suffix (s : jsstring) : ∃ a, s = a ++ trimStart s.
Proof.
  induction s as [|c s [a IH]]; [by exists []|]. simpl.
  destruct (isSpace c); [|by exists []].
  exists (c :: a). simpl. by rewrite <- IH.
Qed.

Lemma trimEnd_prefix (s : jsstring) : ∃ b, s = trimEnd s ++ b.
Proof.
  unfold trimEnd. destruct (trimStart_suffix (rev s)) as [a Ha].
  exists (rev a). rewrite <- rev_app_distr, <- Ha. by rewrite rev_involutive.
Qed.

Lemma trimEnd_idemp (s : jsstring) : trimEnd (trimEnd s) = trimEnd s.
Proof. unfold trimEnd. by rewrite rev_involutive, trimStart_idemp. Qed.

(** [trim] is idempotent: what it returns has no white space left at
    either end. *)
Lemma trim_idemp (s : jsstring) : trim (trim s) = trim s.
Proof.
  unfold trim. set (t := trimStart s).
  assert (trimStart (trimEnd t) = trimEnd t) as ->; [|apply trimEnd_idemp].
  apply trimStart_fixed. intros c r Hc.
  destruct (trimEnd_prefix t) as [b Hb]. rewrite Hc in Hb. simpl in Hb.
  by apply (trimStart_head s (r ++ b)).
Qed.

Lemma trimStart_Forall (P : N → Prop) (s : jsstring) :
  Forall P s → Forall P (trimStart s).
Proof.
  induction 1 as [|c s Hc Hs IH]; [done|]. simpl.
  destruct (isSpace c); [done | by constructor].
Qed.

Lemma trim_Forall (P : N → Prop) (s : jsstring) :
  Forall P s → Forall P (trim s).
Proof.
  intros H. unfold trim, trimEnd.
  apply Forall_rev, trimStart_Forall, Forall_rev. by apply trimStart_Forall.
Qed.

(** A white-space unit at the end of a string does not count for
    [trim]. *)
Lemma trimStart_snoc (s : jsstring) (c : N) :
  isSpace c = true →
  trimStart (s ++ [c]) = trimStart s ++ [c]
  ∨ (trimStart s = [] ∧ trimStart (s ++ [c]) = []).
Proof.
  intros Hc. induction s as [|x s IH]; simpl.
  - rewrite Hc. by right.
  - destruct (isSpace x); [done | by left].
Qed.

Lemma trimEnd_snoc (s : jsstring) (c : N) :
  isSpace c = true → trimEnd (s ++ [c]) = trimEnd s.
Proof. intros Hc. unfold trimEnd. rewrite rev_app_distr. simpl. by rewrite Hc. Qed.

Lemma trim_snoc (s : jsstring) (c : N) :
  isSpace c = true → trim (s ++ [c]) = trim s.
Proof.
  intros Hc. unfold trim.
  destruct (trimStart_snoc s c Hc) as [->|[-> ->]]; [|done].
  by apply trimEnd_snoc.
Qed.

(** ** CorpusStore: what a pair holds *)

Lemma splitChar_no_sep (sep : N) (s p : jsstring) :
  p ∈ splitChar sep s → sep ∉ p.
Proof.
  revert p. induction s as [|x s IH]; simpl; intros p Hp.
  - apply list_elem_of_singleton in Hp as ->. apply not_elem_of_nil.
  - destruct (N.eqb_spec x sep) as [->|Hne].
    + apply elem_of_cons in Hp as [->|Hp]; [apply not_elem_of_nil | by apply IH].
    + apply consHead_pieces in Hp as [->|[(q & Hq & ->)|Hp]].
      * by intros ->%list_elem_of_singleton.
      * intros [?|?]%elem_of_cons; [done|]. by eapply IH.
      * by apply IH.
Qed.

Lemma splitLines_no_LF_upto (n : nat) (s l : jsstring) :
  length s ≤ n → l ∈ splitLines s → LF ∉ l.
Proof.
  revert s l. induction n as [|n IH]; intros s l Hn Hl.
  - destruct s; [|simpl in Hn; lia]. simpl in Hl.
    apply list_elem_of_singleton in Hl as ->. apply not_elem_of_nil.
  - destruct s as [|c s]; simpl in Hl.
    { apply list_elem_of_singleton in Hl as ->. apply not_elem_of_nil. }
    simpl in Hn. destruct (c =? LF)%N eqn:Hc.
    { apply elem_of_cons in Hl as [->|Hl]; [apply not_elem_of_nil|].
      apply (IH s); [lia|done]. }
    apply N.eqb_neq in Hc.
    destruct s as [|d s].
    { apply list_elem_of_singleton in Hl as ->.
      intros Heq%list_elem_of_singleton. congruence. }
    destruct ((c =? CR)%N && (d =? LF)%N).
    { apply elem_of_cons in Hl as [->|Hl]; [apply not_elem_of_nil|].
      apply (IH s); [simpl in Hn; lia|done]. }
    apply consHead_pieces in Hl as [->|[(q & Hq & ->)|Hl]].
    + intros Heq%list_elem_of_singleton. congruence.
    + intros [?|?]%elem_of_cons; [congruence|]. by eapply (IH (d :: s)); [lia|..].
    + apply (IH (d :: s)); [lia|done].
Qed.

Lemma splitLines_no_LF (s l : jsstring) : l ∈ splitLines s → LF ∉ l.
Proof. by apply (splitLines_no_LF_upto (length s)). Qed.

Lemma trim_elem_of (s : jsstring) (c : N) : c ∈ trim s → c ∈ s.
Proof.
  intros Hc. destruct (trimStart_suffix s) as [a Ha].
  destruct (trimEnd_prefix (trimStart s)) as [b Hb].
  rewrite Ha, Hb. fold (trim s). set_solver.
Qed.

Lemma field_elem_of (i : nat) (line : jsstring) (c : N) :
  c ∈ field i line → c ∈ line ∧ c ≠ TAB.
Proof.
  unfold field. destruct (splitChar TAB line !! i) as [p|] eqn:E; simpl.
  - apply list_elem_of_lookup_2 in E. intros Hc. split.
    + by eapply splitChar_pieces.
    + intros ->. by eapply splitChar_no_sep.
  - by intros ?%not_elem_of_nil.
Qed.

Lemma acceptedPair_Some (line : jsstring) (p : CorpusPair) :
  acceptedPair line = Some p →
  p = {| eng := trim (field 1 line); jpn := trim (field 3 line) |}
  ∧ trim (field 1 line) ≠ [] ∧ trim (field 3 line) ≠ [].
Proof.
  unfold acceptedPair.
  destruct (4 <=? _); [|done]. simpl.
  destruct (trim (field 1 line)) eqn:E1; [done|].
  destruct (trim (field 3 line)) eqn:E3; [done|]. simpl.
  by intros [= <-].
Qed.

(** X1.  Every pair that [parseCorpus] returns is usable as a question:
    its English and its Japanese sentence are not empty, have no white
    space left at either end, and hold no tab and no line feed. *)
Theorem parseCorpus_pairs_trimmed (tsv : jsstring) :
  Forall (λ p, eng p ≠ [] ∧ jpn p ≠ []
               ∧ trim (eng p) = eng p ∧ trim (jpn p) = jpn p
               ∧ Forall (λ c, c ≠ TAB ∧ c ≠ LF) (eng p ++ jpn p))
    (parseCorpus tsv).
Proof.
  apply Forall_forall. intros p Hp.
  unfold parseCorpus in Hp. rewrite parseLoop_accepted in Hp. simpl in Hp.
  apply list_elem_of_omap in Hp as (line & Hline & Hacc).
  apply acceptedPair_Some in Hacc as (-> & H1 & H3). simpl.
  split; [done|]. split; [done|]. rewrite !trim_idemp.
  split; [done|]. split; [done|].
  apply Forall_app. split; apply Forall_forall; intros c Hc;
    apply trim_elem_of, field_elem_of in Hc as [Hc Htab];
    (split; [done|]); intros ->; by eapply splitLines_no_LF.
Qed.

(** ** CorpusStore: line by line *)

Lemma splitLines_cons (s : jsstring) : ∃ l ls, splitLines s = l :: ls.
Proof.
  destruct s as [|c s]; [by eexists _, _|]. simpl.
  destruct (c =? LF)%N; [by eexists _, _|].
  destruct s as [|d s]; [by eexists _, _|].
  destruct ((c =? CR)%N && (d =? LF)%N); [by eexists _, _|].
  destruct (splitLines (d :: s)); by eexists _, _.
Qed.

Lemma consHead_app (c : N) (ps qs : list jsstring) :
  ps ≠ [] → consHead c (ps ++ qs) = consHead c ps ++ qs.
Proof. by destruct ps. Qed.

(** The lines of a text followed by CR LF and a second text are the
    lines of the first followed by the lines of the second. *)
Lemma splitLines_app_CRLF_upto (n : nat) (a b : jsstring) :
  length a ≤ n →
  splitLines (a ++ CR :: LF :: b) = splitLines a ++ splitLines b.
Proof.
  revert a. induction n as [|n IH]; intros a Hn.
  { destruct a; [done | simpl in Hn; lia]. }
  destruct a as [|c a]; [done|]. simpl in Hn.
  cbn [app splitLines].
  destruct (c =? LF)%N eqn:Hc.
  { rewrite IH by lia. done. }
  destruct a as [|d a].
  { cbn [app]. replace ((c =? CR)%N && (CR =? LF)%N) with false
      by (by rewrite andb_false_r).
    change (splitLines (CR :: LF :: b)) with ([] :: splitLines b). done. }
  cbn [app]. destruct ((c =? CR)%N && (d =? LF)%N).
  { rewrite IH by (simpl in Hn; lia). done. }
  change (d :: a ++ CR :: LF :: b) with ((d :: a) ++ CR :: LF :: b).
  rewrite IH by lia. apply consHead_app.
  by destruct (splitLines_cons (d :: a)) as (l & ls & ->).
Qed.

(** With a lone line feed between them, the last line of the first text
    loses the carriage return it may end with. *)
Lemma splitLines_app_LF_upto (n : nat) (a b : jsstring) :
  length a ≤ n →
  ∃ ls l l', splitLines a = ls ++ [l]
    ∧ splitLines (a ++ LF :: b) = ls ++ l' :: splitLines b
    ∧ (l = l' ∨ l = l' ++ [CR]).
Proof.
  revert a. induction n as [|n IH]; intros a Hn.
  { destruct a; [|simpl in Hn; lia]. exists [], [], []. by auto. }
  destruct a as [|c a]; [exists [], [], []; by auto|]. simpl in Hn.
  cbn [app splitLines].
  destruct (c =? LF)%N eqn:Hc.
  { destruct (IH a) as (ls & l & l' & -> & -> & Hl); [lia|].
    by exists ([] :: ls), l, l'. }
  destruct a as [|d a].
  { cbn [app]. change (LF =? LF)%N with true. rewrite andb_true_r.
    destruct (c =? CR)%N eqn:Hcr.
    - apply N.eqb_eq in Hcr as ->. exists [], [CR], []. by auto.
    - change (splitLines (LF :: b)) with ([] :: splitLines b).
      exists [], [c], [c]. by auto. }
  cbn [app]. destruct ((c =? CR)%N && (d =? LF)%N).
  { destruct (IH a) as (ls & l & l' & -> & -> & Hl); [simpl in Hn; lia|].
    by exists ([] :: ls), l, l'. }
  change (d :: a ++ LF :: b) with ((d :: a) ++ LF :: b).
  destruct (IH (d :: a)) as (ls & l & l' & -> & -> & Hl); [lia|].
  destruct ls as [|x ls].
  - exists [], (c :: l), (c :: l'). split; [done|]. split; [done|].
    destruct Hl as [->| ->]; by auto.
  - by exists ((c :: x) :: ls), l, l'.
Qed.

Lemma splitChar_snoc (sep c : N) (s : jsstring) :
  c ≠ sep →
  ∃ ps p, splitChar sep s = ps ++ [p]
    ∧ splitChar sep (s ++ [c]) = ps ++ [p ++ [c]].
Proof.
  intros Hc. induction s as [|x s (ps & p & IH1 & IH2)]; simpl.
  - apply N.eqb_neq in Hc as ->. by exists [], [].
  - rewrite IH1, IH2. destruct (x =? sep)%N.
    + by exists ([] :: ps), p.
    + destruct ps as [|q ps]; [by exists [], (x :: p)|].
      by exists ((x :: q) :: ps), p.
Qed.

(** A carriage return at the end of a line changes neither the number of
    its fields nor what they trim to. *)
Lemma acceptedPair_snoc_CR (line : jsstring) :
  acceptedPair (line ++ [CR]) = acceptedPair line.
Proof.
  destruct (splitChar_snoc TAB CR line) as (ps & p & H1 & H2); [done|].
  assert (Hf : ∀ i, trim (field i (line ++ [CR])) = trim (field i line)).
  { intros i. unfold field. rewrite H1, H2.
    destruct (Nat.lt_trichotomy i (length ps)) as [Hlt|[->|Hgt]].
    - by rewrite !lookup_app_l.
    - rewrite !list_lookup_middle by done. simpl. by apply trim_snoc.
    - rewrite !lookup_ge_None_2; [done|rewrite length_app; simpl; lia..]. }
  unfold acceptedPair. rewrite !Hf.
  by rewrite H1, H2, !length_app.
Qed.

(** The pairs of a text closed by a line break and followed by a second
    text. *)
Lemma parseCorpus_app (a b : jsstring) :
  parseCorpus (a ++ [LF] ++ b) = parseCorpus a ++ parseCorpus b
  ∧ parseCorpus (a ++ [CR; LF] ++ b) = parseCorpus a ++ parseCorpus b.
Proof.
  unfold parseCorpus. rewrite !parseLoop_accepted. cbn [app]. split.
  - destruct (splitLines_app_LF_upto (length a) a b) as (ls & l & l' & -> & -> & Hl);
      [done|].
    rewrite !omap_app, <- app_assoc. f_equal.
    assert (acceptedPair l = acceptedPair l') as Hacc
      by (destruct Hl as [->| ->]; [done | by rewrite acceptedPair_snoc_CR]).
    simpl. rewrite Hacc. by destruct (acceptedPair l').
  - rewrite (splitLines_app_CRLF_upto (length a)) by done.
    by rewrite omap_app.
Qed.

(** X2.  The corpus is read line by line: the pairs of two texts joined
    by a line break are the pairs of the first followed by the pairs of
    the second, whether the break is a line feed or a carriage return and
    a line feed; a line break at the end of the text adds nothing. *)
Theorem parseCorpus_line_by_line (a b : jsstring) :
  parseCorpus (a ++ [LF] ++ b) = parseCorpus a ++ parseCorpus b
  ∧ parseCorpus (a ++ [CR; LF] ++ b) = parseCorpus a ++ parseCorpus b
  ∧ parseCorpus (a ++ [LF]) = parseCorpus a
  ∧ parseCorpus (a ++ [CR; LF]) = parseCorpus a.
Proof.
  destruct (parseCorpus_app a b) as [Hlf Hcrlf].
  destruct (parseCorpus_app a []) as [Hlf' Hcrlf'].
  change (parseCorpus []) with (@nil CorpusPair) in Hlf', Hcrlf'.
  rewrite !app_nil_r in Hlf', Hcrlf'. done.
Qed.

(** ** CorpusStore: reading records *)

Lemma splitChar_single (sep : N) (s : jsstring) :
  sep ∉ s → splitChar sep s = [s].
Proof.
  induction s as [|c s IH]; [done|]. intros Hs. simpl.
  apply not_elem_of_cons in Hs as [Hc Hs].
  apply not_eq_sym, N.eqb_neq in Hc. by rewrite Hc, IH.
Qed.

Lemma splitChar_app (sep : N) (s rest : jsstring) :
  sep ∉ s → splitChar sep (s ++ sep :: rest) = s :: splitChar sep rest.
Proof.
  induction s as [|c s IH]; intros Hs; simpl.
  - by rewrite N.eqb_refl.
  - apply not_elem_of_cons in Hs as [Hc Hs].
    apply not_eq_sym, N.eqb_neq in Hc. by rewrite Hc, IH.
Qed.

Lemma splitLines_single_upto (n : nat) (s : jsstring) :
  length s ≤ n → LF ∉ s → splitLines s = [s].
Proof.
  revert s. induction n as [|n IH]; intros s Hn Hs.
  { destruct s; [done | simpl in Hn; lia]. }
  destruct s as [|c s]; [done|]. simpl in Hn.
  apply not_elem_of_cons in Hs as [Hc Hs].
  cbn [splitLines]. apply not_eq_sym, N.eqb_neq in Hc. rewrite Hc.
  destruct s as [|d s]; [done|].
  pose proof Hs as [Hd _]%not_elem_of_cons.
  apply not_eq_sym, N.eqb_neq in Hd. rewrite Hd, andb_false_r.
  by rewrite IH by (done || lia).
Qed.

Lemma recordLine_accepted (id1 id2 : jsstring) (p : CorpusPair) :
  plainField id1 → plainField id2 → storable (eng p) → storable (jpn p) →
  acceptedPair (recordLine id1 p id2) = Some p.
Proof.
  intros [H1 _] [H2 _] (He & Hte & Hpe & _) (Hj & Htj & Hpj & _).
  assert (splitChar TAB (recordLine id1 p id2) = [id1; eng p; id2; jpn p]) as Hcols.
  { unfold recordLine. cbn [app].
    rewrite !splitChar_app by done. by rewrite splitChar_single. }
  assert (field 1 (recordLine id1 p id2) = eng p) as Hf1
    by (unfold field; by rewrite Hcols).
  assert (field 3 (recordLine id1 p id2) = jpn p) as Hf3
    by (unfold field; by rewrite Hcols).
  unfold acceptedPair. rewrite Hcols, Hf1, Hf3, Hte, Htj.
  destruct p as [e j]; cbn in *. by destruct e, j.
Qed.

Lemma recordLine_plain (id1 id2 : jsstring) (p : CorpusPair) :
  plainField id1 → plainField id2 → storable (eng p) → storable (jpn p) →
  LF ∉ recordLine id1 p id2.
Proof.
  intros [_ H1] [_ H2] (_ & _ & _ & He) (_ & _ & _ & Hj).
  unfold recordLine. rewrite !elem_of_app, !elem_of_cons, !elem_of_nil.
  intros [?|[[?|[]]|[?|[[?|[]]|[?|[[?|[]]|?]]]]]]; done.
Qed.

(** X3.  A corpus file is read back as written.  The text made of one
    record per line, where each record holds an identifier, an English
    sentence, a second identifier and a Japanese sentence separated by
    tabs, and each line is closed by a line feed or by a carriage return
    and a line feed, parses to the pairs of its records, in order, when
    the identifiers hold no tab and no line feed and the sentences are
    storable. *)
Theorem parseCorpus_reads_records (eol : jsstring)
    (rows : list (jsstring * CorpusPair * jsstring)) :
  eol = [LF] ∨ eol = [CR; LF] →
  Forall (λ '(id1, p, id2), plainField id1 ∧ plainField id2
                              ∧ storable (eng p) ∧ storable (jpn p)) rows →
  parseCorpus (corpusFile eol rows) = map (λ '(_, p, _), p) rows.
Proof.
  intros Heol Hrows. induction Hrows as [|[[id1 p] id2] rows (H1 & H2 & He & Hj) _ IH].
  { done. }
  cbn [corpusFile flat_map map] in *. fold (corpusFile eol rows).
  rewrite <- app_assoc.
  assert (parseCorpus (recordLine id1 p id2 ++ eol ++ corpusFile eol rows)
          = parseCorpus (recordLine id1 p id2) ++ parseCorpus (corpusFile eol rows))
    as -> by (destruct Heol as [-> | ->]; apply parseCorpus_app).
  rewrite IH. unfold parseCorpus at 1.
  rewrite (splitLines_single_upto (length (recordLine id1 p id2)))
    by (done || by apply recordLine_plain).
  cbn [fold_left]. rewrite parseLine_accepted, recordLine_accepted by done.
  done.
Qed.

Lemma parseCorpus_reads_records_witness :
  parseCorpus
    (corpusFile [CR; LF]
       [(units "1", helloPair, units "2"); (units "", byePair, units "x y")])
  = [helloPair; byePair].
Proof.
  apply (parseCorpus_reads_records [CR; LF]
           [(units "1", helloPair, units "2"); (units "", byePair, units "x y")]).
  - by right.
  - apply Forall_cons_2; [|apply Forall_cons_2; [|apply Forall_nil_2]];
      unfold plainField, storable; repeat split;
      try (vm_compute; (reflexivity || discriminate));
      vm_compute; intros H;
      repeat (apply elem_of_cons in H as [H|H]; [discriminate H|]);
      by apply not_elem_of_nil in H.
Defined.

(** ** Sampling on doubles *)

Section Sampling.

Local Open Scope Z_scope.

Lemma record_of_loc (rec : shr_record) :
  rec = shr_record_of_loc (shr_m rec) (loc_of_shr_record rec).
Proof. by destruct rec as [m [] []]. Qed.

(** One shift to the right, on any record with a mantissa that is not
    negative. *)
Lemma shr_1_any (rec : shr_record) (y X : Z) :
  0 < y → 0 <= shr_m rec →
  loc_ok (shr_m rec) (loc_of_shr_record rec) y X →
  shr_m (shr_1 rec) = shr_m rec / 2
  ∧ loc_ok (shr_m rec / 2) (loc_of_shr_record (shr_1 rec)) (2 * y) X.
Proof.
  intros Hy Hm Hl. destruct rec as [m r s]. cbn [shr_m] in *.
  destruct m as [|q|q]; [| |lia].
  - change (0 / 2) with 0.
    destruct r, s; simpl in *; (split; [done|]); lia.
  - destruct r, s.
    + exact (shr_1_ok q (loc_Inexact Gt) y X Hy Hl).
    + exact (shr_1_ok q (loc_Inexact Eq) y X Hy Hl).
    + exact (shr_1_ok q (loc_Inexact Lt) y X Hy Hl).
    + exact (shr_1_ok q loc_Exact y X Hy Hl).
Qed.

(** Any number of shifts to the right. *)
Lemma shr_iter (p : positive) :
  ∀ (rec : shr_record) (y X : Z),
    0 < y → 0 <= shr_m rec →
    loc_ok (shr_m rec) (loc_of_shr_record rec) y X →
    0 <= shr_m (SpecFloat.iter_pos shr_1 p rec)
    ∧ loc_ok (shr_m (SpecFloat.iter_pos shr_1 p rec))
        (loc_of_shr_record (SpecFloat.iter_pos shr_1 p rec)) (2 ^ Zpos p * y) X.
Proof.
  assert (Hpow : ∀ q : positive, 0 < 2 ^ Zpos q)
    by (intros; apply Z.pow_pos_nonneg; lia).
  assert (Hstep : ∀ rec y X, 0 < y → 0 <= shr_m rec →
            loc_ok (shr_m rec) (loc_of_shr_record rec) y X →
            0 <= shr_m (shr_1 rec)
            ∧ loc_ok (shr_m (shr_1 rec)) (loc_of_shr_record (shr_1 rec)) (2 * y) X).
  { intros rec y X Hy Hm Hl. destruct (shr_1_any rec y X Hy Hm Hl) as [-> L].
    split; [apply Z.div_pos; lia | done]. }
  induction p as [p IH|p IH|]; intros rec y X Hy Hm Hl; cbn [SpecFloat.iter_pos].
  - destruct (Hstep rec y X Hy Hm Hl) as [M1 L1].
    destruct (IH _ (2 * y) X ltac:(lia) M1 L1) as [M2 L2].
    destruct (IH _ (2 ^ Zpos p * (2 * y)) X
                ltac:(specialize (Hpow p); nia) M2 L2) as [M3 L3].
    split; [done|].
    replace (2 ^ Zpos p~1 * y) with (2 ^ Zpos p * (2 ^ Zpos p * (2 * y))); [done|].
    assert (Zpos p~1 = Zpos p + Zpos p + 1) as -> by lia.
    rewrite !Z.pow_add_r by lia. change (2 ^ 1) with 2. ring.
  - destruct (IH rec y X Hy Hm Hl) as [M2 L2].
    destruct (IH _ (2 ^ Zpos p * y) X
                ltac:(specialize (Hpow p); nia) M2 L2) as [M3 L3].
    split; [done|].
    replace (2 ^ Zpos p~0 * y) with (2 ^ Zpos p * (2 ^ Zpos p * y)); [done|].
    assert (Zpos p~0 = Zpos p + Zpos p) as -> by lia.
    rewrite !Z.pow_add_r by lia. ring.
  - change (2 ^ 1) with 2. by apply Hstep.
Qed.

Lemma loc_ok_between (q : Z) (l : location) (y X : Z) :
  0 < y → loc_ok q l y X → q * y <= X < (q + 1) * y.
Proof. intros Hy Hl. destruct l as [|[]]; simpl in Hl; lia. Qed.

(** A mantissa of at most 53 digits is not shifted. *)
Lemma shr_fexp_fits (m e : Z) :
  0 <= m < 2 ^ 53 → -1074 <= e →
  shr_fexp 53 1024 m e loc_Exact
  = ({| shr_m := m; shr_r := false; shr_s := false |}, e).
Proof.
  intros [Hlo Hhi] He. unfold shr_fexp, fexp, emin.
  assert (Zdigits2 m <= 53) as Hd.
  { destruct m as [|q|q]; [done| |lia]. cbn [Zdigits2].
    pose proof (digits_bounds q) as [Hq _].
    destruct (Z.le_gt_cases (Zpos (digits2_pos q)) 53) as [|Hgt]; [done|exfalso].
    assert (2 ^ 53 <= 2 ^ (Zpos (digits2_pos q) - 1))
      by (apply Z.pow_le_mono_r; lia).
    lia. }
  destruct (Z.max (Zdigits2 m + e - 53) (3 - 1024 - 53) - e) eqn:Hs; [done|lia|done].
Qed.

(** The first alignment of an exact product: nothing when the mantissa
    fits, and otherwise a shift by the number of digits in excess, which
    keeps the location right. *)
Lemma shr_fexp_exact (P : positive) (E : Z) :
  let s := Z.max (Zpos (digits2_pos P) + E - 53) (-1074) - E in
  (s <= 0 ∧ shr_fexp 53 1024 (Zpos P) E loc_Exact
            = ({| shr_m := Zpos P; shr_r := false; shr_s := false |}, E))
  ∨ (0 < s ∧ ∃ rec, shr_fexp 53 1024 (Zpos P) E loc_Exact = (rec, E + s)
       ∧ 0 <= shr_m rec
       ∧ loc_ok (shr_m rec) (loc_of_shr_record rec) (2 ^ s) (Zpos P)).
Proof.
  intros s. unfold shr_fexp, fexp, emin. cbn [Zdigits2].
  change (3 - 1024 - 53) with (-1074). fold s.
  destruct s as [|p|p] eqn:Hs; [left; by split|right|left; by split].
  split; [lia|]. eexists. split; [done|].
  destruct (shr_iter p (shr_record_of_loc (Zpos P) loc_Exact) 1 (Zpos P))
    as [Hm Hl]; [lia|simpl; lia|simpl; lia|].
  by rewrite Z.mul_1_r in Hl.
Qed.

(** The rounding of an exact product [P * 2^E] of two doubles, in units
    of [2^E]: the result is [m2 * 2^t], where [t] is the number of digits
    dropped and [m2] the rounded mantissa. *)
Lemma round_product (P : positive) (E : Z) :
  -1200 <= E <= 0 → Zpos P < 2 ^ 106 →
  ∃ t m2, 0 <= t ∧ 0 <= m2 <= 2 ^ 53
    ∧ 2 * (m2 * 2 ^ t) - 2 ^ t <= 2 * Zpos P
    ∧ ((t = 0 ∧ m2 = Zpos P)
       ∨ (0 < t ∧ 2 ^ (t + 52) <= Zpos P)
       ∨ (0 < t ∧ t = -1074 - E))
    ∧ ((binary_round_aux 53 1024 false (Zpos P) E loc_Exact = S754_zero false
        ∧ m2 = 0)
       ∨ ∃ M er, binary_round_aux 53 1024 false (Zpos P) E loc_Exact
                 = S754_finite false M er
           ∧ E <= er ∧ Zpos M * 2 ^ (er - E) = m2 * 2 ^ t).
Proof.
  intros HE HP.
  pose proof (digits_bounds P) as [Hklo Hkhi].
  set (k := Zpos (digits2_pos P)) in *.
  assert (1 <= k) as Hk1 by (unfold k; lia).
  assert (k <= 106) as Hk.
  { destruct (Z.le_gt_cases k 106) as [|Hgt]; [done|exfalso].
    assert (2 ^ 106 <= 2 ^ (k - 1)) by (apply Z.pow_le_mono_r; lia). lia. }
  unfold binary_round_aux.
  destruct (shr_fexp_exact P E) as [[Hs ->]|(Hs & rec & -> & Hm & Hl)];
    fold k in Hs |- *.
  - (* the mantissa fits *)
    assert (k <= 53) as Hk53 by lia.
    assert (Zpos P < 2 ^ 53) as HP53.
    { eapply Z.lt_le_trans; [exact Hkhi|]. apply Z.pow_le_mono_r; lia. }
    cbn [shr_m loc_of_shr_record round_nearest_even].
    rewrite shr_fexp_fits by lia. cbn [shr_m].
    destruct (Z.leb_spec E (1024 - 53)) as [_|?]; [|lia].
    exists 0, (Zpos P). split; [lia|]. split; [lia|]. split; [lia|].
    split; [by left|]. right. exists P, E.
    split; [done|]. split; [lia|]. by rewrite Z.sub_diag.
  - (* digits are dropped *)
    fold k in Hl. set (s := Z.max (k + E - 53) (-1074) - E) in *.
    assert (0 < 2 ^ s) as Hpow by (apply Z.pow_pos_nonneg; lia).
    pose proof (loc_ok_between _ _ _ _ Hpow Hl) as [Hlo Hhi].
    pose proof (round_nearest_even_ok _ _ _ _ Hpow Hl) as [Hr1 Hr2].
    pose proof (round_nearest_even_step (shr_m rec) (loc_of_shr_record rec)) as Hstep.
    set (m1 := shr_m rec) in *.
    set (m2 := round_nearest_even m1 (loc_of_shr_record rec)) in *.
    assert (Zpos P < 2 ^ s * 2 ^ 53) as HPs.
    { rewrite <- Z.pow_add_r by lia.
      eapply Z.lt_le_trans; [exact Hkhi|]. apply Z.pow_le_mono_r; lia. }
    assert (m1 < 2 ^ 53) as Hm1 by nia.
    assert (-1074 <= E + s) as He1 by lia.
    assert (E + s <= 1024 - 53) as He2 by lia.
    exists s, m2. split; [lia|]. split; [lia|].
    split; [rewrite Z.mul_assoc; lia|].
    split.
    { right. destruct (Z.le_gt_cases (-1074) (k + E - 53)) as [Hn|Hsub].
      - left. split; [done|].
        replace (s + 52) with (k - 1) by lia. done.
      - right. split; [done | lia]. }
    destruct (Z.eq_dec m2 (2 ^ 53)) as [Hfull|Hnot].
    + (* the rounding carried into a 54th digit *)
      right. exists (2 ^ 52)%positive, (E + s + 1).
      rewrite Hfull. change (2 ^ 53) with (Zpos (2 ^ 53)).
      rewrite shr_fexp_54 by (done || lia).
      assert (shr_1 (shr_record_of_loc (Zpos (2 ^ 53)) loc_Exact)
              = {| shr_m := Zpos (2 ^ 52); shr_r := false; shr_s := false |})
        as -> by (by vm_compute).
      unfold shr_m.
      destruct (Z.leb_spec (E + s + 1) (1024 - 53)) as [_|?]; [|lia].
      split; [done|]. split; [lia|].
      replace (E + s + 1 - E) with (1 + s) by lia.
      rewrite Z.pow_add_r by lia.
      change (Zpos (2 ^ 52)) with (2 ^ 52). change (Zpos (2 ^ 53)) with (2 * 2 ^ 52).
      change (2 ^ 1) with 2. ring.
    + rewrite shr_fexp_fits by lia. unfold shr_m.
      destruct m2 as [|q|q] eqn:Hq; [by left| |lia].
      right. exists q, (E + s).
      destruct (Z.leb_spec (E + s) (1024 - 53)) as [_|?]; [|lia].
      split; [done|]. split; [lia|]. by replace (E + s - E) with s by lia.
Qed.

(** A double that [Math.random()] may return is the positive zero, or
    has a mantissa below 2^53 and an exponent of at most -53. *)
Lemma unitInterval_finite (u : spec_float) :
  OnDoubles.unitInterval u = true →
  u = S754_zero false
  ∨ ∃ m e, u = S754_finite false m e ∧ Zpos m < 2 ^ 53 ∧ -1074 <= e <= -53.
Proof.
  destruct u as [s|s| |s m e]; cbn [OnDoubles.unitInterval]; try done.
  { destruct s; [done | by left]. }
  destruct s; [done|]. cbn [negb andb].
  intros [Hb Hlt]%andb_true_iff. right. exists m, e. split; [done|].
  unfold bounded, canonical_mantissa, fexp, emin, Binary64.prec, Binary64.emax in Hb.
  apply andb_true_iff in Hb as [Hc _]. apply Z.eqb_eq in Hc.
  pose proof (digits_bounds m) as [Hlo Hhi].
  set (d := Zpos (digits2_pos m)) in *.
  assert (d <= 53 ∧ -1074 <= e) as [Hd He] by lia.
  assert (Zpos m < 2 ^ 53) as Hm.
  { eapply Z.lt_le_trans; [exact Hhi|]. apply Z.pow_le_mono_r; lia. }
  split; [done|]. split; [done|].
  unfold SFltb, SFcompare, OnDoubles.one in Hlt.
  destruct (Z.compare_spec e (-52)) as [->|?|?]; [exfalso|lia|done].
  assert (d = 53) as Hd53 by lia.
  destruct (Pos.compare_cont Eq m 4503599627370496) eqn:Hcmp; try done.
  assert (m < 4503599627370496)%positive as Hc' by exact Hcmp.
  apply Pos2Z.pos_lt_pos in Hc'.
  rewrite Hd53 in Hlo. change (2 ^ (53 - 1)) with 4503599627370496 in Hlo.
  clear - Hc' Hlo. lia.
Qed.

(** The double product of a double of the unit interval and an array
    length, floored, is an index of the array. *)
Lemma floor_of_product (u : spec_float) (n : nat) :
  OnDoubles.unitInterval u = true → (0 < n)%nat → Z.of_nat n < 2 ^ 53 →
  ∃ i, OnDoubles.floor (SFmul Binary64.prec Binary64.emax u (Binary64.ofNat n))
       = Some i
    ∧ 0 <= i < Z.of_nat n.
Proof.
  intros Hu Hn Hn53.
  destruct (ofNat_finite n Hn Hn53) as (my & ey & -> & Hdy & Hey & Hmy).
  pose proof (digits_bounds my) as [Hylo Hyhi]. rewrite Hdy in Hylo, Hyhi.
  change (53 - 1) with 52 in Hylo.
  destruct (unitInterval_finite u Hu) as [->|(m & e & -> & Hm & He)].
  { exists 0. split; [done | lia]. }
  cbn [SFmul xorb]. unfold Binary64.prec, Binary64.emax.
  set (N := Z.of_nat n) in *. set (E := e + ey).
  assert (0 < 2 ^ (- e)) as Hpe by (apply Z.pow_pos_nonneg; lia).
  assert (0 < 2 ^ (- ey)) as Hpey by (apply Z.pow_pos_nonneg; lia).
  assert (0 < 2 ^ (- E)) as HpE by (apply Z.pow_pos_nonneg; lia).
  assert (2 ^ (- E) = 2 ^ (- ey) * 2 ^ (- e)) as HEsplit.
  { rewrite <- Z.pow_add_r by lia. f_equal; lia. }
  assert (2 ^ 53 <= 2 ^ (- e)) as He53 by (apply Z.pow_le_mono_r; lia).
  assert (Zpos (m * my) + Zpos my <= N * 2 ^ (- E)) as HA.
  { rewrite HEsplit, Z.mul_assoc, <- Hmy, Pos2Z.inj_mul. nia. }
  assert (Zpos (m * my) < 2 ^ 53 * Zpos my) as HPm
    by (rewrite Pos2Z.inj_mul; nia).
  destruct (round_product (m * my) E) as (t & m2 & Ht & Hm2 & Hr & Hkind & Hres).
  { unfold E. lia. }
  { eapply Z.lt_trans; [exact HPm|]. change (2 ^ 106) with (2 ^ 53 * 2 ^ 53). nia. }
  set (P := Zpos (m * my)) in *.
  assert (0 < 2 ^ t) as Hpt by (apply Z.pow_pos_nonneg; lia).
  assert (m2 * 2 ^ t < N * 2 ^ (- E)) as HB.
  { destruct Hkind as [[-> ->]|[[Ht0 Hbig]|[Ht0 Hsub]]].
    - rewrite Z.pow_0_r. lia.
    - destruct (Z.lt_ge_cases (m2 * 2 ^ t) (N * 2 ^ (- E))) as [|Hge]; [done|exfalso].
      rewrite Z.pow_add_r in Hbig by lia.
      assert (2 * Zpos my <= 2 ^ t) by lia.
      assert (2 * P < 2 ^ 53 * 2 ^ t) by nia.
      change (2 ^ 53) with (2 * 2 ^ 52) in H0. lia.
    - assert (2 ^ 53 * 2 ^ t < 2 ^ (- E)).
      { rewrite <- Z.pow_add_r by lia. apply Z.pow_lt_mono_r; lia. }
      assert (2 ^ (- E) <= N * 2 ^ (- E)) by nia.
      assert (m2 * 2 ^ t <= 2 ^ 53 * 2 ^ t)
        by (apply Z.mul_le_mono_nonneg_r; lia).
      lia. }
  destruct Hres as [[-> _]|(M & er & -> & Her & Hval)].
  { exists 0. split; [done | lia]. }
  cbn [OnDoubles.floor]. eexists. split; [done|].
  rewrite <- Hval in HB.
  assert (0 < 2 ^ (er - E)) as Hpd by (apply Z.pow_pos_nonneg; lia).
  destruct (Z.leb_spec 0 er) as [Hpos|Hneg].
  - assert (0 < 2 ^ er) as Hper by (apply Z.pow_pos_nonneg; lia).
    split; [lia|].
    assert (2 ^ (er - E) = 2 ^ er * 2 ^ (- E)) as Hsplit.
    { rewrite <- Z.pow_add_r by lia. f_equal; lia. }
    rewrite Hsplit, Z.mul_assoc in HB.
    by apply Z.mul_lt_mono_pos_r in HB.
  - assert (0 < 2 ^ (- er)) as Hper by (apply Z.pow_pos_nonneg; lia).
    split; [apply Z.div_pos; lia|].
    apply Z.div_lt_upper_bound; [done|].
    assert (2 ^ (- E) = 2 ^ (- er) * 2 ^ (er - E)) as Hsplit.
    { rewrite <- Z.pow_add_r by lia. f_equal; lia. }
    rewrite Hsplit, Z.mul_assoc, (Z.mul_comm N) in HB.
    by apply Z.mul_lt_mono_pos_r in HB.
Qed.

End Sampling.

(** X4.  [randomPair] never reads past the array.  For every double of
    positive sign that is at least 0 and less than 1, which is what
    [Math.random()] returns, and every non-empty array of fewer than 2^53
    pairs, the product rounded to a double and then floored is an index
    of the array, so that the function returns one of the pairs. *)
Theorem randomPair_on_doubles (u : spec_float) (pairs : list CorpusPair) :
  OnDoubles.unitInterval u = true → pairs ≠ [] →
  (Z.of_nat (length pairs) < 2 ^ 53)%Z →
  ∃ p, OnDoubles.randomPair u pairs = Some p ∧ p ∈ pairs.
Proof.
  intros Hu Hne Hlen. unfold OnDoubles.randomPair.
  destruct (length pairs =? 0) eqn:E.
  { apply Nat.eqb_eq in E. by destruct pairs. }
  apply Nat.eqb_neq in E.
  destruct (floor_of_product u (length pairs) Hu ltac:(lia) Hlen)
    as (i & -> & Hi0 & Hin).
  destruct (Z.ltb_spec i 0) as [?|_]; [lia|].
  destruct (lookup_lt_is_Some_2 pairs (Z.to_nat i)) as [p Hp]; [lia|].
  exists p. split; [done|]. by eapply list_elem_of_lookup_2.
Qed.

Lemma randomPair_on_doubles_witness :
  ∃ p, OnDoubles.randomPair almostOne [helloPair; byePair] = Some p
       ∧ p ∈ [helloPair; byePair].
Proof.
  apply (randomPair_on_doubles almostOne [helloPair; byePair]);
    [by vm_compute | discriminate | by vm_compute].
Defined.

(** At the largest double below 1 the sample is the last pair. *)
Lemma randomPair_at_almostOne :
  OnDoubles.randomPair almostOne [helloPair; byePair] = Some byePair.
Proof. by vm_compute. Qed.

(** ** Evaluator: normal forms and tokens *)

Lemma filter_Forall_true {A} (f : A → bool) (l : list A) :
  Forall (λ x, f x = true) (List.filter f l).
Proof.
  induction l as [|x l IH]; simpl; [done|].
  destruct (f x) eqn:E; [by constructor | done].
Qed.

Lemma filter_Forall_keep {A} (P : A → Prop) (f : A → bool) (l : list A) :
  Forall P l → Forall P (List.filter f l).
Proof.
  induction 1 as [|x l Hx Hl IH]; simpl; [done|].
  destruct (f x); [by constructor | done].
Qed.

Lemma filter_all {A} (f : A → bool) (l : list A) :
  Forall (λ x, f x = true) l → List.filter f l = l.
Proof. induction 1 as [|x l Hx Hl IH]; simpl; [done|]. by rewrite Hx, IH. Qed.

Lemma map_fixed {A} (f : A → A) (l : list A) :
  Forall (λ x, f x = x) l → map f l = l.
Proof. induction 1 as [|x l Hx Hl IH]; simpl; [done|]. by rewrite Hx, IH. Qed.

(** On ASCII text [toLowerCase] lowers unit by unit. *)
Lemma lowerFrom_ascii (lowerAt : jsstring → N → jsstring → jsstring)
    (before s : jsstring) :
  Forall (λ c, (c < 128)%N) s → lowerFrom lowerAt before s = map asciiLower s.
Proof.
  intros H. revert before. induction H as [|c s Hc Hs IH]; intros before; [done|].
  simpl. unfold lowerUnit. apply N.ltb_lt in Hc. by rewrite Hc, IH.
Qed.

Lemma asciiLower_idemp (c : N) : asciiLower (asciiLower c) = asciiLower c.
Proof.
  unfold asciiLower. destruct ((65 <=? c) && (c <=? 90))%N eqn:E; [|by rewrite E].
  replace ((65 <=? c + 32) && (c + 32 <=? 90))%N with false; [done|].
  symmetry. class_lia.
Qed.

Lemma asciiLower_ascii (c : N) : (c < 128)%N → (asciiLower c < 128)%N.
Proof.
  intros Hc. unfold asciiLower.
  destruct ((65 <=? c) && (c <=? 90))%N eqn:E; [class_lia | done].
Qed.

(** A lowered ASCII unit that passes the token class is a small letter
    or the apostrophe. *)
Lemma asciiLower_token (c : N) :
  (c < 128)%N → isTokenChar (asciiLower c) = true →
  (97 <= asciiLower c <= 122)%N ∨ asciiLower c = 39%N.
Proof.
  intros Hc. unfold asciiLower, isTokenChar.
  destruct ((65 <=? c) && (c <=? 90))%N eqn:E; intros H; class_lia.
Qed.

Lemma splitSpaceFrom_pieces (inRun : bool) (s p : jsstring) :
  p ∈ splitSpaceFrom inRun s → ∀ c, c ∈ p → c ∈ s.
Proof.
  revert inRun p. induction s as [|x s IH]; simpl; intros inRun p Hp c Hc.
  - apply list_elem_of_singleton in Hp. by subst.
  - destruct (isSpace x).
    + destruct inRun.
      * right. by eapply IH.
      * apply elem_of_cons in Hp as [->|Hp]; [by apply not_elem_of_nil in Hc|].
        right. by eapply IH.
    + apply consHead_pieces in Hp as [->|[(q & Hq & ->)|Hp]].
      * apply list_elem_of_singleton in Hc as ->. left.
      * apply elem_of_cons in Hc as [->|Hc]; [left | right; by eapply IH].
      * right. by eapply IH.
Qed.

Lemma filter_elem_of {A} (f : A → bool) (l : list A) (x : A) :
  x ∈ List.filter f l ↔ x ∈ l ∧ f x = true.
Proof. by rewrite filter_bool, list_elem_of_filter, (comm and). Qed.

(** X6.  Every token that [tokenize] returns is non-empty and made only
    of ASCII letters, apostrophes and right single quotation marks; the
    tokens of an ASCII text are made of small letters and apostrophes
    only. *)
Theorem tokenize_tokens_clean (lowerAt : jsstring → N → jsstring → jsstring)
    (text : jsstring) :
  Forall (λ t, t ≠ [] ∧ Forall (λ c, isTokenChar c = true) t)
    (tokenize lowerAt text)
  ∧ (Forall (λ c, (c < 128)%N) text →
       Forall (Forall (λ c, (97 <= c <= 122)%N ∨ c = 39%N))
         (tokenize lowerAt text)).
Proof.
  unfold tokenize. split.
  - apply Forall_forall. intros t [Ht Htr]%filter_elem_of.
    split; [by destruct t|].
    apply list_elem_of_fmap in Ht as (p & -> & _). apply filter_Forall_true.
  - intros Hascii. apply Forall_forall. intros t [Ht _]%filter_elem_of.
    apply list_elem_of_fmap in Ht as (p & -> & Hp).
    apply Forall_forall. intros c [Hc Htok]%filter_elem_of.
    eapply splitSpaceFrom_pieces in Hc; [|exact Hp].
    unfold toLowerCase in Hc. rewrite lowerFrom_ascii in Hc by done.
    apply list_elem_of_fmap in Hc as (x & -> & Hx).
    apply asciiLower_token; [|done].
    by eapply Forall_forall in Hascii.
Qed.

Lemma tokenize_tokens_clean_witness :
  Forall (Forall (λ c, (97 <= c <= 122)%N ∨ c = 39%N))
    (tokenize keepUnit (units "It's  a TEST, no. 42!")).
Proof.
  apply (proj2 (tokenize_tokens_clean keepUnit (units "It's  a TEST, no. 42!"))).
  vm_compute. repeat constructor.
Defined.

(** X5.  What [normalizeExact] returns holds none of the punctuation
    marks of its class and no white space at either end; on ASCII text
    it is a normal form: normalising it again changes nothing. *)
Theorem normalizeExact_normal (lowerAt : jsstring → N → jsstring → jsstring)
    (text : jsstring) :
  Forall (λ c, isPunctuation c = false) (normalizeExact lowerAt text)
  ∧ trim (normalizeExact lowerAt text) = normalizeExact lowerAt text
  ∧ (Forall (λ c, (c < 128)%N) text →
       normalizeExact lowerAt (normalizeExact lowerAt text)
       = normalizeExact lowerAt text).
Proof.
  unfold normalizeExact. split; [|split].
  - apply trim_Forall. eapply Forall_impl; [apply filter_Forall_true|].
    intros c Hc. by apply negb_true_iff.
  - apply trim_idemp.
  - intros Hascii. unfold toLowerCase. rewrite (lowerFrom_ascii _ _ text) by done.
    set (X := List.filter (λ c, negb (isPunctuation c)) (map asciiLower text)).
    assert (HX : Forall (λ c, (c < 128)%N ∧ asciiLower c = c
                              ∧ negb (isPunctuation c) = true) (trim X)).
    { apply trim_Forall, Forall_forall. intros c [Hc Hnp]%filter_elem_of.
      apply list_elem_of_fmap in Hc as (x & -> & Hx).
      eapply Forall_forall in Hascii; [|done].
      split; [by apply asciiLower_ascii|]. split; [apply asciiLower_idemp | done]. }
    rewrite lowerFrom_ascii by (eapply Forall_impl; [exact HX|]; by intros ? (? & _)).
    rewrite map_fixed by (eapply Forall_impl; [exact HX|]; by intros ? (_ & ? & _)).
    rewrite filter_all by (eapply Forall_impl; [exact HX|]; by intros ? (_ & _ & ?)).
    apply trim_idemp.
Qed.

Lemma normalizeExact_normal_witness :
  normalizeExact keepUnit (normalizeExact keepUnit (units "  Hello, World! "))
  = normalizeExact keepUnit (units "  Hello, World! ").
Proof.
  apply (proj2 (proj2 (normalizeExact_normal keepUnit (units "  Hello, World! ")))).
  vm_compute. repeat constructor.
Defined.

(** ** Evaluator: what the similarity tells *)

Lemma jaccardSimilarity_swap (a b : list jsstring) :
  jaccardSimilarity a b = jaccardSimilarity b a.
Proof.
  rewrite !jaccardSimilarity_unfold.
  set (A := list_to_set a : gset jsstring).
  set (B := list_to_set b : gset jsstring).
  by rewrite (comm_L (∩) B A), (Nat.add_comm (size B) (size A)).
Qed.

(** X9.  The label does not depend on which of the two sentences is the
    model answer and which the user's, and it is always one of the four
    messages. *)
Theorem evaluateAnswer_symmetric (lowerAt : jsstring → N → jsstring → jsstring)
    (model user : jsstring) :
  evaluateAnswer lowerAt model user = evaluateAnswer lowerAt user model
  ∧ evaluateAnswer lowerAt model user
    ∈ [exactText; nearText; partialText; differentText].
Proof.
  unfold evaluateAnswer. split.
  - rewrite (jaccardSimilarity_swap (tokenize lowerAt user)).
    destruct (decide (normalizeExact lowerAt model = normalizeExact lowerAt user))
      as [Heq|Hne].
    + by rewrite decide_True.
    + by rewrite decide_False by congruence.
  - rewrite !elem_of_cons.
    destruct (decide _); [by auto|].
    repeat match goal with |- context [if ?b then _ else _] => destruct b end;
      by auto.
Qed.

Lemma quotient_eq_Z (n d : nat) (k : Z) :
  0 < d →
  (inject_Z (Z.of_nat n) / inject_Z (Z.of_nat d) == inject_Z k)%Q
  ↔ Z.of_nat n = (k * Z.of_nat d)%Z.
Proof.
  intros Hd. destruct (Z.of_nat d) as [|p|p] eqn:E; [lia| |lia].
  unfold Qeq, Qdiv, Qmult, Qinv, inject_Z. cbn [Qnum Qden]. lia.
Qed.

(** X7.  The similarity is 1 exactly when the two sequences have the same
    non-empty set of tokens, and 0 exactly when they have no token in
    common. *)
Theorem jaccardSimilarity_extremes (a b : list jsstring) :
  let A : gset jsstring := list_to_set a in
  let B : gset jsstring := list_to_set b in
  ((jaccardSimilarity a b == 1)%Q ↔ A = B ∧ A ≠ ∅)
  ∧ ((jaccardSimilarity a b == 0)%Q ↔ A ∩ B = ∅).
Proof.
  intros A B. rewrite jaccardSimilarity_unfold. fold A B.
  pose proof (inter_size_le_l A B) as Hl. pose proof (inter_size_le_r A B) as Hr.
  destruct (size A + size B =? 0) eqn:E.
  - apply Nat.eqb_eq in E.
    assert (A = ∅) as HA by (apply leibniz_equiv, size_empty_inv; lia).
    split.
    + split; [discriminate | by intros [_ ?]].
    + split; [|done]. intros _. rewrite HA. apply (left_absorb_L _ _).
  - apply Nat.eqb_neq in E. split.
    + change 1%Q with (inject_Z 1). rewrite quotient_eq_Z by lia. split.
      * intros H2.
        assert (A ∩ B = A) as HA
          by (apply set_subseteq_size_eq; [apply intersection_subseteq_l | lia]).
        assert (A ∩ B = B) as HB
          by (apply set_subseteq_size_eq; [apply intersection_subseteq_r | lia]).
        split; [congruence|]. intros H0. rewrite H0, size_empty in *. lia.
      * intros [<- _]. rewrite (idemp_L (∩) A). lia.
    + change 0%Q with (inject_Z 0). rewrite quotient_eq_Z by lia. split.
      * intros H0. apply leibniz_equiv, size_empty_inv. lia.
      * intros ->. rewrite size_empty. lia.
Qed.

Lemma jaccardSimilarity_extremes_witness :
  (jaccardSimilarity [units "b"; units "a"; units "b"] [units "a"; units "b"] == 1)%Q
  ∧ (jaccardSimilarity [units "a"] [units "b"] == 0)%Q.
Proof.
  split.
  - apply (proj1 (jaccardSimilarity_extremes [units "b"; units "a"; units "b"]
                    [units "a"; units "b"])).
    split; vm_compute; [reflexivity | discriminate].
  - apply (proj2 (jaccardSimilarity_extremes [units "a"] [units "b"])).
    vm_compute. reflexivity.
Defined.

(** X10.  The alert that shows a result takes its tier from the label: it
    is the success tier exactly for an exact match, and otherwise the
    info, warning or error tier according to the band of the
    similarity. *)
Theorem severity_of_evaluateAnswer
    (lowerAt : jsstring → N → jsstring → jsstring) (model user : jsstring) :
  let s := jaccardSimilarity (tokenize lowerAt model) (tokenize lowerAt user) in
  let tier := severity (evaluateAnswer lowerAt model user) in
  (tier = success ↔ normalizeExact lowerAt model = normalizeExact lowerAt user)
  ∧ (tier = info ↔
       normalizeExact lowerAt model ≠ normalizeExact lowerAt user ∧ (0.8 <= s)%Q)
  ∧ (tier = warning ↔
       normalizeExact lowerAt model ≠ normalizeExact lowerAt user
       ∧ (0.5 <= s)%Q ∧ (s < 0.8)%Q)
  ∧ (tier = error ↔
       normalizeExact lowerAt model ≠ normalizeExact lowerAt user ∧ (s < 0.5)%Q).
Proof.
  intros s tier. unfold tier, evaluateAnswer. fold s.
  assert (H85 : (0.8 <= s)%Q → (0.5 <= s)%Q).
  { intros H. eapply Qle_trans; [|exact H]. discriminate. }
  destruct (decide _) as [Heq|Hne].
  { cbn. repeat split; try done; by intros [? _]. }
  destruct (Qle_bool 0.8 s) eqn:E8.
  { apply Qle_bool_iff in E8. cbn.
    repeat split; try done; try tauto.
    - by intros (_ & _ & ?%Qlt_not_le).
    - intros [_ Hlt]. exfalso. apply (Qlt_not_le _ _ Hlt). by apply H85. }
  assert (s < 0.8)%Q as Hlt8.
  { apply Qnot_le_lt. intros H%Qle_bool_iff. congruence. }
  destruct (Qle_bool 0.5 s) eqn:E5.
  { apply Qle_bool_iff in E5. cbn.
    repeat split; try done; try tauto.
    - by intros [_ ?%Qle_not_lt].
    - by intros [_ ?%Qlt_not_le]. }
  assert (s < 0.5)%Q as Hlt5.
  { apply Qnot_le_lt. intros H%Qle_bool_iff. congruence. }
  cbn. repeat split; try done; try tauto.
  - by intros [_ ?%Qle_not_lt].
  - by intros (_ & ?%Qle_not_lt & _).
Qed.

Lemma severity_of_evaluateAnswer_witness :
  severity (evaluateAnswer keepUnit (units "Don't.") (units "dont")) = success
  ∧ severity (evaluateAnswer keepUnit (units "a b") (units "a c")) = warning.
Proof.
  split.
  - apply (proj1 (severity_of_evaluateAnswer keepUnit (units "Don't.") (units "dont"))).
    vm_compute. reflexivity.
  - apply (proj1 (proj2 (proj2 (severity_of_evaluateAnswer keepUnit
                                  (units "a b") (units "a c"))))).
    split; [vm_compute; discriminate|]. split; vm_compute; [discriminate | reflexivity].
Defined.

(** ** The evaluator of the earlier files *)

Lemma concat_filter_units (class : N → bool) (s : jsstring) :
  concat (List.filter (Earlier.test class) (Earlier.splitUnits s))
  = List.filter class s.
Proof.
  unfold Earlier.splitUnits, Earlier.test.
  induction s as [|c s IH]; [done|]. simpl.
  rewrite orb_false_r. destruct (class c); simpl; by rewrite IH.
Qed.

Lemma concat_filter_not_units (class : N → bool) (s : jsstring) :
  concat (List.filter (λ c, negb (Earlier.test class c)) (Earlier.splitUnits s))
  = List.filter (λ c, negb (class c)) s.
Proof.
  unfold Earlier.splitUnits, Earlier.test.
  induction s as [|c s IH]; [done|]. simpl.
  rewrite orb_false_r. destruct (class c); simpl; by rewrite IH.
Qed.

Lemma earlier_normalizeExact (lowerAt : jsstring → N → jsstring → jsstring)
    (text : jsstring) :
  Earlier.normalizeExact lowerAt text = normalizeExact lowerAt text.
Proof.
  unfold Earlier.normalizeExact, normalizeExact, Earlier.isPunctuation.
  by rewrite concat_filter_not_units.
Qed.

Lemma earlier_tokenize (lowerAt : jsstring → N → jsstring → jsstring)
    (text : jsstring) :
  Earlier.tokenize lowerAt text = tokenizeSpec lowerAt text.
Proof.
  unfold Earlier.tokenize, tokenizeSpec.
  rewrite (map_ext _ (λ chunk, List.filter isTokenChar (toLowerCase lowerAt chunk)))
    by (intros; apply concat_filter_units).
  apply filter_ext. by intros [|? ?].
Qed.

(** The loop that collects the common tokens builds the intersection. *)
Lemma collect_common (B : gset jsstring) (l : list jsstring) (acc : gset jsstring) :
  fold_left (λ inter x, if bool_decide (x ∈ B) then {[x]} ∪ inter else inter) l acc
  = acc ∪ (list_to_set l ∩ B).
Proof.
  revert acc. induction l as [|x l IH]; intros acc; cbn [fold_left list_to_set].
  - apply set_eq. intros y.
    rewrite elem_of_union, elem_of_intersection, elem_of_empty. tauto.
  - rewrite IH. apply set_eq. intros y. case_bool_decide as Hx;
      rewrite !elem_of_union, !elem_of_intersection, ?elem_of_union,
        ?elem_of_singleton; [|split; [tauto|]; intros [?|[[->|?] ?]]; tauto].
    split; [intros [[->|?]|[? ?]]; tauto | tauto].
Qed.

Lemma earlier_jaccardSimilarity (xs ys : list jsstring) :
  Earlier.jaccardSimilarity xs ys = jaccardSimilarity xs ys.
Proof.
  rewrite jaccardSimilarity_unfold. unfold Earlier.jaccardSimilarity.
  rewrite collect_common, list_to_set_elements_L.
  by rewrite (left_id_L ∅ (∪)).
Qed.

(** X11.  The evaluator the later files rewrote grades as the one of the
    earlier files did: the two give the same similarity for every two
    token sequences, and for every model answer and user answer their
    messages open with the same mark, so that the alert has the same
    tier.  The later [tokenize] lowers the text before it splits it, which
    makes no difference under the two facts about [toLowerCase]. *)
Theorem evaluators_agree (lowerAt : jsstring → N → jsstring → jsstring)
    (no_space : ∀ before c after,
        (128 <= c)%N → isSpace c = false →
        Forall (λ x, isSpace x = false) (lowerAt before c after))
    (kept_anywhere : ∀ before after before' after' c,
        (128 <= c)%N → isSpace c = false →
        List.filter isTokenChar (lowerAt before c after)
        = List.filter isTokenChar (lowerAt before' c after'))
    (model user : jsstring) :
  Earlier.jaccardSimilarity (Earlier.tokenize lowerAt model)
    (Earlier.tokenize lowerAt user)
  = jaccardSimilarity (tokenize lowerAt model) (tokenize lowerAt user)
  ∧ severity (Earlier.evaluateAnswer lowerAt model user)
    = severity (evaluateAnswer lowerAt model user)
  ∧ (Earlier.evaluateAnswer lowerAt model user = exactText
     ↔ evaluateAnswer lowerAt model user = exactText).
Proof.
  assert (Hsim : Earlier.jaccardSimilarity (Earlier.tokenize lowerAt model)
                   (Earlier.tokenize lowerAt user)
                 = jaccardSimilarity (tokenize lowerAt model) (tokenize lowerAt user)).
  { rewrite earlier_jaccardSimilarity, !earlier_tokenize.
    by rewrite <- !(tokenize_tokenizeSpec lowerAt no_space kept_anywhere). }
  split; [exact Hsim|].
  unfold Earlier.evaluateAnswer, evaluateAnswer.
  rewrite Hsim, !earlier_normalizeExact.
  destruct (decide _); [done|].
  destruct (Qle_bool 0.8 _); [done|]. by destruct (Qle_bool 0.5 _).
Qed.

Lemma evaluators_agree_witness :
  severity (Earlier.evaluateAnswer lowerSample
              (units "The caf" ++ [201%N] ++ units " is open")
              (units "the  CAF" ++ [201%N] ++ units " was open"))
  = severity (evaluateAnswer lowerSample
                (units "The caf" ++ [201%N] ++ units " is open")
                (units "the  CAF" ++ [201%N] ++ units " was open")).
Proof.
  apply (proj1 (proj2 (evaluators_agree lowerSample lowerSample_no_space
                         lowerSample_kept _ _))).
Defined.

(** ** GrammarChecker: what is shown *)

Lemma indexed_nonempty (i : nat) (m : LTMatch) : indexed i m ≠ [].
Proof. unfold indexed. by intros [_ ?]%app_eq_nil. Qed.

Lemma formatMatch_nonempty (i : nat) (m : LTMatch) : formatMatch i m ≠ [].
Proof.
  unfold formatMatch. fold (indexed i m).
  pose proof (indexed_nonempty i m) as Hne.
  destruct (value <$> head (replacements m)) as [v|]; [|done].
  destruct (truthy v); [|done]. by intros [? _]%app_eq_nil.
Qed.

Lemma legacyLines_nonempty (i : nat) (m : LTMatch) :
  Forall (λ line, line ≠ []) (legacyLines i m).
Proof.
  unfold legacyLines. constructor; [apply indexed_nonempty|].
  destruct (replacements m); by repeat constructor.
Qed.

Lemma Forall_imap_all {A B} (P : B → Prop) (f : nat → A → B) (l : list A) :
  (∀ i x, P (f i x)) → Forall P (imap f l).
Proof.
  revert f. induction l as [|x l IH]; intros f Hf; cbn [imap]; [done|].
  constructor; [done|]. apply IH. intros. apply Hf.
Qed.

(** X12.  Whenever a grammar check returns, in either adapter, it
    returns at least one message and no message is the empty string: the
    grammar part of a result is never blank. *)
Theorem checkGrammar_never_blank (fetch : Request → FetchOutcome)
    (sentence : jsstring) (msgs : list jsstring) :
  (checkGrammar fetch sentence = Returns msgs →
     msgs ≠ [] ∧ Forall (λ line, line ≠ []) msgs)
  ∧ (Legacy.checkGrammar fetch sentence = Returns msgs →
       msgs ≠ [] ∧ Forall (λ line, line ≠ []) msgs).
Proof.
  unfold checkGrammar, Legacy.checkGrammar.
  destruct (fetch (grammarRequest sentence)) as [res|]; [|done].
  destruct (negb (ok res)).
  { split; intros [= <-]; (split; [done|]); by repeat constructor. }
  destruct (body res) as [json|]; [|done].
  destruct (matches json) as [|m ms] eqn:Hms.
  { split; intros [= <-]; (split; [done|]); by repeat constructor. }
  cbn [length Nat.eqb]. split; intros [= <-].
  - split; [done|]. apply (Forall_imap_all _ formatMatch (m :: ms)).
    intros. apply formatMatch_nonempty.
  - rewrite formatMatches_lines by done. split; [done|].
    apply Forall_concat, (Forall_imap_all _ legacyLines (m :: ms)).
    intros. apply legacyLines_nonempty.
Qed.

Lemma checkGrammar_never_blank_witness :
  ∃ msgs,
    checkGrammar (answering (successWith [findingDelete])) (units "the the")
    = Returns msgs
    ∧ msgs ≠ [] ∧ Forall (λ line, line ≠ []) msgs.
Proof.
  exists [units "1. Remove the repeated word"]. split; [by vm_compute|].
  apply (proj1 (checkGrammar_never_blank
                  (answering (successWith [findingDelete])) (units "the the") _)).
  by vm_compute.
Defined.

(** ** SessionController: the questions *)

Lemma randomPair_Some (u : Q) (pairs : list CorpusPair) (p : CorpusPair) :
  randomPair u pairs = Some p → p ∈ pairs.
Proof.
  unfold randomPair. destruct (length pairs =? 0); [done|].
  destruct (_ <? 0)%Z; [done|]. apply list_elem_of_lookup_2.
Qed.

Lemma pickNextQuestion_Some (u : Q) (pairs : list CorpusPair) (p : CorpusPair) :
  pickNextQuestion u pairs = Some p → p ∈ pairs.
Proof.
  unfold pickNextQuestion. destruct (length pairs =? 0); [done|].
  apply randomPair_Some.
Qed.

Lemma pickNextQuestion_member (u : Q) (pairs : list CorpusPair) :
  (0 <= u)%Q → (u < 1)%Q → pairs ≠ [] →
  ∃ p, pickNextQuestion u pairs = Some p ∧ p ∈ pairs.
Proof.
  intros H0 H1 Hne. unfold pickNextQuestion.
  destruct pairs as [|x pairs]; [done|]. cbn [length Nat.eqb].
  by apply randomPair_member.
Qed.

(** What a dispatched event that starts a check leaves to the
    continuation. *)
Lemma dispatch_started (lowerAt : jsstring → N → jsstring → jsstring)
    (e : UiEvent) (s s' : AppState) (w : Awaiting) :
  dispatch lowerAt e s = (s', Some w) →
  s' = setChecking true s ∧ checking s = false ∧ animating s = false
  ∧ loading s = false ∧ trim (userAnswer s) ≠ []
  ∧ frame s = Some (heldFrame w) ∧ heldCorpus w = corpus s
  ∧ heldAnswer w = userAnswer s
  ∧ heldEval w
    = evaluateAnswer lowerAt (eng (current (heldFrame w))) (userAnswer s).
Proof.
  unfold dispatch, interactiveShown, handleCheck. intros H.
  destruct (loading s); [done|]. destruct (animating s); [by rewrite andb_false_r in H|].
  destruct (frame s) as [f|] eqn:Hf; [|by destruct e].
  rewrite bool_decide_eq_true_2 in H by eauto. cbn [negb andb] in H.
  assert (checking s = false ∧
          (if negb (truthy (trim (userAnswer s))) then (s, None)
           else (setChecking true s,
                 Some {| heldFrame := f; heldCorpus := corpus (setChecking true s);
                         heldAnswer := userAnswer (setChecking true s);
                         heldEval := evaluateAnswer lowerAt (eng (current f))
                                       (userAnswer (setChecking true s)) |}))
          = (s', Some w)) as [Hc H'].
  { destruct e; [| |done]; by destruct (checking s). }
  destruct (trim (userAnswer s)) eqn:Ht; [done|]. cbn in H'.
  injection H' as <- <-. by repeat split.
Qed.

(** Splits an instance of [fromCorpus] and closes its parts. *)
Ltac corpus_solve :=
  repeat match goal with
         | |- _ ∧ _ => split
         | |- ∀ _, _ => intros ?
         end;
  repeat match goal with
         | H : _ ∈ [] |- _ => by apply not_elem_of_nil in H
         end;
  simplify_eq/=; try done; eauto.

Lemma fromCorpus_loaded (txt : jsstring) (u : Q) :
  fromCorpus (parseCorpus txt) (loaded txt u).
Proof.
  unfold fromCorpus, loaded, load. cbn [session awaited timeline].
  destruct (randomPair u (parseCorpus txt)) as [q|] eqn:Hq; cbn; corpus_solve.
  by eapply randomPair_Some.
Qed.

Lemma fromCorpus_step (lowerAt : jsstring → N → jsstring → jsstring)
    (pairs : list CorpusPair) (c c' : Config) :
  fromCorpus pairs c → step lowerAt c c' → fromCorpus pairs c'.
Proof.
  intros (Hcorp & Hframe & Hwait & Hto & Htl) Hstep.
  destruct Hstep as [c e s' ow Hd|c before w after outcome u Haw Hu0 Hu1
                    |c h s' d' tl Ha Hnone Heff|c tl s' d' Hsome Hdone];
    unfold fromCorpus; cbn [session awaited timeline].
  - destruct ow as [w|].
    + apply dispatch_started in Hd as (-> & _ & _ & _ & _ & Hf & Hw & _).
      assert (pairs ≠ []) as Hne.
      { intros ->. apply Hframe in Hf. by apply not_elem_of_nil in Hf. }
      assert (∀ w', w' ∈ awaited c ++ option_list (Some w) →
                    heldCorpus w' = pairs ∧ pairs ≠ []) as Hall.
      { intros w' [Hw'| ->%list_elem_of_singleton]%elem_of_app.
        - by apply Hwait.
        - by rewrite Hw, Hcorp. }
      cbn. corpus_solve; by apply Hall.
    + apply dispatch_cases in Hd as [[-> _]|[(_ & [? [=]] & _)|(v & -> & _)]];
        rewrite app_nil_r; by cbn.
  - assert (Hsub : ∀ w', w' ∈ before ++ after → w' ∈ awaited c).
    { intros w'. rewrite Haw, !elem_of_app, elem_of_cons. tauto. }
    assert (∀ w', w' ∈ before ++ after → heldCorpus w' = pairs ∧ pairs ≠ [])
      as Hall by (intros; by apply Hwait, Hsub).
    destruct (Hwait w) as [Hw Hne];
      [rewrite Haw, elem_of_app, elem_of_cons; tauto|].
    destruct outcome as [msgs|err]; cbn [handleCheckSettle];
      [unfold handleCheckResume;
       destruct (pickNextQuestion u (heldCorpus w)) as [q|] eqn:Hq|];
      cbn; corpus_solve; try (by apply Hall).
    rewrite <- Hw. by eapply pickNextQuestion_Some.
  - unfold layoutEffect in Heff. rewrite Ha in Heff. cbn in Heff.
    destruct (animFrom (session c)) as [f|];
      [|injection Heff as <- <- <-; cbn; corpus_solve; by destruct (Hwait _ ltac:(eassumption))].
    destruct (animTo (session c)) as [t|] eqn:Ht;
      [|injection Heff as <- <- <-; cbn; corpus_solve; by destruct (Hwait _ ltac:(eassumption))].
    destruct (h =? 0)%N; injection Heff as <- <- <-; cbn; corpus_solve;
      by destruct (Hwait _ ltac:(eassumption)).
  - unfold onComplete in Hdone. injection Hdone as <- <-. cbn. corpus_solve;
      by destruct (Hwait _ ltac:(eassumption)).
Qed.

Lemma fromCorpus_reachable (lowerAt : jsstring → N → jsstring → jsstring)
    (txt : jsstring) (u : Q) (c : Config) :
  rtc (step lowerAt) (loaded txt u) c → fromCorpus (parseCorpus txt) c.
Proof.
  revert c. apply rtc_ind_r.
  - apply fromCorpus_loaded.
  - intros c c' _ Hstep IH. by eapply fromCorpus_step.
Qed.

(** X14.  From the loading of the corpus on, the animated component keeps
    the parsed corpus as it is, every question on display is a pair of
    it, and the sampling of the next question cannot fail for a check that
    is awaited: the branch that aborts the advance is never taken. *)
Theorem questions_from_corpus (lowerAt : jsstring → N → jsstring → jsstring)
    (txt : jsstring) (u : Q) (c : Config) :
  rtc (step lowerAt) (loaded txt u) c →
  corpus (session c) = parseCorpus txt
  ∧ (∀ f, frame (session c) = Some f → current f ∈ parseCorpus txt)
  ∧ (∀ w u', w ∈ awaited c → (0 <= u')%Q → (u' < 1)%Q →
       ∃ q, pickNextQuestion u' (heldCorpus w) = Some q ∧ q ∈ parseCorpus txt).
Proof.
  intros (Hcorp & Hframe & Hwait & _)%fromCorpus_reachable.
  split; [done|]. split; [done|].
  intros w u' Hw Hu0 Hu1. destruct (Hwait w Hw) as [Hheld Hne].
  rewrite Hheld. by apply pickNextQuestion_member.
Qed.

Lemma submittedConfig_reachable :
  rtc (step keepUnit) (loaded sampleTsv 0) submittedConfig.
Proof.
  apply rtc_l with {| session := readyState; dom := cleanDom; awaited := [];
                      timeline := None |}.
  { exact (step_event keepUnit (loaded sampleTsv 0) (ChangeAnswer (units "hello"))
             readyState None eq_refl). }
  apply rtc_once.
  exact (step_event keepUnit
           {| session := readyState; dom := cleanDom; awaited := [];
              timeline := None |}
           CtrlEnter (setChecking true readyState)
           (Some {| heldFrame := welcomeFrame; heldCorpus := [helloPair; byePair];
                    heldAnswer := units "hello"; heldEval := exactText |})
           eq_refl).
Qed.

Lemma questions_from_corpus_witness :
  corpus (session submittedConfig) = parseCorpus sampleTsv
  ∧ ∀ w, w ∈ awaited submittedConfig →
      ∃ q, pickNextQuestion (1 # 2) (heldCorpus w) = Some q
           ∧ q ∈ parseCorpus sampleTsv.
Proof.
  destruct (questions_from_corpus keepUnit sampleTsv 0 submittedConfig
              submittedConfig_reachable) as (Hcorpus & _ & Hpick).
  split; [exact Hcorpus|]. intros w Hw. by apply (Hpick w (1 # 2) Hw).
Defined.

(** ** SessionController: cycles *)

(** X15.  From the loading of the corpus on, the animated component has
    at most one cycle in flight: at most one check is awaited, and then
    the session is checking and no transition runs; while a transition
    runs the session is checking and awaits nothing; a session that is
    not checking has nothing in flight. *)
Theorem one_cycle_in_flight (lowerAt : jsstring → N → jsstring → jsstring)
    (txt : jsstring) (u : Q) (c : Config) :
  rtc (step lowerAt) (loaded txt u) c →
  length (awaited c) ≤ 1
  ∧ (awaited c ≠ [] →
       checking (session c) = true ∧ animating (session c) = false
       ∧ timeline c = None)
  ∧ (animating (session c) = true →
       checking (session c) = true ∧ awaited c = [])
  ∧ (timeline c ≠ None → animating (session c) = true)
  ∧ (checking (session c) = false →
       awaited c = [] ∧ animating (session c) = false ∧ timeline c = None).
Proof.
  intros (Hlen & Hwait & Hanim & Htl)%oneCycle_reachable.
  assert (Htl' : timeline c ≠ None → animating (session c) = true).
  { destruct (timeline c) as [tl|]; [|done]. intros _. by apply (Htl tl). }
  assert (Hidle : animating (session c) = false → timeline c = None).
  { intros Ha. destruct (timeline c) as [tl|] eqn:E; [|done].
    rewrite Htl' in Ha; done. }
  split; [done|]. split; [|split; [|split; [done|]]].
  - intros Hne. destruct (Hwait Hne) as [Hc Ha]. by auto.
  - intros Ha. by destruct (Hanim Ha) as (? & ? & _).
  - intros Hc.
    assert (awaited c = []) as Hnil.
    { destruct (awaited c) eqn:E; [done|].
      destruct Hwait as [Hc' _]; [done|]. congruence. }
    assert (animating (session c) = false) as Ha.
    { destruct (animating (session c)) eqn:E; [|done].
      destruct (Hanim eq_refl) as [Hc' _]. congruence. }
    by auto.
Qed.

Lemma one_cycle_in_flight_witness :
  length (awaited submittedConfig) ≤ 1
  ∧ checking (session submittedConfig) = true.
Proof.
  destruct (one_cycle_in_flight keepUnit sampleTsv 0 submittedConfig
              submittedConfig_reachable) as (Hlen & Hwait & _).
  split; [exact Hlen|]. by apply Hwait.
Defined.

(** X16.  A whole cycle of the animated component.  A submit, by the key
    or by the button, from a session that shows a question, is not
    checking and holds a non-blank answer, starts a check; once the check
    has returned and the transition has run to its end, by the fallback
    or by the timeline, the session shows a pair of the corpus as the new
    question, above it the result for the question just answered, with
    the answer as it was when submitted and the label of that answer; the
    input buffer is empty, nothing is in flight, and the corpus is as
    before.  Text typed while the check was awaited is in neither. *)
Theorem cycle_commits (lowerAt : jsstring → N → jsstring → jsstring)
    (e : UiEvent) (s : AppState) (f : FrameState) (u : Q) :
  e = CtrlEnter ∨ e = ClickSubmit →
  interactiveShown s = true → checking s = false → frame s = Some f →
  trim (userAnswer s) ≠ [] → corpus s ≠ [] → (0 <= u)%Q → (u < 1)%Q →
  ∃ w q, dispatch lowerAt e s = (setChecking true s, Some w)
    ∧ q ∈ corpus s
    ∧ ∀ typed msgs h d,
        commit h
          (handleCheckSettle w (Returns msgs) u
             (setUserAnswer typed (setChecking true s))) d
        = {| corpus := corpus s;
             frame :=
               Some {| lastResult :=
                         Some {| lastJpn := jpn (current f);
                                 lastEng := eng (current f);
                                 lastUserAnswer := userAnswer s;
                                 evalText :=
                                   evaluateAnswer lowerAt (eng (current f))
                                     (userAnswer s);
                                 grammarMessages := msgs |};
                       current := q |};
             loading := false; userAnswer := []; checking := false;
             animating := false; animFrom := None; animTo := None |}.
Proof.
  intros He Hshown Hc Hf Hans Hcorp Hu0 Hu1.
  destruct (pickNextQuestion_member u (corpus s) Hu0 Hu1 Hcorp) as (q & Hq & Hin).
  assert (loading s = false) as Hl.
  { unfold interactiveShown in Hshown. by destruct (loading s). }
  eexists _, q. split; [|split; [exact Hin|]].
  - unfold dispatch, handleCheck. rewrite Hshown, Hc, Hf. cbn [negb].
    destruct (trim (userAnswer s)); [done|]. cbn [truthy negb].
    by destruct He as [-> | ->].
  - intros typed msgs h d.
    unfold commit, handleCheckSettle, handleCheckResume, layoutEffect.
    cbn. rewrite Hq. cbn.
    destruct (h =? 0)%N; destruct s; cbn in *; by subst.
Qed.

Lemma cycle_commits_witness :
  ∃ w q, dispatch keepUnit CtrlEnter readyState
         = (setChecking true readyState, Some w)
    ∧ q ∈ [helloPair; byePair]
    ∧ userAnswer
        (commit 480
           (handleCheckSettle w (Returns [noIssues]) (1 # 2)
              (setUserAnswer (units "hello again") (setChecking true readyState)))
           cleanDom)
      = [].
Proof.
  destruct (cycle_commits keepUnit CtrlEnter readyState welcomeFrame (1 # 2)
              (or_introl eq_refl) eq_refl eq_refl eq_refl
              ltac:(vm_compute; discriminate) ltac:(discriminate)
              ltac:(discriminate) eq_refl)
    as (w & q & Hstart & Hin & Hend).
  exists w, q. split; [exact Hstart|]. split; [exact Hin|].
  by rewrite Hend.
Defined.

(** ** SessionController: when nothing can be done *)

Lemma blocked_step (lowerAt : jsstring → N → jsstring → jsstring)
    (c c' : Config) :
  blocked c → step lowerAt c c' →
  blocked c' ∧ frame (session c') = frame (session c).
Proof.
  intros (Hc & Ha & Hnil & Htl) Hstep.
  destruct Hstep as [c e s' ow Hd|c before w after outcome u Haw Hu0 Hu1
                    |c h s' d' tl Ha' Hnone Heff|c tl s' d' Hsome Hdone].
  - unfold blocked. cbn [session awaited timeline].
    apply dispatch_cases in Hd as [[-> ->]|[(_ & _ & Hc' & _)|(v & -> & ->)]];
      [|congruence|]; by rewrite Hnil.
  - rewrite Hnil in Haw. by destruct before.
  - congruence.
  - congruence.
Qed.

Lemma blocked_reachable (lowerAt : jsstring → N → jsstring → jsstring)
    (c c' : Config) :
  blocked c → rtc (step lowerAt) c c' →
  blocked c' ∧ frame (session c') = frame (session c).
Proof.
  intros Hb Hsteps. induction Hsteps as [c|c c1 c' Hstep Hsteps IH]; [done|].
  destruct (blocked_step lowerAt c c1 Hb Hstep) as [Hb1 Hf1].
  destruct (IH Hb1) as [Hb' Hf']. split; [done | congruence].
Qed.

(** X17.  When the check that is awaited raises (no response arrives, or
    the body of a response does not parse), the animated component stays
    in its checking state for good: whatever happens afterwards, the
    checking flag stays set, the frame stays the one that was submitted,
    nothing is in flight, and a submit by the key or by the button does
    nothing. *)
Theorem check_failure_blocks (lowerAt : jsstring → N → jsstring → jsstring)
    (txt : jsstring) (u u' : Q) (c c' : Config)
    (before after : list Awaiting) (w : Awaiting) (err : Failure) :
  rtc (step lowerAt) (loaded txt u) c →
  awaited c = before ++ w :: after →
  rtc (step lowerAt)
    {| session := handleCheckSettle w (Throws err) u' (session c);
       dom := dom c; awaited := before ++ after; timeline := timeline c |}
    c' →
  checking (session c') = true ∧ animating (session c') = false
  ∧ awaited c' = [] ∧ timeline c' = None
  ∧ frame (session c') = frame (session c)
  ∧ dispatch lowerAt CtrlEnter (session c') = (session c', None)
  ∧ dispatch lowerAt ClickSubmit (session c') = (session c', None).
Proof.
  intros (Hlen & Hwait & Hanim & Htl)%oneCycle_reachable Haw Hsteps.
  assert (before = [] ∧ after = []) as [-> ->].
  { rewrite Haw, length_app in Hlen. cbn in Hlen.
    destruct before, after; cbn in Hlen; (done || lia). }
  destruct Hwait as [Hc Ha]; [by rewrite Haw|].
  assert (timeline c = None) as Hnone.
  { destruct (timeline c) as [tl|] eqn:E; [|done].
    destruct (Htl tl eq_refl) as [Ha' _]. congruence. }
  apply blocked_reachable in Hsteps as [(Hc' & Ha' & Hnil & Hnone') Hf];
    [|by unfold blocked].
  cbn in Hf. repeat split; try done; apply dispatch_gated; by auto.
Qed.

Lemma check_failure_blocks_witness :
  dispatch keepUnit CtrlEnter (setChecking true readyState)
  = (setChecking true readyState, None)
  ∧ checking (setChecking true readyState) = true.
Proof.
  destruct (check_failure_blocks keepUnit sampleTsv 0 (1 # 2) submittedConfig
              {| session := setChecking true readyState; dom := cleanDom;
                 awaited := []; timeline := None |}
              [] [] _ NetworkError submittedConfig_reachable eq_refl
              (rtc_refl _ _))
    as (Hc & _ & _ & _ & _ & Hkey & _).
  split; [exact Hkey | exact Hc].
Defined.

Lemma stuck_step (lowerAt : jsstring → N → jsstring → jsstring) (c c' : Config) :
  frame (session c) = None → animating (session c) = false →
  awaited c = [] → timeline c = None →
  step lowerAt c c' → c' = c.
Proof.
  intros Hf Ha Hnil Htl Hstep.
  destruct Hstep as [c e s' ow Hd|c before w after outcome u Haw Hu0 Hu1
                    |c h s' d' tl Ha' Hnone Heff|c tl s' d' Hsome Hdone].
  - unfold dispatch, interactiveShown in Hd. rewrite Hf in Hd.
    rewrite bool_decide_eq_false_2 in Hd by (by intros [? ?]).
    rewrite andb_false_r in Hd. injection Hd as <- <-.
    destruct c. cbn in *. by rewrite app_nil_r.
  - rewrite Hnil in Haw. by destruct before.
  - congruence.
  - congruence.
Qed.

(** X13.  How the loading of the corpus ends in the animated component.
    The progress indicator is cleared in every case.  When the text does
    not arrive, or holds no usable line, no frame is set: the component
    shows nothing but the progress indicator, and no event changes
    anything.  When the text holds a usable line, the first frame shows a
    pair of the corpus and no result, and the component accepts input. *)
Theorem load_outcome (fetched : option jsstring) (u : Q) :
  loading (loadEffect fetched u initialState) = false
  ∧ ((fetched = None ∨ ∃ txt, fetched = Some txt ∧ parseCorpus txt = []) →
       frame (loadEffect fetched u initialState) = None
       ∧ interactiveShown (loadEffect fetched u initialState) = false
       ∧ ∀ lowerAt c, rtc (step lowerAt) (settled fetched u) c →
           c = settled fetched u)
  ∧ (∀ txt, fetched = Some txt → parseCorpus txt ≠ [] →
       (0 <= u)%Q → (u < 1)%Q →
       ∃ q, q ∈ parseCorpus txt
         ∧ loadEffect fetched u initialState
           = {| corpus := parseCorpus txt;
                frame := Some {| lastResult := None; current := q |};
                loading := false; userAnswer := []; checking := false;
                animating := false; animFrom := None; animTo := None |}
         ∧ interactiveShown (loadEffect fetched u initialState) = true).
Proof.
  split; [|split].
  - destruct fetched as [txt|]; [|done]. unfold loadEffect, load.
    by destruct (randomPair u (parseCorpus txt)).
  - intros Hbad.
    assert (frame (loadEffect fetched u initialState) = None
            ∧ animating (loadEffect fetched u initialState) = false) as [Hf Ha].
    { destruct Hbad as [->|(txt & -> & Hnil)]; [done|].
      unfold loadEffect, load. by rewrite Hnil. }
    split; [done|]. split.
    { unfold interactiveShown. rewrite Hf.
      rewrite bool_decide_eq_false_2 by (by intros [? ?]).
      by rewrite andb_false_r. }
    intros lowerAt. apply rtc_ind_r; [done|].
    intros c c' _ Hstep ->. by eapply stuck_step.
  - intros txt -> Hne Hu0 Hu1.
    destruct (randomPair_member u (parseCorpus txt) Hu0 Hu1 Hne) as (q & Hq & Hin).
    exists q. split; [done|]. unfold loadEffect, load. by rewrite Hq.
Qed.

Lemma load_outcome_witness :
  (∀ c, rtc (step keepUnit) (settled (Some (units "no tabs here")) 0) c →
        c = settled (Some (units "no tabs here")) 0)
  ∧ ∃ q, q ∈ parseCorpus sampleTsv
      ∧ interactiveShown (loadEffect (Some sampleTsv) (1 # 2) initialState) = true.
Proof.
  split.
  - apply (proj1 (proj2 (load_outcome (Some (units "no tabs here")) 0))).
    right. by exists (units "no tabs here").
  - destruct (proj2 (proj2 (load_outcome (Some sampleTsv) (1 # 2)))
                sampleTsv eq_refl ltac:(vm_compute; discriminate)
                ltac:(discriminate) eq_refl) as (q & Hin & _ & Hshown).
    by exists q.
Defined.

(** ** The cycle of [src/App.tsx] *)

(** X18.  A whole cycle of the component of [src/App.tsx].  A submit
    from a session that shows a question, is not checking and holds a
    non-blank answer starts a check; when the check returns, the result
    for the question just answered is stored, with the answer as it was
    when submitted, a pair of the corpus becomes the question, the input
    buffer is emptied and the checking flag is cleared. *)
Theorem appTsx_cycle_advances (lowerAt : jsstring → N → jsstring → jsstring)
    (e : UiEvent) (s : AppTsx.State) (c : CorpusPair) (u : Q) :
  e = CtrlEnter ∨ e = ClickSubmit →
  AppTsx.mainShown s = true → AppTsx.checking s = false →
  AppTsx.current s = Some c → trim (AppTsx.userAnswer s) ≠ [] →
  AppTsx.corpus s ≠ [] → (0 <= u)%Q → (u < 1)%Q →
  ∃ w q, AppTsx.dispatch lowerAt e s = (AppTsx.setChecking true s, Some w)
    ∧ q ∈ AppTsx.corpus s
    ∧ ∀ typed msgs,
        AppTsx.handleCheckResume w msgs u
          (AppTsx.setUserAnswer typed (AppTsx.setChecking true s))
        = {| AppTsx.corpus := AppTsx.corpus s;
             AppTsx.current := Some q;
             AppTsx.loading := false;
             AppTsx.lastResult :=
               Some {| lastJpn := jpn c; lastEng := eng c;
                       lastUserAnswer := AppTsx.userAnswer s;
                       evalText :=
                         evaluateAnswer lowerAt (eng c) (AppTsx.userAnswer s);
                       grammarMessages := msgs |};
             AppTsx.userAnswer := [];
             AppTsx.checking := false |}.
Proof.
  intros He Hshown Hc Hcur Hans Hcorp Hu0 Hu1.
  destruct (randomPair_member u (AppTsx.corpus s) Hu0 Hu1 Hcorp) as (q & Hq & Hin).
  assert (AppTsx.loading s = false) as Hl.
  { unfold AppTsx.mainShown in Hshown. by destruct (AppTsx.loading s). }
  eexists _, q. split; [|split; [exact Hin|]].
  - unfold AppTsx.dispatch, AppTsx.handleCheck. rewrite Hshown, Hc, Hcur. cbn [negb].
    destruct (trim (AppTsx.userAnswer s)); [done|]. cbn [truthy negb].
    by destruct He as [-> | ->].
  - intros typed msgs.
    unfold AppTsx.handleCheckResume, AppTsx.nextQuestion. cbn.
    destruct (AppTsx.corpus s) eqn:E; [done|]. cbn [length Nat.eqb].
    rewrite Hq. destruct s; cbn in *; by subst.
Qed.

Lemma appTsx_cycle_advances_witness :
  ∃ w q, AppTsx.dispatch keepUnit ClickSubmit idleState
         = (AppTsx.setChecking true idleState, Some w)
    ∧ q ∈ [helloPair; byePair]
    ∧ AppTsx.userAnswer
        (AppTsx.handleCheckResume w [noIssues] (1 # 2)
           (AppTsx.setUserAnswer (units "hello") (AppTsx.setChecking true idleState)))
      = [].
Proof.
  destruct (appTsx_cycle_advances keepUnit ClickSubmit idleState helloPair (1 # 2)
              (or_intror eq_refl) eq_refl eq_refl eq_refl
              ltac:(vm_compute; discriminate) ltac:(discriminate)
              ltac:(discriminate) eq_refl)
    as (w & q & Hstart & Hin & Hend).
  exists w, q. split; [exact Hstart|]. split; [exact Hin|].
  by rewrite Hend.
Defined.

(** ** The session of the earlier component *)

(** X20.  What a submit does in the earlier component, from a session
    that shows a question and is not checking.  On a blank answer it
    starts nothing and sets the warning that asks for a translation.
    Otherwise it clears the warning and starts a check.  When the check
    raises, the warning carries the message of the error, the checking
    flag is cleared, and the question, the result shown and the input are
    left as they are, so that the answer can be submitted again.  When
    the check returns, the result for the question just answered is
    stored, a pair of the corpus becomes the question, the input and the
    warning are cleared and the checking flag is cleared. *)
Theorem earlier_check_settles (lowerAt : jsstring → N → jsstring → jsstring)
    (messageOf : Failure → jsstring)
    (e : UiEvent) (s : Earlier.State) (c : CorpusPair) :
  e = CtrlEnter ∨ e = ClickSubmit →
  Earlier.mainShown s = true → Earlier.checking s = false →
  Earlier.current s = Some c →
  (trim (Earlier.userAnswer s) = [] →
     Earlier.dispatch lowerAt e s
     = (Earlier.setGeneralError (Some Earlier.blankAnswer) s, None))
  ∧ (trim (Earlier.userAnswer s) ≠ [] →
       ∃ w, Earlier.dispatch lowerAt e s
            = (Earlier.setChecking true (Earlier.setGeneralError None s), Some w)
         ∧ (∀ typed err u,
              Earlier.handleCheckSettle messageOf w (Throws err) u
                (Earlier.setUserAnswer typed
                   (Earlier.setChecking true (Earlier.setGeneralError None s)))
              = Earlier.setGeneralError
                  (Some (Earlier.grammarErrorPrefix ++ messageOf err))
                  (Earlier.setUserAnswer typed s))
         ∧ (∀ typed msgs u,
              (0 <= u)%Q → (u < 1)%Q → Earlier.corpus s ≠ [] →
              ∃ q, q ∈ Earlier.corpus s
                ∧ Earlier.handleCheckSettle messageOf w (Returns msgs) u
                    (Earlier.setUserAnswer typed
                       (Earlier.setChecking true (Earlier.setGeneralError None s)))
                  = {| Earlier.corpus := Earlier.corpus s;
                       Earlier.current := Some q;
                       Earlier.loadingCorpus := false;
                       Earlier.corpusError := Earlier.corpusError s;
                       Earlier.userAnswer := [];
                       Earlier.checking := false;
                       Earlier.lastResult :=
                         Some {| lastJpn := jpn c; lastEng := eng c;
                                 lastUserAnswer := Earlier.userAnswer s;
                                 evalText :=
                                   Earlier.evaluateAnswer lowerAt (eng c)
                                     (Earlier.userAnswer s);
                                 grammarMessages := msgs |};
                       Earlier.generalError := None |})).
Proof.
  intros He Hshown Hc Hcur.
  assert (Earlier.loadingCorpus s = false) as Hl.
  { unfold Earlier.mainShown in Hshown. by destruct (Earlier.loadingCorpus s). }
  unfold Earlier.dispatch, Earlier.handleCheck. rewrite Hshown, Hc, Hcur. cbn [negb].
  split.
  - intros ->. by destruct He as [-> | ->].
  - intros Hans. destruct (trim (Earlier.userAnswer s)) eqn:Ht; [done|].
    cbn [truthy negb]. eexists. split; [by destruct He as [-> | ->]|]. split.
    + intros typed err u. destruct s; cbn in *. by subst.
    + intros typed msgs u Hu0 Hu1 Hcorp.
      destruct (randomPair_member u (Earlier.corpus s) Hu0 Hu1 Hcorp)
        as (q & Hq & Hin).
      exists q. split; [done|].
      unfold Earlier.handleCheckSettle, Earlier.gotoNextQuestion. cbn.
      destruct (Earlier.corpus s) eqn:E; [done|]. cbn [length Nat.eqb].
      rewrite Hq. destruct s; cbn in *; by subst.
Qed.

Lemma earlier_check_settles_witness :
  ∃ w, Earlier.dispatch keepUnit CtrlEnter earlierReady
       = (Earlier.setChecking true (Earlier.setGeneralError None earlierReady),
          Some w)
    ∧ Earlier.handleCheckSettle browserMessage w (Throws NetworkError) (1 # 2)
        (Earlier.setUserAnswer (units "hello")
           (Earlier.setChecking true (Earlier.setGeneralError None earlierReady)))
      = Earlier.setGeneralError
          (Some (Earlier.grammarErrorPrefix ++ units "Failed to fetch"))
          earlierReady.
Proof.
  destruct (proj2 (earlier_check_settles keepUnit browserMessage CtrlEnter
                     earlierReady helloPair (or_introl eq_refl)
                     eq_refl eq_refl eq_refl)
              ltac:(vm_compute; discriminate))
    as (w & Hstart & Hraise & _).
  exists w. split; [exact Hstart|].
  exact (Hraise (units "hello") NetworkError (1 # 2)).
Defined.

Lemma earlier_dispatch_cases (lowerAt : jsstring → N → jsstring → jsstring)
    (e : UiEvent) (s s' : Earlier.State) (ow : option Earlier.Awaiting) :
  Earlier.dispatch lowerAt e s = (s', ow) →
  (Earlier.checking s' = Earlier.checking s ∧ ow = None)
  ∨ (Earlier.checking s = false ∧ Earlier.checking s' = true ∧ is_Some ow).
Proof.
  unfold Earlier.dispatch, Earlier.handleCheck. intros H.
  destruct (negb _); [injection H as <- <-; by left|].
  destruct e as [| |v].
  - destruct (Earlier.checking s) eqn:Ec; [injection H as <- <-; by left|].
    destruct (Earlier.current s); [|injection H as <- <-; by left].
    destruct (negb (truthy _)); injection H as <- <-; [by left|].
    right. by eauto.
  - destruct (Earlier.checking s) eqn:Ec; [injection H as <- <-; by left|].
    destruct (Earlier.current s); [|injection H as <- <-; by left].
    destruct (negb (truthy _)); injection H as <- <-; [by left|].
    right. by eauto.
  - injection H as <- <-. by left.
Qed.

Lemma earlier_load_not_checking
    (fetched : Earlier.Settled Earlier.CorpusResponse) (u : Q) :
  Earlier.checking (Earlier.load fetched u Earlier.initialState) = false.
Proof.
  unfold Earlier.load. destruct fetched as [res|message]; [|done].
  destruct (negb (Earlier.corpusOk res)); [done|].
  destruct (Earlier.corpusText res); [|done].
  by destruct (length _ =? 0).
Qed.

(** X21.  In the earlier component the checking flag is set exactly
    while a check is awaited, and at most one check is awaited at a time:
    whatever a check ends in, the flag is cleared with it, and the
    component accepts the next submit. *)
Theorem earlier_flag_tracks_check
    (lowerAt : jsstring → N → jsstring → jsstring)
    (messageOf : Failure → jsstring)
    (fetched : Earlier.Settled Earlier.CorpusResponse) (u : Q)
    (c : Earlier.Config) :
  rtc (Earlier.step lowerAt messageOf)
    {| Earlier.session := Earlier.load fetched u Earlier.initialState;
       Earlier.awaited := [] |} c →
  length (Earlier.awaited c) ≤ 1
  ∧ (Earlier.checking (Earlier.session c) = true ↔ Earlier.awaited c ≠ []).
Proof.
  revert c. apply rtc_ind_r.
  - cbn [Earlier.session Earlier.awaited length]. split; [lia|].
    rewrite earlier_load_not_checking. by split.
  - intros c c' _ Hstep [Hlen Hflag].
    destruct Hstep as [c e s' ow Hd|c before w after outcome u' Haw Hu0 Hu1];
      cbn [Earlier.session Earlier.awaited].
    + apply earlier_dispatch_cases in Hd as [[Hc ->]|(Hc & Hc' & [w ->])].
      * by rewrite app_nil_r, Hc.
      * assert (Earlier.awaited c = []) as ->.
        { destruct (Earlier.awaited c) eqn:E; [done|].
          destruct Hflag as [_ Hflag]. rewrite Hflag in Hc; done. }
        cbn. split; [lia|]. by rewrite Hc'.
    + assert (before = [] ∧ after = []) as [-> ->].
      { rewrite Haw, length_app in Hlen. cbn in Hlen.
        destruct before, after; cbn in Hlen; (done || lia). }
      cbn. split; [lia|]. split; [|done].
      unfold Earlier.handleCheckSettle. by destruct outcome.
Qed.

Lemma earlierSubmitted_reachable :
  rtc (Earlier.step keepUnit browserMessage)
    {| Earlier.session :=
         Earlier.load (Earlier.Fulfilled corpusFound) 0 Earlier.initialState;
       Earlier.awaited := [] |}
    earlierSubmitted.
Proof.
  apply rtc_l with {| Earlier.session := earlierReady; Earlier.awaited := [] |}.
  { exact (Earlier.step_event keepUnit browserMessage
             {| Earlier.session :=
                  Earlier.load (Earlier.Fulfilled corpusFound) 0
                    Earlier.initialState;
                Earlier.awaited := [] |}
             (ChangeAnswer (units "hello")) earlierReady None eq_refl). }
  apply rtc_once.
  exact (Earlier.step_event keepUnit browserMessage
           {| Earlier.session := earlierReady; Earlier.awaited := [] |}
           CtrlEnter
           (Earlier.setChecking true (Earlier.setGeneralError None earlierReady))
           (Some {| Earlier.heldCurrent := helloPair;
                    Earlier.heldCorpus := [helloPair; byePair];
                    Earlier.heldAnswer := units "hello";
                    Earlier.heldEval := exactText |})
           eq_refl).
Qed.

Lemma earlier_flag_tracks_check_witness :
  length (Earlier.awaited earlierSubmitted) ≤ 1
  ∧ Earlier.checking (Earlier.session earlierSubmitted) = true.
Proof.
  destruct (earlier_flag_tracks_check keepUnit browserMessage
              (Earlier.Fulfilled corpusFound) 0 earlierSubmitted
              earlierSubmitted_reachable) as [Hlen Hflag].
  split; [exact Hlen|]. by apply Hflag.
Defined.

(** X19.  How the loading of the corpus ends in the earlier component.
    The progress indicator is cleared in every case.  The main view is
    shown exactly when a success response arrived whose text holds a
    usable line, and then the question is a pair of the parsed corpus.
    In every other case no question is set and the corpus error holds
    the prefix followed by a reason: the message of what was raised, the
    status of a response that is not a success, or the message for a
    corpus without a usable line. *)
Theorem earlier_load_outcome
    (fetched : Earlier.Settled Earlier.CorpusResponse) (u : Q) :
  (0 <= u)%Q → (u < 1)%Q →
  let final := Earlier.load fetched u Earlier.initialState in
  let usable :=
    ∃ res text, fetched = Earlier.Fulfilled res ∧ Earlier.corpusOk res = true
      ∧ Earlier.corpusText res = Earlier.Fulfilled text ∧ parseCorpus text ≠ [] in
  Earlier.loadingCorpus final = false
  ∧ (Earlier.mainShown final = true ↔ usable)
  ∧ (∀ res text, fetched = Earlier.Fulfilled res → Earlier.corpusOk res = true →
       Earlier.corpusText res = Earlier.Fulfilled text → parseCorpus text ≠ [] →
       Earlier.corpusError final = None
       ∧ Earlier.corpus final = parseCorpus text
       ∧ ∃ q, Earlier.current final = Some q ∧ q ∈ parseCorpus text)
  ∧ (¬ usable →
       Earlier.current final = None
       ∧ ∃ reason,
           Earlier.corpusError final = Some (Earlier.corpusErrorPrefix ++ reason)
           ∧ ((∃ res, fetched = Earlier.Fulfilled res
                 ∧ Earlier.corpusOk res = false
                 ∧ reason = units "HTTP " ++ decimal (Earlier.corpusStatus res)
                            ++ units " " ++ Earlier.corpusStatusText res)
              ∨ (∃ res text, fetched = Earlier.Fulfilled res
                   ∧ Earlier.corpusOk res = true
                   ∧ Earlier.corpusText res = Earlier.Fulfilled text
                   ∧ parseCorpus text = [] ∧ reason = Earlier.noUsableLine)
              ∨ fetched = Earlier.Raised reason
              ∨ (∃ res, fetched = Earlier.Fulfilled res
                   ∧ Earlier.corpusText res = Earlier.Raised reason))).
Proof.
  intros Hu0 Hu1 final usable.
  assert (Hgood : ∀ res text, fetched = Earlier.Fulfilled res →
            Earlier.corpusOk res = true →
            Earlier.corpusText res = Earlier.Fulfilled text →
            parseCorpus text ≠ [] →
            ∃ q, q ∈ parseCorpus text
              ∧ final = {| Earlier.corpus := parseCorpus text;
                           Earlier.current := Some q;
                           Earlier.loadingCorpus := false;
                           Earlier.corpusError := None;
                           Earlier.userAnswer := [];
                           Earlier.checking := false;
                           Earlier.lastResult := None;
                           Earlier.generalError := None |}).
  { intros res text -> Hok Htext Hne. unfold final, Earlier.load.
    rewrite Hok, Htext. cbn [negb].
    destruct (randomPair_member u (parseCorpus text) Hu0 Hu1 Hne) as (q & Hq & Hin).
    destruct (parseCorpus text) eqn:E; [done|]. cbn [length Nat.eqb].
    rewrite Hq. by exists q. }
  assert (Hbad : ¬ usable →
            Earlier.loadingCorpus final = false ∧ Earlier.mainShown final = false
            ∧ Earlier.current final = None
            ∧ ∃ reason,
                Earlier.corpusError final
                = Some (Earlier.corpusErrorPrefix ++ reason)
                ∧ ((∃ res, fetched = Earlier.Fulfilled res
                      ∧ Earlier.corpusOk res = false
                      ∧ reason = units "HTTP " ++ decimal (Earlier.corpusStatus res)
                                 ++ units " " ++ Earlier.corpusStatusText res)
                   ∨ (∃ res text, fetched = Earlier.Fulfilled res
                        ∧ Earlier.corpusOk res = true
                        ∧ Earlier.corpusText res = Earlier.Fulfilled text
                        ∧ parseCorpus text = [] ∧ reason = Earlier.noUsableLine)
                   ∨ fetched = Earlier.Raised reason
                   ∨ (∃ res, fetched = Earlier.Fulfilled res
                        ∧ Earlier.corpusText res = Earlier.Raised reason))).
  { intros Hnot. unfold final, Earlier.load.
    destruct fetched as [res|message].
    2:{ repeat split. eexists. split; [done|]. by auto. }
    destruct (Earlier.corpusOk res) eqn:Hok; cbn [negb].
    2:{ repeat split. eexists. split; [done|]. left. by eauto. }
    destruct (Earlier.corpusText res) as [text|message] eqn:Htext.
    2:{ repeat split. eexists. split; [done|]. do 3 right. by eauto. }
    destruct (parseCorpus text) eqn:Hparse.
    2:{ exfalso. apply Hnot. exists res, text. by rewrite Hparse. }
    repeat split. eexists. split; [done|]. right; left. by eauto 10. }
  assert (Hdec : usable ∨ ¬ usable).
  { unfold usable. destruct fetched as [res|message];
      [|right; by intros (? & ? & ? & _)].
    destruct (Earlier.corpusOk res) eqn:Hok;
      [|right; intros (? & ? & [= <-] & ? & _); congruence].
    destruct (Earlier.corpusText res) as [text|message] eqn:Htext;
      [|right; intros (? & ? & [= <-] & _ & ? & _); congruence].
    destruct (parseCorpus text) eqn:Hparse.
    - right. intros (? & ? & [= <-] & _ & ? & ?). congruence.
    - left. exists res, text. by rewrite Hparse. }
  split; [|split; [|split]].
  - destruct Hdec as [(res & text & H1 & H2 & H3 & H4)|Hnot].
    + by destruct (Hgood res text H1 H2 H3 H4) as (q & _ & ->).
    + by destruct (Hbad Hnot) as (? & _).
  - split.
    + intros Hshown. destruct Hdec as [?|Hnot]; [done|].
      destruct (Hbad Hnot) as (_ & Hhidden & _). congruence.
    + intros (res & text & H1 & H2 & H3 & H4).
      by destruct (Hgood res text H1 H2 H3 H4) as (q & _ & ->).
  - intros res text H1 H2 H3 H4.
    destruct (Hgood res text H1 H2 H3 H4) as (q & Hin & ->). cbn. by eauto.
  - intros Hnot. by destruct (Hbad Hnot) as (_ & _ & ? & ?).
Qed.

Lemma earlier_load_outcome_witness :
  Earlier.mainShown
    (Earlier.load (Earlier.Fulfilled corpusFound) (1 # 2) Earlier.initialState)
  = true
  ∧ Earlier.current
      (Earlier.load (Earlier.Fulfilled corpusMissing) (1 # 2) Earlier.initialState)
    = None.
Proof.
  pose proof (earlier_load_outcome (Earlier.Fulfilled corpusFound) (1 # 2)
                ltac:(discriminate) eq_refl) as (_ & Hshown & _).
  pose proof (earlier_load_outcome (Earlier.Fulfilled corpusMissing) (1 # 2)
                ltac:(discriminate) eq_refl) as (_ & _ & _ & Hbad).
  split.
  - apply Hshown. exists corpusFound, sampleTsv.
    repeat split; vm_compute; discriminate.
  - apply Hbad. intros (res & text & [= <-] & Hok & _). vm_compute in Hok.
    discriminate.
Defined.
